(** * Multi-resolution linear registration driver and the MTBIN outer loop

    A shallow embedding of [lib/registration/linear.h] (class
    [MR::Registration::Linear]) and of [cmd/mt_lognorm.cpp]: its argument
    handling, polynomial basis, mask loading, estimation loops and outlier
    rejection.

    Conventions of the embedding.
    - [default_type] (a C++ [double]) and [float] are modelled in the
      driver by [double]: an exact rational, an infinity or a NaN, with the
      comparisons and the arithmetic of IEEE 754 on them; rounding, overflow
      and the sign of a zero are not modelled.  The coordinates of
      [basis_function] are exact rationals.  The voxel values of
      [mt_lognorm.cpp], which may be infinite or NaN, are of a type left
      open, with the operations the code applies to them.
    - [int] and [size_t] values are modelled by [Z] (resp. [N]); the only
      arithmetic the driver performs on them is comparison, the loop counter
      of [mt_lognorm.cpp] wraps at [2^64] as a [size_t] does.
    - [std::vector<T>] is [list T]; [v[i]] outside the vector is undefined
      behaviour and yields the outcome [Undefined].
    - The class is compiled with neither [NONSYMREGISTRATION] nor
      [DEBUGSYMMETRY] defined (both are commented out at the top of the
      header), so the symmetric branches of the [#ifdef]s are the code.
    - The template parameters of [run_masked] (images, masks, metric,
      transform) and the classes it calls into (filters, average space,
      gradient descent) live in other files; they are the fields of the
      class [Collaborators].  A collaborator that may raise returns
      [Exception + A]; one that raises is taken to leave the objects it was
      handed as they were.
    - The optimiser is modelled by the parameter vector it returns for what
      it is handed.  The writes to the transform that are modelled are the
      driver's own: the initialisation and line 334. *)

From Stdlib Require Import String Ascii ZArith QArith Qround Bool Arith Lia List.
Import ListNotations.

Set Implicit Arguments.
Local Close Scope Q_scope.
Local Open Scope string_scope.
Local Open Scope list_scope.

(** ** Exceptions, outcomes and vectors *)

Inductive Exception : Type :=
  | mkException (msg : string).

Inductive outcome (A : Type) : Type :=
  | Returned (a : A)
  | Thrown (e : Exception)
  | Undefined.

Arguments Thrown {A} e.
Arguments Undefined {A}.

(** [std::vector::resize (n, v)]: truncate to [n] elements or pad with copies
    of [v]. *)
Definition vector_resize (A : Type) (n : nat) (v : A) (l : list A) : list A :=
  firstn n l ++ repeat v (n - length l).

Definition Qlt_bool (x y : Q) : bool := negb (Qle_bool y x).

(** The validation loops of the setters: walk the vector from index 0 and
    throw at the first offending element. *)
Fixpoint throw_if_any (A : Type) (bad : A -> bool) (e : Exception) (v : list A)
  : outcome unit :=
  match v with
  | [] => Returned tt
  | x :: v' => if bad x then Thrown e else throw_if_any bad e v'
  end.

(** *** Floating-point values *)

Inductive double : Type :=
  | Finite (q : Q)
  | PlusInfinity
  | MinusInfinity
  | NaN.

(** [x < y] and [x <= y]: false as soon as one side is a NaN; [x > y] is
    [double_lt y x]. *)
Definition double_lt (x y : double) : bool :=
  match x, y with
  | NaN, _ | _, NaN => false
  | Finite a, Finite b => Qlt_bool a b
  | MinusInfinity, MinusInfinity => false
  | MinusInfinity, _ => true
  | _, MinusInfinity => false
  | PlusInfinity, _ => false
  | _, PlusInfinity => true
  end.

Definition double_le (x y : double) : bool :=
  match x, y with
  | NaN, _ | _, NaN => false
  | Finite a, Finite b => Qle_bool a b
  | MinusInfinity, _ => true
  | _, PlusInfinity => true
  | _, _ => false
  end.

(** Whether the value is below zero. *)
Definition double_sign (x : double) : bool :=
  match x with
  | Finite q => Qlt_bool q 0
  | MinusInfinity => true
  | _ => false
  end.

Definition is_zero (x : double) : bool :=
  match x with
  | Finite q => Qeq_bool q 0
  | _ => false
  end.

Definition infinity (negative : bool) : double :=
  if negative then MinusInfinity else PlusInfinity.

(** [x * y]: a NaN gives a NaN, and so does an infinity times zero. *)
Definition double_mul (x y : double) : double :=
  match x, y with
  | NaN, _ | _, NaN => NaN
  | Finite a, Finite b => Finite (a * b)
  | _, _ =>
      if is_zero x || is_zero y then NaN
      else infinity (xorb (double_sign x) (double_sign y))
  end.

(** [x / y]: a NaN gives a NaN, and so do zero by zero and an infinity by an
    infinity; anything else by zero is an infinity. *)
Definition double_div (x y : double) : double :=
  match x, y with
  | NaN, _ | _, NaN => NaN
  | Finite a, Finite b =>
      if Qeq_bool b 0 then
        if Qeq_bool a 0 then NaN else infinity (Qlt_bool a 0)
      else Finite (a / b)
  | Finite _, _ => Finite 0
  | _, Finite b => infinity (xorb (double_sign x) (Qlt_bool b 0))
  | _, _ => NaN
  end.

(** [Eigen::MatrixXd], stored by columns; a default-constructed matrix has no
    column. *)
Definition MatrixXd : Type := list (list double).
Definition cols (m : MatrixXd) : nat := length m.

(** [Eigen::Transform<default_type, 3, Eigen::Projective>]: a 4x4 matrix,
    stored by rows. *)
Definition Projective : Type := list (list double).


(** ** The collaborators of the driver *)

Class Collaborators : Type := {
  (** [Im1ImageType], [Im2ImageType] and the [Image<float>] scratch images *)
  ImageType : Type;
  Header : Type;
  MaskType : Type;
  MetricType : Type;
  TransformType : Type;
  (** [TransformType::UpdateType] *)
  UpdateType : Type;
  (** [Eigen::Matrix<ParameterType, Eigen::Dynamic, 1>] *)
  ParameterVector : Type;
  (** [Transform::Init::InitType], an enumeration declared in
      [registration/transform/initialiser.h]; the driver only compares it
      against the two enumerators below. *)
  InitType : Type;
  mass : InitType;
  geometric : InitType;
  InitType_eq_dec : forall a b : InitType, {a = b} + {a <> b};
  (** the target of a [std::streambuf*] *)
  streambuf : Type;

  original_header : ImageType -> Header;
  (** [Header::scratch (h).get_image<float>()] *)
  scratch_image : Header -> ImageType;

  initialise_using_image_mass :
    ImageType -> ImageType -> TransformType -> Exception + TransformType;
  initialise_using_image_centres :
    ImageType -> ImageType -> TransformType -> Exception + TransformType;

  get_transform_half : TransformType -> Projective;
  get_transform_half_inverse : TransformType -> Projective;
  get_optimiser_weights : TransformType -> ParameterVector;
  get_gradient_descent_updator : TransformType -> UpdateType;
  set_parameter_vector : ParameterVector -> TransformType -> TransformType;

  (** [compute_minimum_average_header (headers, resolution, padding, transforms)] *)
  compute_minimum_average_header :
    list Header -> double -> list double -> list Projective -> Exception + Header;
  (** [Filter::Resize] built on a source image, with [set_scale_factor] and
      [set_interp_type], then executed into a scratch image *)
  resize_filter : ImageType -> double -> Z -> Exception + ImageType;
  (** [Filter::Smooth] built on a source image, with [set_stdev], then
      executed into a scratch image *)
  smooth_filter : ImageType -> double -> Exception + ImageType
}.

(** ** The class [Linear] *)

Section Driver.

Context {C : Collaborators}.

Record Linear : Type := mkLinear {
  max_iter : list Z;
  scale_factor : list double;
  sparsity : list double;
  smooth_factor : double;
  kernel_extent : list N;
  grad_tolerance : double;
  step_tolerance : double;
  log_stream : option streambuf;
  init_type : InitType;
  directions : MatrixXd
}.

(** The constructor [Linear ()]. *)
Definition Linear_new : Linear :=
  {| max_iter := [300%Z];
     scale_factor := [Finite 0.5; Finite 1];
     sparsity := [Finite 0.0];
     smooth_factor := Finite 1.0;
     kernel_extent := [1%N; 1%N; 1%N];
     grad_tolerance := Finite 1.0e-6;
     step_tolerance := Finite 1.0e-10;
     log_stream := None;
     init_type := mass;
     directions := [] |}.

Definition with_max_iter (v : list Z) (l : Linear) : Linear :=
  mkLinear v (scale_factor l) (sparsity l) (smooth_factor l) (kernel_extent l)
    (grad_tolerance l) (step_tolerance l) (log_stream l) (init_type l) (directions l).

Definition with_scale_factor (v : list double) (l : Linear) : Linear :=
  mkLinear (max_iter l) v (sparsity l) (smooth_factor l) (kernel_extent l)
    (grad_tolerance l) (step_tolerance l) (log_stream l) (init_type l) (directions l).

Definition with_sparsity (v : list double) (l : Linear) : Linear :=
  mkLinear (max_iter l) (scale_factor l) v (smooth_factor l) (kernel_extent l)
    (grad_tolerance l) (step_tolerance l) (log_stream l) (init_type l) (directions l).

Definition with_smooth_factor (v : double) (l : Linear) : Linear :=
  mkLinear (max_iter l) (scale_factor l) (sparsity l) v (kernel_extent l)
    (grad_tolerance l) (step_tolerance l) (log_stream l) (init_type l) (directions l).

Definition with_kernel_extent (v : list N) (l : Linear) : Linear :=
  mkLinear (max_iter l) (scale_factor l) (sparsity l) (smooth_factor l) v
    (grad_tolerance l) (step_tolerance l) (log_stream l) (init_type l) (directions l).

Definition with_grad_tolerance (v : double) (l : Linear) : Linear :=
  mkLinear (max_iter l) (scale_factor l) (sparsity l) (smooth_factor l) (kernel_extent l)
    v (step_tolerance l) (log_stream l) (init_type l) (directions l).

Definition with_step_tolerance (v : double) (l : Linear) : Linear :=
  mkLinear (max_iter l) (scale_factor l) (sparsity l) (smooth_factor l) (kernel_extent l)
    (grad_tolerance l) v (log_stream l) (init_type l) (directions l).

Definition with_log_stream (v : option streambuf) (l : Linear) : Linear :=
  mkLinear (max_iter l) (scale_factor l) (sparsity l) (smooth_factor l) (kernel_extent l)
    (grad_tolerance l) (step_tolerance l) v (init_type l) (directions l).

Definition with_init_type (v : InitType) (l : Linear) : Linear :=
  mkLinear (max_iter l) (scale_factor l) (sparsity l) (smooth_factor l) (kernel_extent l)
    (grad_tolerance l) (step_tolerance l) (log_stream l) v (directions l).

Definition with_directions (v : MatrixXd) (l : Linear) : Linear :=
  mkLinear (max_iter l) (scale_factor l) (sparsity l) (smooth_factor l) (kernel_extent l)
    (grad_tolerance l) (step_tolerance l) (log_stream l) (init_type l) v.

(** *** The setters

    A setter takes the object and returns the object after the call together
    with the outcome of the call. *)

Definition setter : Type := Linear -> Linear * outcome unit.

Definition validated (check : outcome unit) (store : Linear -> Linear) : setter :=
  fun this =>
    match check with
    | Returned _ => (store this, Returned tt)
    | Thrown e => (this, Thrown e)
    | Undefined => (this, Undefined)
    end.

Definition set_max_iter (maxiter : list Z) : setter :=
  validated
    (throw_if_any (fun x => (x <? 0)%Z)
       (mkException "the number of iterations must be positive") maxiter)
    (with_max_iter maxiter).

Definition set_scale_factor (scalefactor : list double) : setter :=
  validated
    (throw_if_any (fun x => double_le x (Finite 0) || double_lt (Finite 1) x)
       (mkException
          "the scale factor for each multi-resolution level must be between 0 and 1")
       scalefactor)
    (with_scale_factor scalefactor).

Definition set_smoothing_factor (smoothing_factor : double) : setter :=
  validated
    (if double_lt smoothing_factor (Finite 0)
     then Thrown (mkException "the smoothing factor must be non-negative")
     else Returned tt)
    (with_smooth_factor smoothing_factor).

Definition set_extent (extent : list N) : setter :=
  validated
    (throw_if_any (fun x => (x <? 1)%N)
       (mkException "the neighborhood kernel extent must be at least 1 voxel") extent)
    (with_kernel_extent extent).

Definition set_sparsity (sparsity_ : list double) : setter :=
  validated
    (throw_if_any (fun x => double_lt x (Finite 0.0) || double_lt (Finite 1.0) x)
       (mkException "sparsity must be between 0.0 and 1.0") sparsity_)
    (with_sparsity sparsity_).

Definition set_init_type (type : InitType) : setter :=
  fun this => (with_init_type type this, Returned tt).

Definition set_transform_type (type : InitType) : setter :=
  fun this => (with_init_type type this, Returned tt).

Definition set_directions (dir : MatrixXd) : setter :=
  fun this => (with_directions dir this, Returned tt).

Definition set_grad_tolerance (tolerance : double) : setter :=
  fun this => (with_grad_tolerance tolerance this, Returned tt).

Definition set_gradient_descent_log_stream (stream : option streambuf) : setter :=
  fun this => (with_log_stream stream this, Returned tt).

(** *** The gradient-descent call

    Everything the driver hands to [Math::GradientDescent] at one level: the
    [Metric::Evaluate] functor (metric, [Metric::Params] and the optional
    directions), the update functor, the preconditioner and the arguments of
    [optim.run].  [Metric::Params] holds the transform by reference, so
    [oc_transformation] is the caller's transform as it is when the optimiser
    starts. *)

Record optim_call : Type := mkOptimCall {
  oc_metric : MetricType;
  oc_transformation : TransformType;
  oc_im1_image : ImageType;
  oc_im2_image : ImageType;
  oc_midway_image : ImageType;
  oc_sparsity : double;
  oc_extent : list N;
  oc_im1_mask : option MaskType;
  oc_im2_mask : option MaskType;
  oc_directions : option MatrixXd;
  oc_update_functor : UpdateType;
  oc_precondition : ParameterVector;
  oc_max_iterations : Z;
  oc_grad_tolerance : double;
  oc_verbose : bool;
  oc_step_length_tolerance : double;
  oc_relative_cost_improvement_tolerance : double;
  oc_gradient_criterion_tolerance : double;
  oc_log_os : option streambuf
}.

(** [optim.run (...)] followed by [optim.state ()]. *)
Class Optimiser : Type := {
  gradient_descent : optim_call -> Exception + ParameterVector
}.

Context {O : Optimiser}.

(** *** Observable events *)

Inductive message : Type :=
  | MsgLevel (level : nat) (scale : double) (sparsity_shown : option double)
  | MsgSmoothFactor (f : double)
  | MsgSparsity (s : double)
  | MsgKernelExtent (e : list N).

Inductive event : Type :=
  | EvInitialiseMass (im1 im2 : ImageType)
  | EvInitialiseCentres (im1 im2 : ImageType)
  | EvAverageHeader (headers : list Header) (resolution : double)
      (padding : list double)
      (transforms : list Projective)
  | EvConsole (m : message)
  | EvInfo (m : message)
  | EvDebug (m : message)
  | EvResize (source : ImageType) (scale : double) (interp : Z)
  | EvSmooth (source : ImageType) (stdev : double)
  | EvOptimise (call : optim_call)
  | EvSetParameterVector (p : ParameterVector)
  | EvLogStream (s : streambuf) (text : string).

(** *** The state the driver works on, and its monad

    [run_masked] mutates the [Linear] object ([this]) and the transform it is
    given by reference.  A computation maps the state to the events it
    produced, the state it left and its outcome; an exception or undefined
    behaviour stops it and keeps the state reached. *)

Record world : Type := mkWorld {
  this : Linear;
  transform : TransformType
}.

Definition M (A : Type) : Type := world -> list event * world * outcome A.

Definition ret (A : Type) (a : A) : M A := fun w => ([], w, Returned a).

Definition bind (A B : Type) (m : M A) (k : A -> M B) : M B :=
  fun w =>
    match m w with
    | (tr, w1, Returned a) =>
        match k a w1 with (tr', w2, r) => (tr ++ tr', w2, r) end
    | (tr, w1, Thrown e) => (tr, w1, Thrown e)
    | (tr, w1, Undefined) => (tr, w1, Undefined)
    end.

Definition throw (A : Type) (msg : string) : M A :=
  fun w => ([], w, Thrown (mkException msg)).
Arguments throw {A} msg.

Definition emit (e : event) : M unit := fun w => ([e], w, Returned tt).

Definition get_this : M Linear := fun w => ([], w, Returned (this w)).

Definition put_this (l : Linear) : M unit :=
  fun w => ([], mkWorld l (transform w), Returned tt).

Definition get_transform : M TransformType := fun w => ([], w, Returned (transform w)).

Definition put_transform (t : TransformType) : M unit :=
  fun w => ([], mkWorld (this w) t, Returned tt).

(** The result of a collaborator. *)
Definition call (A : Type) (r : Exception + A) : M A :=
  fun w =>
    match r with
    | inl e => ([], w, Thrown e)
    | inr a => ([], w, Returned a)
    end.

(** [v[i]] *)
Definition at_index (A : Type) (v : list A) (i : nat) : M A :=
  fun w =>
    match nth_error v i with
    | Some x => ([], w, Returned x)
    | None => ([], w, Undefined)
    end.

Local Notation "x <- m ;; k" := (bind m (fun x => k))
  (at level 61, m at next level, right associativity).
Local Notation "m ;; k" := (bind m (fun _ => k))
  (at level 61, right associativity).

Fixpoint for_each (levels : list nat) (body : nat -> M unit) : M unit :=
  match levels with
  | [] => ret tt
  | level :: rest => body level ;; for_each rest body
  end.

(** *** [run_masked] *)

(** Lines 181-184. *)
Definition broadcast_max_iter : M unit :=
  l <- get_this ;;
  if Nat.eqb (length (max_iter l)) 1 then
    v <- at_index (max_iter l) 0 ;;
    put_this (with_max_iter (vector_resize (length (scale_factor l)) v (max_iter l)) l)
  else if negb (Nat.eqb (length (max_iter l)) (length (scale_factor l))) then
    throw "the max number of iterations needs to be defined for each multi-resolution level"
  else ret tt.

(** Lines 186-189. *)
Definition broadcast_sparsity : M unit :=
  l <- get_this ;;
  if Nat.eqb (length (sparsity l)) 1 then
    v <- at_index (sparsity l) 0 ;;
    put_this (with_sparsity (vector_resize (length (scale_factor l)) v (sparsity l)) l)
  else if negb (Nat.eqb (length (sparsity l)) (length (scale_factor l))) then
    throw "the sparsity level needs to be defined for each multi-resolution level"
  else ret tt.

(** Lines 181-189: the two checks, in the order of the source. *)
Definition broadcast_levels : M unit :=
  broadcast_max_iter ;;
  broadcast_sparsity.

(** Lines 192-195. *)
Definition initialise (im1_image im2_image : ImageType) : M unit :=
  l <- get_this ;;
  if InitType_eq_dec (init_type l) mass then
    emit (EvInitialiseMass im1_image im2_image) ;;
    t <- get_transform ;;
    t' <- call (initialise_using_image_mass im1_image im2_image t) ;;
    put_transform t'
  else if InitType_eq_dec (init_type l) geometric then
    emit (EvInitialiseCentres im1_image im2_image) ;;
    t <- get_transform ;;
    t' <- call (initialise_using_image_centres im1_image im2_image t) ;;
    put_transform t'
  else ret tt.

(** Lines 234-240. *)
Definition midway_space (im1_image im2_image : ImageType)
    (init_transforms : list Projective) : M ImageType :=
  let padding := [Finite 0.0; Finite 0.0; Finite 0.0; Finite 0.0] in
  let im2_res := Finite 1.0 in
  let headers := [original_header im2_image; original_header im1_image] in
  emit (EvAverageHeader headers im2_res padding init_transforms) ;;
  midway_image_header <-
    call (compute_minimum_average_header headers im2_res padding init_transforms) ;;
  ret (scratch_image midway_image_header).

(** The constant passed four times to [optim.run] on line 333. *)
Definition run_tolerance : double := Finite 1.0e-30.

(** The argument of [set_stdev] on lines 265 and 279. *)
Definition smooth_stdev (smooth_factor scale : double) : double :=
  double_div (double_mul smooth_factor (Finite 1.0)) (double_mul (Finite 2.0) scale).

Definition two_newlines : string :=
  String (ascii_of_nat 10) (String (ascii_of_nat 10) EmptyString).

(** Lines 244-343, one pass of the loop. *)
Definition level_body (metric : MetricType) (im1_image im2_image : ImageType)
    (im1_mask im2_mask : option MaskType) (optimiser_weights : ParameterVector)
    (midway_image : ImageType) (level : nat) : M unit :=
  l <- get_this ;;
  (* 245-248 *)
  sp <- at_index (sparsity l) level ;;
  sc <- at_index (scale_factor l) level ;;
  emit (EvConsole (MsgLevel (level + 1) sc
                     (if double_lt (Finite 0.0) sp then Some sp else None))) ;;
  (* 264-267 *)
  let im1_stdev := smooth_stdev (smooth_factor l) sc in
  emit (EvInfo (MsgSmoothFactor (smooth_factor l))) ;;
  (* 278-280 *)
  let im2_stdev := smooth_stdev (smooth_factor l) sc in
  (* 283-290 *)
  emit (EvResize midway_image sc 1) ;;
  midway_resized <- call (resize_filter midway_image sc 1) ;;
  (* 299-300 *)
  emit (EvSmooth im1_image im1_stdev) ;;
  im1__smoothed <- call (smooth_filter im1_image im1_stdev) ;;
  emit (EvSmooth im2_image im2_stdev) ;;
  im2__smoothed <- call (smooth_filter im2_image im2_stdev) ;;
  (* 304-324 *)
  sp' <- at_index (sparsity l) level ;;
  emit (EvInfo (MsgSparsity sp')) ;;
  emit (EvDebug (MsgKernelExtent (kernel_extent l))) ;;
  t <- get_transform ;;
  (* 327-333 *)
  mi <- at_index (max_iter l) level ;;
  let optim :=
    {| oc_metric := metric;
       oc_transformation := t;
       oc_im1_image := im1__smoothed;
       oc_im2_image := im2__smoothed;
       oc_midway_image := midway_resized;
       oc_sparsity := sp';
       oc_extent := kernel_extent l;
       oc_im1_mask := im1_mask;
       oc_im2_mask := im2_mask;
       oc_directions :=
         if Nat.eqb (cols (directions l)) 0 then None else Some (directions l);
       oc_update_functor := get_gradient_descent_updator t;
       oc_precondition := optimiser_weights;
       oc_max_iterations := mi;
       oc_grad_tolerance := run_tolerance;
       oc_verbose := false;
       oc_step_length_tolerance := run_tolerance;
       oc_relative_cost_improvement_tolerance := run_tolerance;
       oc_gradient_criterion_tolerance := run_tolerance;
       oc_log_os := log_stream l |} in
  emit (EvOptimise optim) ;;
  state <- call (gradient_descent optim) ;;
  (* 334 *)
  emit (EvSetParameterVector state) ;;
  t' <- get_transform ;;
  put_transform (set_parameter_vector state t') ;;
  (* 336-339 *)
  match log_stream l with
  | Some s => emit (EvLogStream s two_newlines)
  | None => ret tt
  end.

(** Lines 191-344: everything [run_masked] does once the per-level vectors
    have been checked. *)
Definition register_levels (metric : MetricType) (im1_image im2_image : ImageType)
    (im1_mask im2_mask : option MaskType) : M unit :=
  initialise im1_image im2_image ;;
  (* 199-202 *)
  t <- get_transform ;;
  let init_transforms := [get_transform_half t; get_transform_half_inverse t] in
  (* 227 *)
  let optimiser_weights := get_optimiser_weights t in
  midway_image <- midway_space im1_image im2_image init_transforms ;;
  (* 243 *)
  l <- get_this ;;
  for_each (seq 0 (length (scale_factor l)))
    (level_body metric im1_image im2_image im1_mask im2_mask optimiser_weights
       midway_image).

(** Lines 172-356.  A mask is an image; [None] is one for which [valid ()]
    is false.  The wrappers [run], [run_im2_mask] and [run_im1_mask] of lines
    136-170 hand [nullptr] or a [std::unique_ptr] to the two mask references
    of [run_masked]; no instantiation of them compiles, and they are not
    modelled. *)
Definition run_masked (metric : MetricType) (im1_image im2_image : ImageType)
    (im1_mask im2_mask : option MaskType) : M unit :=
  broadcast_levels ;;
  register_levels metric im1_image im2_image im1_mask im2_mask.


End Driver.

(** ** A synthetic set of collaborators

    One-dimensional registration of two point masses: an image is the
    position of its mass and the amount of blur it carries, a transform is a
    translation along x, and the optimiser moves the translation half-way
    towards the offset between the two (blurred) masses.  It is used to run
    the driver on concrete inputs. *)

Module Synthetic.

Inductive init : Type := init_mass | init_geometric | init_none.

Definition init_eq_dec (a b : init) : {a = b} + {a <> b}.
Proof. decide equality. Defined.

Definition translation (x : Q) : Projective :=
  map (map Finite) [[1; 0; 0; x]; [0; 1; 0; 0]; [0; 0; 1; 0]; [0; 0; 0; 1]]%Q.

Definition mean (xs : list Q) : Q :=
  (fold_right Qplus 0 xs / inject_Z (Z.of_nat (length xs)))%Q.

#[export] Instance collaborators : Collaborators := {|
  ImageType := Q * Q;
  Header := Q;
  MaskType := unit;
  MetricType := unit;
  TransformType := Q;
  UpdateType := unit;
  ParameterVector := Q;
  InitType := init;
  mass := init_mass;
  geometric := init_geometric;
  InitType_eq_dec := init_eq_dec;
  streambuf := nat;
  original_header := fst;
  scratch_image := fun h => (h, 0%Q);
  initialise_using_image_mass := fun im1 im2 _ => inr (Qred (fst im2 - fst im1));
  initialise_using_image_centres := fun _ _ _ => inr 0%Q;
  get_transform_half := fun t => translation (Qred (t / 2));
  get_transform_half_inverse := fun t => translation (Qred (- t / 2));
  get_optimiser_weights := fun _ => 1%Q;
  get_gradient_descent_updator := fun _ => tt;
  set_parameter_vector := fun p _ => p;
  compute_minimum_average_header := fun headers _ _ _ => inr (Qred (mean headers));
  resize_filter := fun im scale _ =>
    match scale with
    | Finite s =>
        if Qle_bool s 0
        then inl (mkException "scale factor must be positive")
        else inr (fst im, Qred (snd im / s))
    | _ => inl (mkException "scale factor must be finite")
    end;
  smooth_filter := fun im stdev =>
    match stdev with
    | Finite s => inr (fst im, Qred (snd im + s))
    | _ => inl (mkException "standard deviation must be finite")
    end
|}.

#[export] Instance optimiser : Optimiser := {|
  gradient_descent := fun c =>
    if (oc_max_iterations c <=? 0)%Z
    then inr (oc_transformation c)
    else inr (Qred ((oc_transformation c
                     + (fst (oc_im2_image c) - fst (oc_im1_image c))) / 2))
|}.

Definition im1 : ImageType := (1, 0)%Q.
Definition im2 : ImageType := (5, 0)%Q.

(** The object as constructed (two levels, [max_iter] and [sparsity] given
    with one element, initialisation by mass), the transform starting at 0. *)
Definition start : world := mkWorld Linear_new 0%Q.

(** The same with the initialisation by centres, which leaves the
    optimiser something to do. *)
Definition start_geometric : world :=
  mkWorld (fst (set_init_type init_geometric Linear_new)) 0%Q.

Definition synthetic_run : list event * world * outcome unit :=
  run_masked tt im1 im2 None None start.

Definition synthetic_run_geometric : list event * world * outcome unit :=
  run_masked tt im1 im2 None None start_geometric.

End Synthetic.


(** ** The outer estimation loop of [mt_lognorm.cpp]

    Lines 204 and 221-369 of [run ()].  The numerical work of the loop body
    (least-squares solves, logarithms, outlier rejection on the mask, the
    bias field) is floating-point image processing; it is kept as the
    parameters of the section, acting on a state that stands for the images,
    the mask and the scale factors.  What is modelled is the control: the
    two counters, both [size_t], the two loop conditions and the
    [INFO ("iteration: " + str(iter))] message each outer pass starts with. *)

Module MtLognorm.

Definition DEFAULT_MAXITER_VALUE : Z := 10.

(** Conversion to [size_t], and [++] on a [size_t]. *)
Definition to_size_t (x : Z) : Z := (x mod 2 ^ 64)%Z.
Definition size_t_succ (x : Z) : Z := to_size_t (x + 1).

(** Line 204: [const size_t max_iter = get_option_value ("maxiter",
    DEFAULT_MAXITER_VALUE)], for the value given with [-maxiter], if any. *)
Definition max_iter_of (maxiter : option Z) : Z :=
  to_size_t (match maxiter with Some v => v | None => DEFAULT_MAXITER_VALUE end).

Section Estimation.

Variable State : Type.
(** Lines 238-263. *)
Variable solve_scale_factors : State -> State.
(** Lines 268-271: [diff.mean() < 0.001]. *)
Variable change_is_small : State -> bool.
(** Lines 276-322. *)
Variable reject_outliers : State -> State.
(** Line 324. *)
Variable store_scale_factors : State -> State.
(** Lines 330-365. *)
Variable fit_bias_field : State -> State.

(** One pass of the inner loop (lines 236-324); [norm_converged] is false
    when a pass starts. *)
Definition norm_pass (iter : Z) (s : State) : State * bool :=
  let s1 := solve_scale_factors s in
  let norm_converged := if (1 <? iter)%Z then change_is_small s1 else false in
  let s2 := if norm_converged then s1 else reject_outliers s1 in
  (store_scale_factors s2, norm_converged).

(** Lines 234-327: [while (!norm_converged && norm_iter < max_iter)]. *)
Fixpoint norm_loop (fuel : nat) (max_iter iter norm_iter : Z) (norm_converged : bool)
    (s : State) : option State :=
  if negb norm_converged && (norm_iter <? max_iter)%Z then
    match fuel with
    | O => None
    | S fuel' =>
        let (s', converged) := norm_pass iter s in
        norm_loop fuel' max_iter iter (size_t_succ norm_iter) converged s'
    end
  else Some s.

(** Lines 224-369: [while (iter < max_iter)].  The result is the list of the
    values of [iter] reported by line 227, one per pass, and the final
    state. *)
Fixpoint outer_loop (fuel inner_fuel : nat) (max_iter iter : Z) (s : State)
  : option (list Z * State) :=
  if (iter <? max_iter)%Z then
    match fuel with
    | O => None
    | S fuel' =>
        match norm_loop inner_fuel max_iter iter 1 false s with
        | None => None
        | Some s1 =>
            match outer_loop fuel' inner_fuel max_iter (size_t_succ iter)
                    (fit_bias_field s1) with
            | None => None
            | Some (reported, s') => Some (iter :: reported, s')
            end
        end
    end
  else Some ([], s).

(** Lines 204-369, from [size_t iter = 1]. *)
Definition estimate (maxiter : option Z) (fuel inner_fuel : nat) (s : State)
  : option (list Z * State) :=
  outer_loop fuel inner_fuel (max_iter_of maxiter) 1 s.

End Estimation.

End MtLognorm.

(** ** The set-up of [mt_lognorm.cpp]: arguments and polynomial basis

    Lines 75-104 and 136-163.  [Image<float>::open], [check_dimensions],
    [Path::exists], [App::overwrite_files] and [Header::open] belong to the
    library and are the parameters of the section; the coordinates of
    [basis_function] are exact rationals. *)

Module MtLognormSetup.

Definition n_basis_vecs : nat := 20.

(** Lines 78-104. *)
Definition basis_function (x y z : Q) : list Q :=
  [1.0; x; y; z;
   x * y; x * z; y * z;
   x * x; y * y; z * z;
   x * x * y; x * x * z; y * y * x; y * y * z; z * z * x; z * z * y;
   x * x * x; y * y * y; z * z * z;
   x * y * z]%Q.

Section Arguments.

Variable Image : Type.
Variable Header : Type.
Variable open_image : string -> Exception + Image.
Variable check_dimensions : Image -> Image -> Exception + unit.
Variable path_exists : string -> bool.
Variable overwrite_files : bool.
Variable open_header : string -> Exception + Header.

(** The three vectors filled by the loop of lines 149-163. *)
Record inputs : Type := mkInputs {
  input_images : list Image;
  output_headers : list Header;
  output_filenames : list string
}.

Definition double_quote : string := String (ascii_of_nat 34) EmptyString.

(** The text of the exception of line 158, for the name put in it. *)
Definition exists_message (name : string) : string :=
  "output file " ++ double_quote ++ name ++ double_quote
  ++ " already exists (use -force option to force overwrite)".

(** Lines 149-163, two arguments per pass: [argument[i]] is the head of the
    list and [argument[i + 1]] the element after it.  [i] is 0 exactly when
    no image has been opened yet, and [input_images[i / 2]] is the image
    just opened. *)
Fixpoint open_pairs (argument : list string) (acc : inputs) : outcome inputs :=
  match argument with
  | [] => Returned acc
  | input :: rest =>
      match open_image input with
      | inl e => Thrown e
      | inr im =>
          match
            match input_images acc with
            | [] => inr tt
            | first :: _ => check_dimensions first im
            end
          with
          | inl e => Thrown e
          | inr _ =>
              match rest with
              | [] => Undefined
              | output :: rest' =>
                  if path_exists output && negb overwrite_files then
                    Thrown (mkException (exists_message input))
                  else
                    match open_header input with
                    | inl e => Thrown e
                    | inr h =>
                        open_pairs rest'
                          (mkInputs (input_images acc ++ [im])
                             (output_headers acc ++ [h])
                             (output_filenames acc ++ [output]))
                    end
              end
          end
      end
  end.

Definition odd_error : Exception :=
  mkException
    "The number of input arguments must be even. There must be an output file provided for every input tissue image".

Definition too_few_error : Exception :=
  mkException "At least two tissue types must be provided".

(** Lines 136-163. *)
Definition open_inputs (argument : list string) : outcome inputs :=
  if Nat.eqb (Nat.modulo (length argument) 2) 0 then
    if Nat.ltb (length argument) 4 then Thrown too_few_error
    else open_pairs argument (mkInputs [] [] [])
  else Thrown odd_error.

(** What one more pair of arguments, opened without an exception, adds to
    the three vectors. *)
Definition pair_opened (acc : inputs) (p : string * string)
    (acc' : inputs) : Prop :=
  exists im h,
    open_image (fst p) = inr im
    /\ open_header (fst p) = inr h
    /\ (path_exists (snd p) = false \/ overwrite_files = true)
    /\ match input_images acc with
       | [] => True
       | first :: _ => check_dimensions first im = inr tt
       end
    /\ acc' = mkInputs (input_images acc ++ [im]) (output_headers acc ++ [h])
                (output_filenames acc ++ [snd p]).

(** The pairs opened one after the other. *)
Fixpoint pairs_opened (acc : inputs) (ps : list (string * string))
    (acc' : inputs) : Prop :=
  match ps with
  | [] => acc' = acc
  | p :: ps' => exists mid, pair_opened acc p mid /\ pairs_opened mid ps' acc'
  end.

End Arguments.

(** The exponents of x, y and z in the entries of [basis_function], in the
    order of the entries. *)
Definition basis_exponents : list (nat * nat * nat) :=
  [(0, 0, 0); (1, 0, 0); (0, 1, 0); (0, 0, 1);
   (1, 1, 0); (1, 0, 1); (0, 1, 1);
   (2, 0, 0); (0, 2, 0); (0, 0, 2);
   (2, 1, 0); (2, 0, 1); (1, 2, 0); (0, 2, 1); (1, 0, 2); (0, 1, 2);
   (3, 0, 0); (0, 3, 0); (0, 0, 3);
   (1, 1, 1)].

Definition monomial (x y z : Q) (e : nat * nat * nat) : Q :=
  (x ^ Z.of_nat (fst (fst e)) * y ^ Z.of_nat (snd (fst e)) * z ^ Z.of_nat (snd e))%Q.

(** The arguments two by two. *)
Fixpoint pair_up (A : Type) (l : list A) : list (A * A) :=
  match l with
  | a :: b :: rest => (a, b) :: pair_up rest
  | _ => []
  end.

End MtLognormSetup.

(** ** The outlier rejection of [mt_lognorm.cpp]

    Lines 121-131 and 291-318.  An image is the list of its voxels in the
    order of [Loop]; the images of one loop are walked together.  The voxel
    values are [float]s that may be infinite or NaN, so their type, the test
    [std::isfinite], the comparison [<], [std::sort] and the arithmetic of
    the two thresholds are the parameters of the section.  [num_voxels] is a
    [size_t]. *)

Module MtLognormOutliers.

(** [std::round] on a [double]: halfway cases go away from zero. *)
Definition std_round (x : Q) : Z :=
  if Qlt_bool x 0 then Qceiling (x - (1 # 2)) else Qfloor (x + (1 # 2)).

(** [std::round ((float)num_voxels * fraction)] of lines 304 and 305.  The
    conversion to [float] and the product are exact up to [2^24] voxels. *)
Definition quartile_index (num_voxels : Z) (fraction : Q) : Z :=
  std_round (inject_Z num_voxels * fraction).

(** [v[i]] for the index that a [double] converts to. *)
Definition vector_at (A : Type) (v : list A) (i : Z) : outcome A :=
  if (i <? 0)%Z then Undefined
  else match nth_error v (Z.to_nat i) with
       | Some x => Returned x
       | None => Undefined
       end.


Section Rejection.

Variable float : Type.
Variable isfinite : float -> bool.
(** [a < b]; [a > b] is [flt b a]. *)
Variable flt : float -> float -> bool.
(** [0.f] *)
Variable zero : float.
Variable sort : list float -> list float.
(** Lines 307 and 306, from the lower and the upper quartile. *)
Variable lower_outlier_threshold upper_outlier_threshold : float -> float -> float.

(** Lines 121-131. *)
Fixpoint refine_mask (summed : list float) (initial_mask refined_mask : list bool)
  : list bool :=
  match summed, initial_mask, refined_mask with
  | v :: summed', m :: initial_mask', _ :: refined_mask' =>
      (isfinite v && flt zero v && m) :: refine_mask summed' initial_mask' refined_mask'
  | _, _, _ => refined_mask
  end.




(** Lines 293-297. *)
Fixpoint masked_values (mask : list bool) (summed_log : list float) : list float :=
  match mask, summed_log with
  | m :: mask', v :: summed_log' =>
      if m then v :: masked_values mask' summed_log'
      else masked_values mask' summed_log'
  | _, _ => []
  end.

(** Lines 311-318: the mask and [num_voxels] after the loop. *)
Fixpoint reject (lower upper : float) (mask : list bool) (summed_log : list float)
    (num_voxels : Z) : list bool * Z :=
  match mask, summed_log with
  | m :: mask', v :: summed_log' =>
      if m && (flt v lower || flt upper v) then
        let (rest, n) :=
          reject lower upper mask' summed_log' (MtLognorm.to_size_t (num_voxels - 1)) in
        (false :: rest, n)
      else
        let (rest, n) := reject lower upper mask' summed_log' num_voxels in
        (m :: rest, n)
  | _, _ => (mask, num_voxels)
  end.

(** Lines 291-318, from the log of the summed tissue images: the mask and
    [num_voxels] they leave.  The [display] of line 321 is left out. *)
Definition reject_outliers (summed_log : list float) (initial_mask mask : list bool)
  : outcome (list bool * Z) :=
  let mask := refine_mask summed_log initial_mask mask in
  let summed_log_values := masked_values mask summed_log in
  let num_voxels := MtLognorm.to_size_t (Z.of_nat (length summed_log_values)) in
  let summed_log_values := sort summed_log_values in
  match vector_at summed_log_values (quartile_index num_voxels 0.25) with
  | Returned lower_quartile =>
      match vector_at summed_log_values (quartile_index num_voxels 0.75) with
      | Returned upper_quartile =>
          let upper := upper_outlier_threshold lower_quartile upper_quartile in
          let lower := lower_outlier_threshold lower_quartile upper_quartile in
          Returned (reject lower upper mask summed_log num_voxels)
      | Thrown e => Thrown e
      | Undefined => Undefined
      end
  | Thrown e => Thrown e
  | Undefined => Undefined
  end.

End Rejection.

(** A model of the parameters with rationals as voxel values: every value is
    finite, [std::sort] is an insertion sort, and the thresholds are those of
    lines 306 and 307. *)
Fixpoint insert_sorted (x : Q) (l : list Q) : list Q :=
  match l with
  | [] => [x]
  | y :: l' => if Qle_bool x y then x :: l else y :: insert_sorted x l'
  end.

Definition insertion_sort (l : list Q) : list Q := fold_right insert_sorted [] l.

Definition rational_reject_outliers
  : list Q -> list bool -> list bool -> outcome (list bool * Z) :=
  reject_outliers (fun _ => true) Qlt_bool 0%Q insertion_sort
    (fun lower_quartile upper_quartile =>
       (lower_quartile - 1.6 * (upper_quartile - lower_quartile))%Q)
    (fun lower_quartile upper_quartile =>
       (upper_quartile + 1.6 * (upper_quartile - lower_quartile))%Q).

End MtLognormOutliers.

(** ** Vocabulary for the facts about the driver *)

Section DriverVocabulary.

Context {C : Collaborators} {O : Optimiser}.

(** The three components of what a computation yields. *)
Definition trace_of (A : Type) (x : list event * world * outcome A) : list event :=
  fst (fst x).
Definition world_of (A : Type) (x : list event * world * outcome A) : world :=
  snd (fst x).
Definition outcome_of (A : Type) (x : list event * world * outcome A) : outcome A :=
  snd x.

(** The exceptions of lines 184 and 189. *)
Definition max_iter_error : Exception :=
  mkException
    "the max number of iterations needs to be defined for each multi-resolution level".

Definition sparsity_error : Exception :=
  mkException "the sparsity level needs to be defined for each multi-resolution level".

(** What the validation phase leaves in [max_iter] and [sparsity]. *)
Definition broadcast_to (A : Type) (n : nat) (v : list A) : list A :=
  match v with
  | [x] => repeat x n
  | _ => v
  end.

(** [m] leaves the [Linear] object as it found it. *)
Definition keeps_this (A : Type) (m : M A) : Prop :=
  forall w, this (world_of (m w)) = this w.

(** The elements of a trace selected by [f], in order. *)
Definition pick (A : Type) (f : event -> option A) (tr : list event) : list A :=
  flat_map (fun e => match f e with Some a => [a] | None => [] end) tr.

Definition as_optimise (e : event) : option optim_call :=
  match e with EvOptimise c => Some c | _ => None end.

Definition as_commit (e : event) : option ParameterVector :=
  match e with EvSetParameterVector p => Some p | _ => None end.

Definition optim_calls (tr : list event) : list optim_call := pick as_optimise tr.
Definition commits (tr : list event) : list ParameterVector := pick as_commit tr.

(** [a] is an initial segment of [b]. *)
Definition prefix (A : Type) (a b : list A) : Prop := exists c, b = a ++ c.

(** [m] keeps the property [I] of the state and only emits events that
    satisfy [P]. *)
Definition hoare (A : Type) (I : world -> Prop) (P : event -> Prop) (m : M A) : Prop :=
  forall w, I w -> I (world_of (m w)) /\ Forall P (trace_of (m w)).

(** The event of line 239. *)
Definition average_header_event (im1 im2 : ImageType) (t : TransformType) : event :=
  EvAverageHeader [original_header im2; original_header im1] (Finite 1.0)
    [Finite 0.0; Finite 0.0; Finite 0.0; Finite 0.0]
    [get_transform_half t; get_transform_half_inverse t].

(** The same state with other values in [grad_tolerance] and
    [step_tolerance]. *)
Definition retune (g s : double) (w : world) : world :=
  mkWorld (with_step_tolerance s (with_grad_tolerance g (this w))) (transform w).

Definition retuned (A : Type) (g s : double) (x : list event * world * outcome A)
  : list event * world * outcome A :=
  (trace_of x, retune g s (world_of x), outcome_of x).

(** [m] does the same whatever the two tolerance fields hold, and leaves
    them alone. *)
Definition tolerance_blind (A : Type) (m : M A) : Prop :=
  forall g s w, m (retune g s w) = retuned g s (m w).

(** What line 333 passes to [optim.run] besides the iteration count. *)
Definition fixed_tolerances (e : event) : Prop :=
  match e with
  | EvOptimise c =>
      oc_grad_tolerance c = run_tolerance
      /\ oc_verbose c = false
      /\ oc_step_length_tolerance c = run_tolerance
      /\ oc_relative_cost_improvement_tolerance c = run_tolerance
      /\ oc_gradient_criterion_tolerance c = run_tolerance
  | _ => True
  end.

(** The events of lines 192-195. *)
Definition is_initialise (im1 im2 : ImageType) (e : event) : Prop :=
  e = EvInitialiseMass im1 im2 \/ e = EvInitialiseCentres im1 im2.

(** The first argument of [optim.run]. *)
Definition as_max_iterations (e : event) : option Z :=
  option_map oc_max_iterations (as_optimise e).

Definition nth_or_nothing (A : Type) (v : list A) (i : nat) : list A :=
  match nth_error v i with Some x => [x] | None => [] end.

(** The midway header a run asks for, given the transform as initialised. *)
Definition midway_header (im1 im2 : ImageType) (t : TransformType)
  : Exception + Header :=
  compute_minimum_average_header
    [original_header im2; original_header im1] (Finite 1.0)
    [Finite 0.0; Finite 0.0; Finite 0.0; Finite 0.0]
    [get_transform_half t; get_transform_half_inverse t].

(** What an event of the level loop can be, for the object [l], the inputs
    [im1], [im2] and the midway image [mid]. *)
Definition level_event (l : Linear) (im1 im2 mid : ImageType) (e : event) : Prop :=
  match e with
  | EvInitialiseMass _ _ | EvInitialiseCentres _ _ | EvAverageHeader _ _ _ _ => False
  | EvResize src sc interp =>
      src = mid /\ interp = 1%Z /\ In sc (scale_factor l)
  | EvSmooth src stdev =>
      (src = im1 \/ src = im2)
      /\ exists sc, In sc (scale_factor l) /\ stdev = smooth_stdev (smooth_factor l) sc
  | EvOptimise c =>
      exists sc,
        In sc (scale_factor l)
        /\ resize_filter mid sc 1 = inr (oc_midway_image c)
        /\ smooth_filter im1 (smooth_stdev (smooth_factor l) sc) = inr (oc_im1_image c)
        /\ smooth_filter im2 (smooth_stdev (smooth_factor l) sc) = inr (oc_im2_image c)
  | _ => True
  end.

Definition as_average_header (e : event)
  : option (list Header * double * list double * list Projective) :=
  match e with
  | EvAverageHeader hs res pad ts => Some (hs, res, pad, ts)
  | _ => None
  end.

(** The calls of [compute_minimum_average_header] in a trace. *)
Definition average_headers (tr : list event)
  : list (list Header * double * list double * list Projective) :=
  pick as_average_header tr.

Definition as_filter (e : event) : option event :=
  match e with
  | EvResize _ _ _ | EvSmooth _ _ => Some e
  | _ => None
  end.


(** An event that is neither an optimiser call nor a commit. *)
Definition quiet (e : event) : Prop := as_optimise e = None /\ as_commit e = None.

(** [level_chain t tr n t']: the trace [tr] holds [n] optimiser calls; each
    starts from the transform left by the previous commit ([t] for the
    first), returns a parameter vector, and is followed at once by the commit
    of that vector; [t'] is the transform after the last commit. *)
Inductive level_chain : TransformType -> list event -> nat -> TransformType -> Prop :=
  | chain_end (t : TransformType) (tr : list event) :
      Forall quiet tr -> level_chain t tr 0 t
  | chain_level (t : TransformType) (pre : list event) (c : optim_call)
      (p : ParameterVector) (rest : list event) (n : nat) (t' : TransformType) :
      Forall quiet pre ->
      oc_transformation c = t ->
      gradient_descent c = inr p ->
      level_chain (set_parameter_vector p t) rest n t' ->
      level_chain t (pre ++ EvOptimise c :: EvSetParameterVector p :: rest) (S n) t'.

(** The same, on the list of calls and the list of commits. *)
Fixpoint chained (t : TransformType) (calls : list optim_call)
    (ps : list ParameterVector) (t' : TransformType) : Prop :=
  match calls, ps with
  | [], [] => t' = t
  | c :: calls', p :: ps' =>
      oc_transformation c = t
      /\ gradient_descent c = inr p
      /\ chained (set_parameter_vector p t) calls' ps' t'
  | _, _ => False
  end.


(** The transform after the events of a trace, from the transform before
    them: the only events that change it are the initialisation and the
    commits. *)
Definition replay_step (t : TransformType) (e : event) : TransformType :=
  match e with
  | EvInitialiseMass im1 im2 =>
      match initialise_using_image_mass im1 im2 t with
      | inr t' => t'
      | inl _ => t
      end
  | EvInitialiseCentres im1 im2 =>
      match initialise_using_image_centres im1 im2 t with
      | inr t' => t'
      | inl _ => t
      end
  | EvSetParameterVector p => set_parameter_vector p t
  | _ => t
  end.

Definition replay (t : TransformType) (tr : list event) : TransformType :=
  fold_left replay_step tr t.

(** The transform [m] leaves is the replay of the events of [m]. *)
Definition tracks (A : Type) (m : M A) : Prop :=
  forall w, transform (world_of (m w)) = replay (transform w) (trace_of (m w)).


(** Every optimiser call of the trace starts from the transform obtained by
    replaying the events before it. *)
Fixpoint calls_track (t : TransformType) (tr : list event) : Prop :=
  match tr with
  | [] => True
  | e :: tr' =>
      match e with
      | EvOptimise c => oc_transformation c = t
      | _ => True
      end
      /\ calls_track (replay_step t e) tr'
  end.

Definition tracks_calls (A : Type) (m : M A) : Prop :=
  forall w, calls_track (transform w) (trace_of (m w)).

(** *** Vocabulary for the setters and the objects they build *)

(** The values that the tests of lines 89, 111 and 96 do not refuse: those
    of the range, and those that fail the comparisons of the test without
    being in the range, a NaN for all three and the infinity above zero for
    the smoothing factor. *)
Definition scale_factor_ok (x : double) : Prop :=
  x = NaN \/ exists q, x = Finite q /\ (0 < q /\ q <= 1)%Q.
Definition sparsity_ok (x : double) : Prop :=
  x = NaN \/ exists q, x = Finite q /\ (0 <= q /\ q <= 1)%Q.
Definition smooth_factor_ok (x : double) : Prop :=
  x = NaN \/ x = PlusInfinity \/ exists q, x = Finite q /\ (0 <= q)%Q.
Definition extent_ok (x : N) : Prop := (1 <= x)%N.

(** What the five validating setters let through. *)
Definition well_formed (l : Linear) : Prop :=
  Forall (fun x => (0 <= x)%Z) (max_iter l)
  /\ Forall scale_factor_ok (scale_factor l)
  /\ Forall sparsity_ok (sparsity l)
  /\ smooth_factor_ok (smooth_factor l)
  /\ Forall extent_ok (kernel_extent l).

(** The public member functions that write to the object. *)
Inductive is_setter : setter -> Prop :=
  | is_set_max_iter (v : list Z) : is_setter (set_max_iter v)
  | is_set_scale_factor (v : list double) : is_setter (set_scale_factor v)
  | is_set_smoothing_factor (v : double) : is_setter (set_smoothing_factor v)
  | is_set_extent (v : list N) : is_setter (set_extent v)
  | is_set_sparsity (v : list double) : is_setter (set_sparsity v)
  | is_set_init_type (v : InitType) : is_setter (set_init_type v)
  | is_set_transform_type (v : InitType) : is_setter (set_transform_type v)
  | is_set_directions (v : MatrixXd) : is_setter (set_directions v)
  | is_set_grad_tolerance (v : double) : is_setter (set_grad_tolerance v)
  | is_set_log_stream (v : option streambuf) :
      is_setter (set_gradient_descent_log_stream v).

(** The objects a caller can hold: the constructed one, and what any call of
    a setter (whether it returns or throws) or any run leaves. *)
Inductive reachable : Linear -> Prop :=
  | reach_new : reachable Linear_new
  | reach_setter (l : Linear) (s : setter) :
      reachable l -> is_setter s -> reachable (fst (s l))
  | reach_run (l : Linear) (t : TransformType) metric im1 im2 m1 m2 :
      reachable l ->
      reachable (this (world_of (run_masked metric im1 im2 m1 m2 (mkWorld l t)))).

(** *** Vocabulary for what a level hands to the optimiser *)

(** What an optimiser call of the level loop carries, for the object [l],
    the metric, the masks and the preconditioner the loop was entered
    with. *)
Definition call_fields (l : Linear) (metric : MetricType)
    (m1 m2 : option MaskType) (wts : ParameterVector) (e : event) : Prop :=
  match e with
  | EvOptimise c =>
      oc_metric c = metric
      /\ oc_im1_mask c = m1
      /\ oc_im2_mask c = m2
      /\ oc_extent c = kernel_extent l
      /\ oc_directions c =
           (if Nat.eqb (cols (directions l)) 0 then None else Some (directions l))
      /\ oc_log_os c = log_stream l
      /\ oc_precondition c = wts
      /\ oc_update_functor c = get_gradient_descent_updator (oc_transformation c)
      /\ In (oc_sparsity c) (sparsity l)
      /\ In (oc_max_iterations c) (max_iter l)
  | _ => True
  end.

Definition as_sparsity (e : event) : option double :=
  option_map oc_sparsity (as_optimise e).

(** *** Vocabulary for the messages and the exceptions of a run *)

Definition as_log (e : event) : option (streambuf * string) :=
  match e with EvLogStream s text => Some (s, text) | _ => None end.

Definition as_console (e : event) : option message :=
  match e with EvConsole m => Some m | _ => None end.

(** The message of line 247 for the level of index [level]. *)
Definition level_message (l : Linear) (level : nat) : message :=
  let sp := nth level (sparsity l) (Finite 0) in
  MsgLevel (level + 1) (nth level (scale_factor l) (Finite 0))
    (if double_lt (Finite 0.0) sp then Some sp else None).



End DriverVocabulary.

(** ** Facts about the driver *)

Section DriverFacts.

Context {C : Collaborators} {O : Optimiser}.

Ltac unfold_monad :=
  unfold bind, ret, throw, emit, get_this, put_this, get_transform, put_transform,
    call, at_index in *.

Ltac unfold_views := unfold trace_of, world_of, outcome_of in *.

(** Case analysis on the outermost scrutinee that is not itself a match. *)
Ltac break_match :=
  match goal with
  | |- context [match ?x with _ => _ end] =>
      lazymatch x with
      | context [match _ with _ => _ end] => fail
      | _ => destruct x eqn:?
      end
  end.

Ltac explode := repeat (break_match; simpl in *; try reflexivity).

Lemma bind_eq_on (A B : Type) (m : M A) (k : A -> M B) (w1 w2 : world) :
  m w1 = m w2 -> bind m k w1 = bind m k w2.
Proof. unfold bind. intros ->. reflexivity. Qed.

Lemma bind_returned (A B : Type) (m : M A) (k : A -> M B) w tr w1 a :
  m w = (tr, w1, Returned a) ->
  bind m k w = (tr ++ trace_of (k a w1), world_of (k a w1), outcome_of (k a w1)).
Proof.
  unfold bind. intros ->. destruct (k a w1) as [[tr' w2] r]. reflexivity.
Qed.

Lemma bind_thrown (A B : Type) (m : M A) (k : A -> M B) w tr w1 e :
  m w = (tr, w1, Thrown e) -> bind m k w = (tr, w1, Thrown e).
Proof. unfold bind. intros ->. reflexivity. Qed.

Lemma bind_undefined (A B : Type) (m : M A) (k : A -> M B) w tr w1 :
  m w = (tr, w1, Undefined) -> bind m k w = (tr, w1, Undefined).
Proof. unfold bind. intros ->. reflexivity. Qed.

(** *** Vectors *)

Lemma vector_resize_singleton (A : Type) (n : nat) (v : A) :
  vector_resize n v [v] = repeat v n.
Proof.
  unfold vector_resize. destruct n as [|n]; simpl; [reflexivity|].
  rewrite firstn_nil, Nat.sub_0_r. reflexivity.
Qed.

Lemma length_one (A : Type) (l : list A) :
  length l = 1 -> exists v, l = [v].
Proof.
  destruct l as [|v [|? ?]]; simpl; try discriminate. intros _. now exists v.
Qed.

(** *** The setters *)

Lemma throw_if_any_thrown (A : Type) (bad : A -> bool) e (v : list A) :
  (exists x, In x v /\ bad x = true) -> throw_if_any bad e v = Thrown e.
Proof.
  induction v as [|y v IH]; intros [x [Hin Hbad]]; simpl in *; [contradiction|].
  destruct (bad y) eqn:Hy; [reflexivity|].
  destruct Hin as [->|Hin]; [congruence|]. apply IH. eauto.
Qed.

Lemma throw_if_any_returned (A : Type) (bad : A -> bool) e (v : list A) :
  (forall x, In x v -> bad x = false) -> throw_if_any bad e v = Returned tt.
Proof.
  induction v as [|y v IH]; intros H; simpl in *; [reflexivity|].
  rewrite (H y) by auto. apply IH. auto.
Qed.

(** A negative iteration count is rejected, and the object is left as it
    was. *)
Lemma set_max_iter_negative (maxiter : list Z) (this : Linear) :
  (exists x, In x maxiter /\ (x < 0)%Z) ->
  set_max_iter maxiter this =
    (this, Thrown (mkException "the number of iterations must be positive")).
Proof.
  intros [x [Hin Hx]]. unfold set_max_iter, validated.
  rewrite throw_if_any_thrown; [reflexivity|].
  exists x. split; [assumption|]. now apply Z.ltb_lt.
Qed.

(** Counts that are zero or more are all stored. *)
Lemma set_max_iter_nonnegative (maxiter : list Z) (this : Linear) :
  (forall x, In x maxiter -> (0 <= x)%Z) ->
  set_max_iter maxiter this = (with_max_iter maxiter this, Returned tt).
Proof.
  intros H. unfold set_max_iter, validated.
  rewrite throw_if_any_returned; [reflexivity|].
  intros x Hin. apply Z.ltb_ge. auto.
Qed.

(** C2 (evaluation of the code on an input the claim says is rejected):
    [set_max_iter] given the vector holding the single count 0 returns
    normally and stores that vector, since its test is [maxiter[i] < 0]. *)
Theorem set_max_iter_zero_accepted (this : Linear) :
  set_max_iter [0%Z] this = (with_max_iter [0%Z] this, Returned tt)
  /\ max_iter (fst (set_max_iter [0%Z] this)) = [0%Z].
Proof. split; reflexivity. Qed.

(** *** The validation phase *)

Lemma with_max_iter_same (l : Linear) : with_max_iter (max_iter l) l = l.
Proof. destruct l; reflexivity. Qed.

Lemma with_sparsity_same (l : Linear) : with_sparsity (sparsity l) l = l.
Proof. destruct l; reflexivity. Qed.

Lemma broadcast_max_iter_singleton (l : Linear) (t : TransformType) (v : Z) :
  max_iter l = [v] ->
  broadcast_max_iter (mkWorld l t) =
    ([], mkWorld (with_max_iter (repeat v (length (scale_factor l))) l) t, Returned tt).
Proof.
  intros Hv. unfold broadcast_max_iter. unfold_monad. simpl.
  rewrite Hv. simpl. rewrite vector_resize_singleton. reflexivity.
Qed.

Lemma broadcast_max_iter_full (l : Linear) (t : TransformType) :
  length (max_iter l) = length (scale_factor l) ->
  broadcast_max_iter (mkWorld l t) = ([], mkWorld l t, Returned tt).
Proof.
  intros Hlen. destruct (Nat.eq_dec (length (max_iter l)) 1) as [H1|H1].
  - destruct (length_one _ H1) as [v Hv].
    rewrite (broadcast_max_iter_singleton l t Hv).
    rewrite <- Hlen, Hv. simpl. rewrite <- Hv, with_max_iter_same. reflexivity.
  - unfold broadcast_max_iter. unfold_monad. simpl.
    apply Nat.eqb_neq in H1. rewrite H1.
    apply Nat.eqb_eq in Hlen. rewrite Hlen. reflexivity.
Qed.

Lemma broadcast_max_iter_invalid (l : Linear) (t : TransformType) :
  length (max_iter l) <> 1 ->
  length (max_iter l) <> length (scale_factor l) ->
  broadcast_max_iter (mkWorld l t) = ([], mkWorld l t, Thrown max_iter_error).
Proof.
  intros H1 HL. unfold broadcast_max_iter. unfold_monad. simpl.
  apply Nat.eqb_neq in H1, HL. rewrite H1, HL. reflexivity.
Qed.

Lemma broadcast_sparsity_singleton (l : Linear) (t : TransformType) (v : double) :
  sparsity l = [v] ->
  broadcast_sparsity (mkWorld l t) =
    ([], mkWorld (with_sparsity (repeat v (length (scale_factor l))) l) t, Returned tt).
Proof.
  intros Hv. unfold broadcast_sparsity. unfold_monad. simpl.
  rewrite Hv. simpl. rewrite vector_resize_singleton. reflexivity.
Qed.

Lemma broadcast_sparsity_full (l : Linear) (t : TransformType) :
  length (sparsity l) = length (scale_factor l) ->
  broadcast_sparsity (mkWorld l t) = ([], mkWorld l t, Returned tt).
Proof.
  intros Hlen. destruct (Nat.eq_dec (length (sparsity l)) 1) as [H1|H1].
  - destruct (length_one _ H1) as [v Hv].
    rewrite (broadcast_sparsity_singleton l t Hv).
    rewrite <- Hlen, Hv. simpl. rewrite <- Hv, with_sparsity_same. reflexivity.
  - unfold broadcast_sparsity. unfold_monad. simpl.
    apply Nat.eqb_neq in H1. rewrite H1.
    apply Nat.eqb_eq in Hlen. rewrite Hlen. reflexivity.
Qed.

Lemma broadcast_sparsity_invalid (l : Linear) (t : TransformType) :
  length (sparsity l) <> 1 ->
  length (sparsity l) <> length (scale_factor l) ->
  broadcast_sparsity (mkWorld l t) = ([], mkWorld l t, Thrown sparsity_error).
Proof.
  intros H1 HL. unfold broadcast_sparsity. unfold_monad. simpl.
  apply Nat.eqb_neq in H1, HL. rewrite H1, HL. reflexivity.
Qed.

Lemma broadcast_to_length (A : Type) (n : nat) (v : list A) :
  length v = 1 \/ length v = n -> length (broadcast_to n v) = n.
Proof.
  intros [H|H].
  - destruct (length_one _ H) as [x ->]. simpl. apply repeat_length.
  - destruct v as [|x [|y v]]; simpl in *; try assumption.
    subst n. reflexivity.
Qed.

Lemma broadcast_to_full (A : Type) (v : list A) : broadcast_to (length v) v = v.
Proof. destruct v as [|x [|y v]]; reflexivity. Qed.

Lemma broadcast_max_iter_valid (l : Linear) (t : TransformType) :
  length (max_iter l) = 1 \/ length (max_iter l) = length (scale_factor l) ->
  broadcast_max_iter (mkWorld l t) =
    ([], mkWorld (with_max_iter (broadcast_to (length (scale_factor l)) (max_iter l)) l) t,
     Returned tt).
Proof.
  intros [H|H].
  - destruct (length_one _ H) as [v Hv].
    rewrite (broadcast_max_iter_singleton l t Hv), Hv. reflexivity.
  - rewrite (broadcast_max_iter_full l t H), <- H, broadcast_to_full, with_max_iter_same.
    reflexivity.
Qed.

Lemma broadcast_sparsity_valid (l : Linear) (t : TransformType) :
  length (sparsity l) = 1 \/ length (sparsity l) = length (scale_factor l) ->
  broadcast_sparsity (mkWorld l t) =
    ([], mkWorld (with_sparsity (broadcast_to (length (scale_factor l)) (sparsity l)) l) t,
     Returned tt).
Proof.
  intros [H|H].
  - destruct (length_one _ H) as [v Hv].
    rewrite (broadcast_sparsity_singleton l t Hv), Hv. reflexivity.
  - rewrite (broadcast_sparsity_full l t H), <- H, broadcast_to_full, with_sparsity_same.
    reflexivity.
Qed.

(** The three ways the validation phase can end. *)
Lemma broadcast_levels_valid (l : Linear) (t : TransformType) :
  let n := length (scale_factor l) in
  (length (max_iter l) = 1 \/ length (max_iter l) = n) ->
  (length (sparsity l) = 1 \/ length (sparsity l) = n) ->
  broadcast_levels (mkWorld l t) =
    ([], mkWorld (with_sparsity (broadcast_to n (sparsity l))
                    (with_max_iter (broadcast_to n (max_iter l)) l)) t,
     Returned tt).
Proof.
  intros n Hm Hs. unfold broadcast_levels.
  erewrite bind_returned by (apply broadcast_max_iter_valid; exact Hm).
  rewrite broadcast_sparsity_valid by exact Hs. reflexivity.
Qed.

Lemma broadcast_levels_bad_max_iter (l : Linear) (t : TransformType) :
  length (max_iter l) <> 1 ->
  length (max_iter l) <> length (scale_factor l) ->
  broadcast_levels (mkWorld l t) = ([], mkWorld l t, Thrown max_iter_error).
Proof.
  intros H1 HL. unfold broadcast_levels.
  apply bind_thrown. now apply broadcast_max_iter_invalid.
Qed.

Lemma broadcast_levels_bad_sparsity (l : Linear) (t : TransformType) :
  let n := length (scale_factor l) in
  (length (max_iter l) = 1 \/ length (max_iter l) = n) ->
  length (sparsity l) <> 1 ->
  length (sparsity l) <> n ->
  broadcast_levels (mkWorld l t) =
    ([], mkWorld (with_max_iter (broadcast_to n (max_iter l)) l) t, Thrown sparsity_error).
Proof.
  intros n Hm H1 HL. unfold broadcast_levels.
  erewrite bind_returned by (apply broadcast_max_iter_valid; exact Hm).
  rewrite broadcast_sparsity_invalid by assumption. reflexivity.
Qed.

Lemma broadcast_to_not_singleton (A : Type) (n : nat) (v : list A) :
  length v <> 1 -> broadcast_to n v = v.
Proof. destruct v as [|x [|y v]]; simpl; intros H; congruence. Qed.

(** *** The configuration fields across a run *)

Lemma keeps_this_bind (A B : Type) (m : M A) (k : A -> M B) :
  keeps_this m -> (forall a, keeps_this (k a)) -> keeps_this (bind m k).
Proof.
  intros Hm Hk w. specialize (Hm w). unfold bind. unfold_views.
  destruct (m w) as [[tr w1] [a|e|]]; simpl in *; try assumption.
  specialize (Hk a w1). unfold_views.
  destruct (k a w1) as [[tr' w2] r]. simpl in *. congruence.
Qed.

Lemma keeps_this_for_each (levels : list nat) (body : nat -> M unit) :
  (forall level, keeps_this (body level)) -> keeps_this (for_each levels body).
Proof.
  intros Hbody. induction levels as [|level rest IH]; simpl.
  - intros w. reflexivity.
  - apply keeps_this_bind; auto.
Qed.

Lemma level_body_keeps_this metric im1 im2 m1 m2 wts mid level :
  keeps_this (level_body metric im1 im2 m1 m2 wts mid level).
Proof.
  intros [l t]. unfold level_body. unfold_monad. unfold_views. simpl. explode.
Qed.

Lemma initialise_keeps_this im1 im2 : keeps_this (initialise im1 im2).
Proof.
  intros [l t]. unfold initialise. unfold_monad. unfold_views. simpl. explode.
Qed.

Lemma midway_space_keeps_this im1 im2 trs : keeps_this (midway_space im1 im2 trs).
Proof.
  intros [l t]. unfold midway_space. unfold_monad. unfold_views. simpl. explode.
Qed.

Lemma register_levels_keeps_this metric im1 im2 m1 m2 :
  keeps_this (register_levels metric im1 im2 m1 m2).
Proof.
  unfold register_levels.
  apply keeps_this_bind; [apply initialise_keeps_this|intros _].
  apply keeps_this_bind; [intros w; reflexivity|intros t].
  apply keeps_this_bind; [apply midway_space_keeps_this|intros mid].
  apply keeps_this_bind; [intros w; reflexivity|intros l].
  apply keeps_this_for_each. intros level. apply level_body_keeps_this.
Qed.

Lemma run_masked_this metric im1 im2 m1 m2 w :
  this (world_of (run_masked metric im1 im2 m1 m2 w)) =
  this (world_of (broadcast_levels w)).
Proof.
  unfold run_masked, bind. unfold_views.
  destruct (broadcast_levels w) as [[tr w1] [u|e|]]; simpl; try reflexivity.
  pose proof (register_levels_keeps_this metric im1 im2 m1 m2 w1) as H.
  unfold_views. destruct (register_levels _ _ _ _ _ w1) as [[tr' w2] r]. exact H.
Qed.

(** The object the validation phase leaves behind, whatever its outcome. *)
Lemma broadcast_levels_this (l : Linear) (t : TransformType) :
  let n := length (scale_factor l) in
  let l' := this (world_of (broadcast_levels (mkWorld l t))) in
  (l' = with_sparsity (sparsity l') (with_max_iter (max_iter l') l))
  /\ max_iter l' = broadcast_to n (max_iter l)
  /\ ((length (max_iter l) = 1 \/ length (max_iter l) = n) ->
      sparsity l' = broadcast_to n (sparsity l))
  /\ (length (max_iter l) <> 1 -> length (max_iter l) <> n -> sparsity l' = sparsity l).
Proof.
  intros n l'. subst l'.
  destruct (Nat.eq_dec (length (max_iter l)) 1) as [Hm1|Hm1];
    [pose proof (or_introl Hm1 : length (max_iter l) = 1 \/ length (max_iter l) = n) as Hm|
     destruct (Nat.eq_dec (length (max_iter l)) n) as [Hmn|Hmn];
     [pose proof (or_intror Hmn : length (max_iter l) = 1 \/ length (max_iter l) = n) as Hm|]].
  3: { rewrite broadcast_levels_bad_max_iter by assumption. unfold_views. simpl.
       rewrite broadcast_to_not_singleton by assumption.
       repeat split; try reflexivity; try tauto. destruct l; reflexivity. }
  all: destruct (Nat.eq_dec (length (sparsity l)) 1) as [Hs1|Hs1];
    [pose proof (or_introl Hs1 : length (sparsity l) = 1 \/ length (sparsity l) = n) as Hs|
     destruct (Nat.eq_dec (length (sparsity l)) n) as [Hsn|Hsn];
     [pose proof (or_intror Hsn : length (sparsity l) = 1 \/ length (sparsity l) = n) as Hs|]].
  all: try (rewrite broadcast_levels_valid by assumption; unfold_views; simpl;
            repeat split; try reflexivity; intros; tauto || lia).
  all: rewrite broadcast_levels_bad_sparsity by assumption; unfold_views; simpl;
    rewrite (broadcast_to_not_singleton n (sparsity l)) by assumption;
    repeat split; try reflexivity; try (intros; tauto || lia);
    destruct l; reflexivity.
Qed.

Lemma broadcast_to_repeat (A : Type) (n : nat) (v : A) :
  broadcast_to n (repeat v n) = repeat v n.
Proof. destruct n as [|[|n]]; reflexivity. Qed.

Lemma run_masked_invalid metric im1 im2 m1 m2 w tr w1 e :
  broadcast_levels w = (tr, w1, Thrown e) ->
  run_masked metric im1 im2 m1 m2 w = (tr, w1, Thrown e).
Proof. intros H. unfold run_masked. now apply bind_thrown. Qed.

(** C7: a [max_iter] or [sparsity] vector given with one element is
    replaced by [scale_factor.size()] copies of that element, and the run
    (events, final object and transform, outcome) is the same as the run
    started with the expanded vector; a vector whose length is neither 1 nor
    [scale_factor.size()] makes the run throw a configuration error with no
    event produced and the transform untouched. *)
Theorem singleton_broadcast metric im1 im2 m1 m2 (l : Linear) (t : TransformType) :
  let n := length (scale_factor l) in
  let run_with := fun l' => run_masked metric im1 im2 m1 m2 (mkWorld l' t) in
  (forall v,
      run_with (with_max_iter [v] l) = run_with (with_max_iter (repeat v n) l)
      /\ max_iter (this (world_of (run_with (with_max_iter [v] l)))) = repeat v n)
  /\ (forall v,
      length (max_iter l) = 1 \/ length (max_iter l) = n ->
      run_with (with_sparsity [v] l) = run_with (with_sparsity (repeat v n) l)
      /\ sparsity (this (world_of (run_with (with_sparsity [v] l)))) = repeat v n)
  /\ ((length (max_iter l) <> 1 /\ length (max_iter l) <> n)
      \/ (length (sparsity l) <> 1 /\ length (sparsity l) <> n) ->
      trace_of (run_with l) = []
      /\ transform (world_of (run_with l)) = t
      /\ (outcome_of (run_with l) = Thrown max_iter_error
          \/ outcome_of (run_with l) = Thrown sparsity_error)).
Proof.
  intros n run_with. subst run_with. cbv beta. repeat split.
  - unfold run_masked. apply bind_eq_on.
    unfold broadcast_levels. apply bind_eq_on.
    rewrite (@broadcast_max_iter_singleton (with_max_iter [v] l) t v) by reflexivity.
    rewrite broadcast_max_iter_full by (simpl; apply repeat_length).
    reflexivity.
  - rewrite run_masked_this.
    destruct (broadcast_levels_this (with_max_iter [v] l) t) as (_ & Hm & _).
    exact Hm.
  - unfold run_masked. apply bind_eq_on.
    rewrite !broadcast_levels_valid;
      try (simpl; assumption); try (simpl; left; reflexivity);
      try (simpl; right; apply repeat_length).
    simpl. fold n. rewrite (broadcast_to_repeat n v).
    destruct n as [|[|n']]; reflexivity.
  - rewrite run_masked_this.
    destruct (broadcast_levels_this (with_sparsity [v] l) t) as (_ & _ & Hs & _).
    apply Hs. simpl. assumption.
  - destruct (Nat.eq_dec (length (max_iter l)) 1) as [Hm1|Hm1];
      [|destruct (Nat.eq_dec (length (max_iter l)) n) as [Hmn|Hmn]].
    3: { erewrite run_masked_invalid
           by (apply broadcast_levels_bad_max_iter; assumption). reflexivity. }
    all: destruct H as [[? ?]|[Hs1 Hsn]]; try contradiction.
    all: erewrite run_masked_invalid
           by (apply broadcast_levels_bad_sparsity; auto); reflexivity.
  - destruct (Nat.eq_dec (length (max_iter l)) 1) as [Hm1|Hm1];
      [|destruct (Nat.eq_dec (length (max_iter l)) n) as [Hmn|Hmn]].
    3: { erewrite run_masked_invalid
           by (apply broadcast_levels_bad_max_iter; assumption). reflexivity. }
    all: destruct H as [[? ?]|[Hs1 Hsn]]; try contradiction.
    all: erewrite run_masked_invalid
           by (apply broadcast_levels_bad_sparsity; auto); reflexivity.
  - destruct (Nat.eq_dec (length (max_iter l)) 1) as [Hm1|Hm1];
      [|destruct (Nat.eq_dec (length (max_iter l)) n) as [Hmn|Hmn]].
    3: { erewrite run_masked_invalid
           by (apply broadcast_levels_bad_max_iter; assumption). left. reflexivity. }
    all: destruct H as [[? ?]|[Hs1 Hsn]]; try contradiction.
    all: erewrite run_masked_invalid
           by (apply broadcast_levels_bad_sparsity; auto); right; reflexivity.
Qed.

(** C8 (as amended): a run never changes [scale_factor], [smooth_factor],
    [kernel_extent], [grad_tolerance], [step_tolerance], [log_stream],
    [init_type] or [directions]; [max_iter] and [sparsity] keep their value
    when their length is [scale_factor.size()], and a vector of length 1 is
    overwritten by [scale_factor.size()] copies of its element ([sparsity]
    only once [max_iter] has passed its own length check). *)
Theorem run_masked_configuration metric im1 im2 m1 m2 (w : world) :
  let l := this w in
  let n := length (scale_factor l) in
  let l' := this (world_of (run_masked metric im1 im2 m1 m2 w)) in
  scale_factor l' = scale_factor l
  /\ smooth_factor l' = smooth_factor l
  /\ kernel_extent l' = kernel_extent l
  /\ grad_tolerance l' = grad_tolerance l
  /\ step_tolerance l' = step_tolerance l
  /\ log_stream l' = log_stream l
  /\ init_type l' = init_type l
  /\ directions l' = directions l
  /\ (length (max_iter l) = n -> max_iter l' = max_iter l)
  /\ (length (sparsity l) = n -> sparsity l' = sparsity l)
  /\ (forall v, max_iter l = [v] -> max_iter l' = repeat v n)
  /\ (forall v, sparsity l = [v] ->
        length (max_iter l) = 1 \/ length (max_iter l) = n ->
        sparsity l' = repeat v n).
Proof.
  intros l n l'. subst l'. rewrite run_masked_this.
  destruct w as [l0 t]. simpl in l. subst l.
  destruct (broadcast_levels_this l0 t) as (Heq & Hm & Hs & Hs').
  fold n in Hm, Hs, Hs'.
  set (l' := this (world_of (broadcast_levels (mkWorld l0 t)))) in *.
  repeat split; try (rewrite Heq; reflexivity).
  - intros Hlen. rewrite Hm, <- Hlen. apply broadcast_to_full.
  - intros Hlen.
    destruct (Nat.eq_dec (length (max_iter l0)) 1) as [Hm1|Hm1];
      [|destruct (Nat.eq_dec (length (max_iter l0)) n) as [Hmn|Hmn]].
    3: { apply Hs'; assumption. }
    all: rewrite Hs by auto; rewrite <- Hlen; apply broadcast_to_full.
  - intros v Hv. rewrite Hm, Hv. reflexivity.
  - intros v Hv Hvalid. rewrite Hs by assumption. rewrite Hv. reflexivity.
Qed.

(** *** Events of a run *)

Lemma pick_app (A : Type) (f : event -> option A) (tr1 tr2 : list event) :
  pick f (tr1 ++ tr2) = pick f tr1 ++ pick f tr2.
Proof. unfold pick. apply flat_map_app. Qed.

Lemma pick_cons (A : Type) (f : event -> option A) (e : event) (tr : list event) :
  pick f (e :: tr) = match f e with Some a => [a] | None => [] end ++ pick f tr.
Proof. reflexivity. Qed.

Lemma pick_map (A B : Type) (f : event -> option A) (g : A -> B) (tr : list event) :
  pick (fun e => option_map g (f e)) tr = map g (pick f tr).
Proof.
  induction tr as [|e tr IH]; simpl; [reflexivity|].
  unfold pick in *. simpl. rewrite IH, map_app.
  destruct (f e); reflexivity.
Qed.

Lemma pick_In (A : Type) (f : event -> option A) (tr : list event) (a : A) :
  In a (pick f tr) <-> exists e, In e tr /\ f e = Some a.
Proof.
  unfold pick. rewrite in_flat_map. split; intros [e [He Hf]]; exists e; split; auto.
  - destruct (f e) as [a'|]; simpl in Hf; [|contradiction].
    destruct Hf as [->|[]]. reflexivity.
  - rewrite Hf. left. reflexivity.
Qed.

Lemma prefix_nil (A : Type) (b : list A) : prefix [] b.
Proof. exists b. reflexivity. Qed.

Lemma prefix_refl (A : Type) (a : list A) : prefix a a.
Proof. exists []. now rewrite app_nil_r. Qed.

Lemma prefix_app (A : Type) (a b c : list A) : prefix b c -> prefix (a ++ b) (a ++ c).
Proof. intros [d ->]. exists d. now rewrite app_assoc. Qed.

Lemma prefix_weaken (A : Type) (a b c : list A) : prefix a b -> prefix a (b ++ c).
Proof. intros [d ->]. exists (d ++ c). now rewrite app_assoc. Qed.

Lemma prefix_length (A : Type) (a b : list A) : prefix a b -> length a <= length b.
Proof. intros [c ->]. rewrite length_app. lia. Qed.

Lemma flat_map_nth_error_from (A : Type) (v pre : list A) :
  flat_map (fun i => match nth_error (pre ++ v) i with Some x => [x] | None => [] end)
    (seq (length pre) (length v)) = v.
Proof.
  revert pre. induction v as [|x v IH]; intros pre; simpl; [reflexivity|].
  rewrite nth_error_app2 by lia. rewrite Nat.sub_diag. simpl. f_equal.
  specialize (IH (pre ++ [x])). rewrite <- app_assoc in IH. simpl in IH.
  rewrite length_app in IH. simpl in IH. rewrite Nat.add_1_r in IH. exact IH.
Qed.

Lemma flat_map_nth_error (A : Type) (v : list A) :
  flat_map (fun i => match nth_error v i with Some x => [x] | None => [] end)
    (seq 0 (length v)) = v.
Proof. exact (flat_map_nth_error_from v []). Qed.

(** *** Reasoning about the monad *)

Lemma hoare_bind (A B : Type) I P (m : M A) (k : A -> M B) :
  hoare I P m -> (forall a, hoare I P (k a)) -> hoare I P (bind m k).
Proof.
  intros Hm Hk w Hw. destruct (Hm w Hw) as [Hw1 Htr]. unfold bind. unfold_views.
  destruct (m w) as [[tr w1] [a|e|]]; simpl in *; auto.
  destruct (Hk a w1 Hw1) as [Hw2 Htr']. unfold_views.
  destruct (k a w1) as [[tr' w2] r]. simpl in *. split; [assumption|].
  apply Forall_app. split; assumption.
Qed.

Lemma hoare_for_each I P (levels : list nat) (body : nat -> M unit) :
  (forall level, hoare I P (body level)) -> hoare I P (for_each levels body).
Proof.
  intros Hbody. induction levels as [|level rest IH]; simpl.
  - intros w Hw. split; [assumption|constructor].
  - apply hoare_bind; auto.
Qed.

(** A loop whose passes each emit (part of) a list that only depends on the
    level and on the object emits (part of) the concatenation. *)
Lemma for_each_pick (A : Type) (f : event -> option A) (full : nat -> list A)
    (l : Linear) (body : nat -> M unit) :
  (forall level w, this w = l ->
     this (world_of (body level w)) = l
     /\ prefix (pick f (trace_of (body level w))) (full level)
     /\ (outcome_of (body level w) = Returned tt ->
         pick f (trace_of (body level w)) = full level)) ->
  forall levels w, this w = l ->
    prefix (pick f (trace_of (for_each levels body w))) (flat_map full levels)
    /\ (outcome_of (for_each levels body w) = Returned tt ->
        pick f (trace_of (for_each levels body w)) = flat_map full levels).
Proof.
  intros Hbody. induction levels as [|level rest IH]; intros w Hw; simpl.
  - split; [apply prefix_nil|reflexivity].
  - destruct (Hbody level w Hw) as (Hthis & Hpre & Hfull).
    unfold bind. unfold_views.
    destruct (body level w) as [[tr1 w1] [[]|e|]]; simpl in *.
    + specialize (IH w1 Hthis). unfold_views.
      destruct (for_each rest body w1) as [[tr2 w2] r]. simpl in *.
      rewrite pick_app, Hfull by reflexivity. destruct IH as [IHpre IHfull].
      split.
      * now apply prefix_app.
      * intros Hr. now rewrite IHfull.
    + split; [now apply prefix_weaken|discriminate].
    + split; [now apply prefix_weaken|discriminate].
Qed.

(** *** The shape of a run after validation *)

Lemma register_levels_unfold metric im1 im2 m1 m2 (w : world) :
  let r := register_levels metric im1 im2 m1 m2 w in
  let i := initialise im1 im2 w in
  let w0 := world_of i in
  let t := transform w0 in
  match outcome_of i with
  | Returned _ =>
      match compute_minimum_average_header
              [original_header im2; original_header im1] (Finite 1.0)
              [Finite 0.0; Finite 0.0; Finite 0.0; Finite 0.0]
              [get_transform_half t; get_transform_half_inverse t] with
      | inl e => r = (trace_of i ++ [average_header_event im1 im2 t], w0, Thrown e)
      | inr h =>
          let lp :=
            for_each (seq 0 (length (scale_factor (this w0))))
              (level_body metric im1 im2 m1 m2 (get_optimiser_weights t)
                 (scratch_image h)) w0 in
          r = (trace_of i ++ average_header_event im1 im2 t :: trace_of lp,
               world_of lp, outcome_of lp)
      end
  | Thrown e => r = (trace_of i, w0, Thrown e)
  | Undefined => r = (trace_of i, w0, Undefined)
  end.
Proof.
  cbv zeta. unfold register_levels.
  destruct (initialise im1 im2 w) as [[tr0 w0] [[]|e|]] eqn:Hi; unfold_views; simpl.
  - destruct (compute_minimum_average_header _ _ _ _) as [e|h] eqn:Hc;
      erewrite bind_returned by exact Hi;
      unfold bind, get_transform, midway_space, emit, call, ret, get_this;
      unfold_views; simpl; rewrite Hc; simpl; [reflexivity|].
    destruct (for_each _ _ w0) as [[tr w1] r]. reflexivity.
  - erewrite bind_thrown by exact Hi. reflexivity.
  - erewrite bind_undefined by exact Hi. reflexivity.
Qed.

Lemma run_masked_unfold metric im1 im2 m1 m2 (w : world) :
  let v := broadcast_levels w in
  trace_of v = []
  /\ transform (world_of v) = transform w
  /\ match outcome_of v with
     | Returned _ =>
         run_masked metric im1 im2 m1 m2 w =
           register_levels metric im1 im2 m1 m2 (world_of v)
     | Thrown e => run_masked metric im1 im2 m1 m2 w = ([], world_of v, Thrown e)
     | Undefined => run_masked metric im1 im2 m1 m2 w = ([], world_of v, Undefined)
     end.
Proof.
  cbv zeta.
  assert (Hv : trace_of (broadcast_levels w) = []
               /\ transform (world_of (broadcast_levels w)) = transform w).
  { destruct w as [l t].
    unfold broadcast_levels, broadcast_max_iter, broadcast_sparsity.
    unfold_monad. unfold_views. simpl. explode; auto. }
  destruct Hv as [Htr Ht]. repeat split; try assumption.
  unfold run_masked, bind. unfold_views.
  destruct (broadcast_levels w) as [[tr w1] [[]|e|]]; simpl in *; subst tr;
    try reflexivity.
  destruct (register_levels _ _ _ _ _ w1) as [[tr' w2] r]. reflexivity.
Qed.

(** The validation phase cannot run into undefined behaviour. *)
Lemma broadcast_levels_defined (w : world) : outcome_of (broadcast_levels w) <> Undefined.
Proof.
  destruct w as [l t].
  unfold broadcast_levels, broadcast_max_iter, broadcast_sparsity.
  unfold_monad. unfold_views. simpl.
  explode; discriminate.
Qed.

(** *** The tolerances *)

Lemma tolerance_blind_bind (A B : Type) (m : M A) (k : A -> M B) :
  tolerance_blind m -> (forall a, tolerance_blind (k a)) -> tolerance_blind (bind m k).
Proof.
  intros Hm Hk g s w. unfold bind. rewrite Hm. unfold retuned. unfold_views.
  destruct (m w) as [[tr w1] [a|e|]]; simpl; try reflexivity.
  rewrite Hk. unfold retuned. unfold_views.
  destruct (k a w1) as [[tr' w2] r]. reflexivity.
Qed.

Lemma tolerance_blind_for_each (levels : list nat) (body : nat -> M unit) :
  (forall level, tolerance_blind (body level)) -> tolerance_blind (for_each levels body).
Proof.
  intros Hbody. induction levels as [|level rest IH]; simpl.
  - intros g s w. reflexivity.
  - apply tolerance_blind_bind; auto.
Qed.

Lemma level_body_tolerance_blind metric im1 im2 m1 m2 wts mid level :
  tolerance_blind (level_body metric im1 im2 m1 m2 wts mid level).
Proof.
  intros g s [l t]. unfold level_body, retune, retuned. unfold_monad. unfold_views.
  simpl. explode.
Qed.

Lemma initialise_tolerance_blind im1 im2 : tolerance_blind (initialise im1 im2).
Proof.
  intros g s [l t]. unfold initialise, retune, retuned. unfold_monad. unfold_views.
  simpl. explode.
Qed.

Lemma midway_space_tolerance_blind im1 im2 trs :
  tolerance_blind (midway_space im1 im2 trs).
Proof.
  intros g s [l t]. unfold midway_space, retune, retuned. unfold_monad. unfold_views.
  simpl. explode.
Qed.

Lemma broadcast_levels_tolerance_blind : tolerance_blind broadcast_levels.
Proof.
  intros g s [l t].
  unfold broadcast_levels, broadcast_max_iter, broadcast_sparsity, retune, retuned.
  unfold_monad. unfold_views. simpl. explode.
Qed.

Lemma register_levels_tolerance_blind metric im1 im2 m1 m2 :
  tolerance_blind (register_levels metric im1 im2 m1 m2).
Proof.
  unfold register_levels.
  apply tolerance_blind_bind; [apply initialise_tolerance_blind|intros _].
  apply tolerance_blind_bind; [intros g s w; reflexivity|intros t].
  apply tolerance_blind_bind; [apply midway_space_tolerance_blind|intros mid].
  intros g s w. unfold bind, get_this.
  change (scale_factor (this (retune g s w))) with (scale_factor (this w)).
  rewrite tolerance_blind_for_each by (intros; apply level_body_tolerance_blind).
  unfold retuned. unfold_views.
  destruct (for_each _ _ w) as [[tr w1] r]. reflexivity.
Qed.

Lemma run_masked_tolerance_blind metric im1 im2 m1 m2 :
  tolerance_blind (run_masked metric im1 im2 m1 m2).
Proof.
  unfold run_masked. apply tolerance_blind_bind.
  - apply broadcast_levels_tolerance_blind.
  - intros _. apply register_levels_tolerance_blind.
Qed.

Ltac forall_events :=
  repeat (apply Forall_cons || apply Forall_nil); simpl; auto.

Lemma level_body_fixed_tolerances metric im1 im2 m1 m2 wts mid level :
  hoare (fun _ => True) fixed_tolerances (level_body metric im1 im2 m1 m2 wts mid level).
Proof.
  intros [l t] _. split; [trivial|].
  unfold level_body. unfold_monad. unfold_views. simpl.
  explode; forall_events; repeat split.
Qed.

Lemma initialise_fixed_tolerances im1 im2 :
  hoare (fun _ => True) fixed_tolerances (initialise im1 im2).
Proof.
  intros [l t] _. split; [trivial|].
  unfold initialise. unfold_monad. unfold_views. simpl.
  explode; forall_events.
Qed.

Lemma Forall_trace_register_levels (P : event -> Prop) metric im1 im2 m1 m2 w :
  Forall P (trace_of (initialise im1 im2 w)) ->
  (forall t, P (average_header_event im1 im2 t)) ->
  (forall wts mid levels w',
      Forall P (trace_of (for_each levels
                            (level_body metric im1 im2 m1 m2 wts mid) w'))) ->
  Forall P (trace_of (register_levels metric im1 im2 m1 m2 w)).
Proof.
  intros Hi Ha Hl.
  pose proof (register_levels_unfold metric im1 im2 m1 m2 w) as H. cbv zeta in H.
  destruct (outcome_of (initialise im1 im2 w)).
  - destruct (compute_minimum_average_header _ _ _ _); rewrite H; unfold trace_of at 1;
      simpl; apply Forall_app; split; auto.
  - rewrite H. exact Hi.
  - rewrite H. exact Hi.
Qed.

Lemma Forall_trace_run_masked (P : event -> Prop) metric im1 im2 m1 m2 w :
  (forall w', Forall P (trace_of (register_levels metric im1 im2 m1 m2 w'))) ->
  Forall P (trace_of (run_masked metric im1 im2 m1 m2 w)).
Proof.
  intros Hr.
  destruct (run_masked_unfold metric im1 im2 m1 m2 w) as (_ & _ & H).
  destruct (outcome_of (broadcast_levels w)); rewrite H; auto; constructor.
Qed.

Lemma run_masked_fixed_tolerances metric im1 im2 m1 m2 w :
  Forall fixed_tolerances (trace_of (run_masked metric im1 im2 m1 m2 w)).
Proof.
  apply Forall_trace_run_masked. intros w'. apply Forall_trace_register_levels.
  - now apply initialise_fixed_tolerances.
  - intros t. exact I.
  - intros wts mid levels w''.
    apply (@hoare_for_each (fun _ => True) fixed_tolerances); [|trivial].
    intros level. apply level_body_fixed_tolerances.
Qed.

(** *** Per-level lists of events *)

Lemma initialise_events im1 im2 w :
  Forall (is_initialise im1 im2) (trace_of (initialise im1 im2 w)).
Proof.
  destruct w as [l t]. unfold initialise, is_initialise. unfold_monad. unfold_views.
  simpl. explode; forall_events.
Qed.

Lemma pick_none (A : Type) (f : event -> option A) (tr : list event) :
  Forall (fun e => f e = None) tr -> pick f tr = [].
Proof.
  induction 1 as [|e tr He _ IH]; [reflexivity|].
  unfold pick in *. simpl. rewrite He, IH. reflexivity.
Qed.

Lemma pick_initialise (A : Type) (f : event -> option A) im1 im2 w :
  f (EvInitialiseMass im1 im2) = None ->
  f (EvInitialiseCentres im1 im2) = None ->
  pick f (trace_of (initialise im1 im2 w)) = [].
Proof.
  intros Hm Hc. apply pick_none.
  eapply Forall_impl; [|apply initialise_events].
  intros e [->| ->]; assumption.
Qed.

(** The level loop is the only source of the events selected by an [f] that
    ignores the initialisation and the average-space events. *)
Lemma register_levels_pick (A : Type) (f : event -> option A)
    (full : ImageType -> nat -> list A) metric im1 im2 m1 m2 (w : world) :
  f (EvInitialiseMass im1 im2) = None ->
  f (EvInitialiseCentres im1 im2) = None ->
  (forall t, f (average_header_event im1 im2 t) = None) ->
  (forall wts mid level w', this w' = this w ->
     let b := level_body metric im1 im2 m1 m2 wts mid level w' in
     this (world_of b) = this w
     /\ prefix (pick f (trace_of b)) (full mid level)
     /\ (outcome_of b = Returned tt -> pick f (trace_of b) = full mid level)) ->
  let r := register_levels metric im1 im2 m1 m2 w in
  let levels := seq 0 (length (scale_factor (this w))) in
  exists mid,
    prefix (pick f (trace_of r)) (flat_map (full mid) levels)
    /\ (outcome_of r = Returned tt -> pick f (trace_of r) = flat_map (full mid) levels).
Proof.
  intros Hm Hc Ha Hbody r levels. subst r.
  pose proof (register_levels_unfold metric im1 im2 m1 m2 w) as H. cbv zeta in H.
  pose proof (pick_initialise f im1 im2 w Hm Hc) as Hi.
  pose proof (initialise_keeps_this im1 im2 w) as Hthis.
  destruct (outcome_of (initialise im1 im2 w)) as [[]|e|].
  - destruct (compute_minimum_average_header _ _ _ _) as [e|h]; rewrite H;
      unfold_views; simpl.
    + exists im1. rewrite pick_app, Hi, pick_cons, Ha. simpl.
      split; [apply prefix_nil|discriminate].
    + exists (scratch_image h). rewrite pick_app, Hi, pick_cons, Ha. simpl.
      rewrite Hthis.
      apply (for_each_pick f (full (scratch_image h)) (l := this w)).
      * intros level w' Hw'. apply Hbody. exact Hw'.
      * exact Hthis.
  - exists im1. rewrite H. unfold_views. simpl. rewrite Hi.
    split; [apply prefix_nil|discriminate].
  - exists im1. rewrite H. unfold_views. simpl. rewrite Hi.
    split; [apply prefix_nil|discriminate].
Qed.

Lemma broadcast_levels_lengths (w : world) :
  let v := broadcast_levels w in
  outcome_of v = Returned tt ->
  length (max_iter (this (world_of v))) = length (scale_factor (this (world_of v)))
  /\ length (sparsity (this (world_of v))) = length (scale_factor (this (world_of v))).
Proof.
  destruct w as [l t]. cbv zeta. set (n := length (scale_factor l)).
  destruct (Nat.eq_dec (length (max_iter l)) 1) as [Hm1|Hm1];
    [pose proof (or_introl Hm1 : length (max_iter l) = 1 \/ length (max_iter l) = n) as Hm|
     destruct (Nat.eq_dec (length (max_iter l)) n) as [Hmn|Hmn];
     [pose proof (or_intror Hmn : length (max_iter l) = 1 \/ length (max_iter l) = n) as Hm|]].
  3: { rewrite broadcast_levels_bad_max_iter by assumption. discriminate. }
  all: destruct (Nat.eq_dec (length (sparsity l)) 1) as [Hs1|Hs1];
    [pose proof (or_introl Hs1 : length (sparsity l) = 1 \/ length (sparsity l) = n) as Hs|
     destruct (Nat.eq_dec (length (sparsity l)) n) as [Hsn|Hsn];
     [pose proof (or_intror Hsn : length (sparsity l) = 1 \/ length (sparsity l) = n) as Hs|]].
  all: try (rewrite broadcast_levels_bad_sparsity by assumption; discriminate).
  all: rewrite broadcast_levels_valid by assumption; intros _; unfold_views; simpl;
    fold n; split; apply broadcast_to_length; assumption.
Qed.

Lemma run_masked_pick (A : Type) (f : event -> option A)
    (full : ImageType -> nat -> list A) metric im1 im2 m1 m2 (w : world) :
  let r := run_masked metric im1 im2 m1 m2 w in
  let l' := this (world_of r) in
  let levels := seq 0 (length (scale_factor l')) in
  f (EvInitialiseMass im1 im2) = None ->
  f (EvInitialiseCentres im1 im2) = None ->
  (forall t, f (average_header_event im1 im2 t) = None) ->
  (forall wts mid level w', this w' = l' ->
     let b := level_body metric im1 im2 m1 m2 wts mid level w' in
     this (world_of b) = l'
     /\ prefix (pick f (trace_of b)) (full mid level)
     /\ (outcome_of b = Returned tt -> pick f (trace_of b) = full mid level)) ->
  (trace_of r = [] /\ outcome_of r <> Returned tt)
  \/ (length (max_iter l') = length (scale_factor l')
      /\ length (sparsity l') = length (scale_factor l')
      /\ exists mid,
           prefix (pick f (trace_of r)) (flat_map (full mid) levels)
           /\ (outcome_of r = Returned tt ->
               pick f (trace_of r) = flat_map (full mid) levels)).
Proof.
  cbv zeta. intros Hm Hc Ha Hbody.
  rewrite run_masked_this in *.
  destruct (run_masked_unfold metric im1 im2 m1 m2 w) as (Htr & _ & H).
  pose proof (broadcast_levels_lengths w) as Hlen. cbv zeta in Hlen.
  destruct (outcome_of (broadcast_levels w)) as [[]|e|].
  - right. destruct (Hlen eq_refl) as [Hlm Hls]. repeat split; try assumption.
    rewrite H. apply register_levels_pick; assumption.
  - left. rewrite H. split; [reflexivity|discriminate].
  - left. rewrite H. split; [reflexivity|discriminate].
Qed.

Ltac prefix_cases :=
  repeat split; try reflexivity; try discriminate;
  try (eexists; simpl; reflexivity).

Lemma level_body_max_iterations metric im1 im2 m1 m2 wts mid level (w : world) :
  let b := level_body metric im1 im2 m1 m2 wts mid level w in
  this (world_of b) = this w
  /\ prefix (pick as_max_iterations (trace_of b)) (nth_or_nothing (max_iter (this w)) level)
  /\ (outcome_of b = Returned tt ->
      pick as_max_iterations (trace_of b) = nth_or_nothing (max_iter (this w)) level).
Proof.
  destruct w as [l t]. cbv zeta.
  unfold level_body, nth_or_nothing. unfold_monad. unfold_views. simpl.
  explode; prefix_cases.
Qed.

(** C1: the arguments of every [optim.run] call are the four constants
    [1.0e-30] (with [verbose] false) and [max_iter[level]]; the values stored
    in [grad_tolerance] (by [set_grad_tolerance]) and [step_tolerance] do not
    reach it: the run started with other values in these two fields produces
    the same events, the same outcome and the same transform. *)
Theorem tolerances_not_used metric im1 im2 m1 m2 (l : Linear) (t : TransformType)
    (g s : double) :
  let r := run_masked metric im1 im2 m1 m2 (mkWorld l t) in
  let r' :=
    run_masked metric im1 im2 m1 m2
      (mkWorld (with_step_tolerance s (fst (set_grad_tolerance g l))) t) in
  trace_of r' = trace_of r
  /\ outcome_of r' = outcome_of r
  /\ transform (world_of r') = transform (world_of r)
  /\ (forall c, In c (optim_calls (trace_of r)) ->
        oc_grad_tolerance c = Finite 1.0e-30
        /\ oc_step_length_tolerance c = Finite 1.0e-30
        /\ oc_relative_cost_improvement_tolerance c = Finite 1.0e-30
        /\ oc_gradient_criterion_tolerance c = Finite 1.0e-30)
  /\ prefix (map oc_max_iterations (optim_calls (trace_of r)))
       (max_iter (this (world_of r)))
  /\ (outcome_of r = Returned tt ->
      map oc_max_iterations (optim_calls (trace_of r)) = max_iter (this (world_of r))).
Proof.
  cbv zeta.
  pose proof (run_masked_tolerance_blind metric im1 im2 m1 m2 g s (mkWorld l t)) as Hb.
  unfold retune in Hb. simpl in Hb.
  change (with_step_tolerance s (fst (set_grad_tolerance g l)))
    with (with_step_tolerance s (with_grad_tolerance g l)).
  rewrite Hb. unfold retuned.
  split; [reflexivity|]. split; [reflexivity|]. split; [reflexivity|].
  set (r := run_masked metric im1 im2 m1 m2 (mkWorld l t)).
  split.
  - intros c Hc. apply pick_In in Hc. destruct Hc as [e [He Hf]].
    pose proof (run_masked_fixed_tolerances metric im1 im2 m1 m2 (mkWorld l t)) as Hall.
    rewrite Forall_forall in Hall. specialize (Hall e He).
    destruct e; simpl in Hf; try discriminate. injection Hf as ->.
    simpl in Hall. unfold run_tolerance in Hall. tauto.
  - pose proof (@run_masked_pick Z as_max_iterations
                  (fun _ level => nth_or_nothing (max_iter (this (world_of r))) level)
                  metric im1 im2 m1 m2 (mkWorld l t)) as H.
    cbv zeta in H. fold r in H.
    assert (Hpick : pick as_max_iterations (trace_of r)
                    = map oc_max_iterations (optim_calls (trace_of r)))
      by apply pick_map.
    destruct H as [[Htr Hout]|(Hlm & _ & mid & Hpre & Hfull)]; try reflexivity.
    + intros wts mid level w' Hw'. rewrite <- Hw'. apply level_body_max_iterations.
    + unfold optim_calls. rewrite Htr. split; [apply prefix_nil|contradiction].
    + rewrite <- Hlm in Hpre, Hfull. unfold nth_or_nothing in Hpre, Hfull.
      rewrite flat_map_nth_error in Hpre, Hfull.
      rewrite <- Hpick. split; assumption.
Qed.

(** *** The shape of a whole run *)

Lemma initialise_frame im1 im2 (l1 l2 : Linear) (t : TransformType) :
  init_type l1 = init_type l2 ->
  let a := initialise im1 im2 (mkWorld l1 t) in
  let b := initialise im1 im2 (mkWorld l2 t) in
  trace_of a = trace_of b
  /\ outcome_of a = outcome_of b
  /\ transform (world_of a) = transform (world_of b)
  /\ this (world_of a) = l1.
Proof.
  intros Hinit. cbv zeta. unfold initialise. unfold_monad. unfold_views. simpl.
  rewrite Hinit. explode; auto.
Qed.

Lemma broadcast_levels_init_type (l : Linear) (t : TransformType) :
  init_type (this (world_of (broadcast_levels (mkWorld l t)))) = init_type l.
Proof.
  destruct (broadcast_levels_this l t) as (Heq & _). rewrite Heq. reflexivity.
Qed.

(** A run either stops in the validation phase, in the initialisation, in the
    computation of the midway header, or enters the level loop with the
    validated object, the initialised transform and the midway image. *)
Lemma run_masked_shape metric im1 im2 m1 m2 (w : world) :
  let r := run_masked metric im1 im2 m1 m2 w in
  let l' := this (world_of r) in
  let i := initialise im1 im2 w in
  let t1 := transform (world_of i) in
  (trace_of r = [] /\ outcome_of r <> Returned tt /\ transform (world_of r) = transform w)
  \/ (outcome_of i <> Returned tt /\ trace_of r = trace_of i
      /\ outcome_of r <> Returned tt /\ transform (world_of r) = t1)
  \/ (outcome_of i = Returned tt /\ (exists e, midway_header im1 im2 t1 = inl e)
      /\ trace_of r = trace_of i ++ [average_header_event im1 im2 t1]
      /\ outcome_of r <> Returned tt /\ transform (world_of r) = t1)
  \/ (outcome_of i = Returned tt
      /\ length (max_iter l') = length (scale_factor l')
      /\ length (sparsity l') = length (scale_factor l')
      /\ exists h, midway_header im1 im2 t1 = inr h
      /\ let lp :=
           for_each (seq 0 (length (scale_factor l')))
             (level_body metric im1 im2 m1 m2 (get_optimiser_weights t1)
                (scratch_image h)) (mkWorld l' t1) in
         trace_of r = trace_of i ++ average_header_event im1 im2 t1 :: trace_of lp
         /\ world_of r = world_of lp
         /\ outcome_of r = outcome_of lp).
Proof.
  cbv zeta. rewrite run_masked_this.
  destruct (run_masked_unfold metric im1 im2 m1 m2 w) as (Htr & Ht & H).
  pose proof (broadcast_levels_lengths w) as Hlen. cbv zeta in Hlen.
  destruct w as [l t].
  pose proof (broadcast_levels_init_type l t) as Hinit.
  destruct (broadcast_levels (mkWorld l t)) as [[tr0 [l1 t']] v].
  unfold_views. simpl in *. subst tr0 t'.
  destruct v as [[]|e|].
  2, 3: left; rewrite H; simpl; repeat split; discriminate.
  right. destruct (Hlen eq_refl) as [Hlm Hls]. clear Hlen.
  destruct (initialise_frame im1 im2 l1 l t Hinit) as (Hitr & Hio & Hit & Hil).
  pose proof (register_levels_unfold metric im1 im2 m1 m2 (mkWorld l1 t)) as Hr.
  cbv zeta in Hr. rewrite H. clear H. unfold_views.
  destruct (initialise im1 im2 (mkWorld l1 t)) as [[tri [li ti]] oi].
  destruct (initialise im1 im2 (mkWorld l t)) as [[tri' wi'] oi'].
  simpl in *. subst tri' oi' li. rewrite <- Hit. clear Hit.
  destruct oi as [[]|e|].
  2, 3: left; rewrite Hr; simpl; repeat split; discriminate.
  right. unfold midway_header.
  destruct (compute_minimum_average_header _ _ _ _) as [e|h] eqn:Hc.
  - left. rewrite Hr. simpl. repeat split; try discriminate. now exists e.
  - right. repeat split; try assumption. exists h. split; [reflexivity|].
    rewrite Hr. repeat split.
Qed.

(** *** Events of the level loop *)

Lemma level_body_events metric im1 im2 m1 m2 wts mid level (l : Linear) :
  hoare (fun w => this w = l) (level_event l im1 im2 mid)
    (level_body metric im1 im2 m1 m2 wts mid level).
Proof.
  intros [l0 t] Hl. simpl in Hl. subst l0.
  split; [apply level_body_keeps_this|].
  unfold level_body. unfold_monad. unfold_views. simpl.
  explode; forall_events;
    repeat match goal with
           | |- _ /\ _ => split
           | |- exists _, _ => eexists
           | |- In _ _ => eapply nth_error_In; eassumption
           | |- _ => reflexivity || eassumption || (left; reflexivity) || (right; reflexivity)
           end.
Qed.

Lemma for_each_level_events metric im1 im2 m1 m2 wts mid levels (l : Linear) t :
  Forall (level_event l im1 im2 mid)
    (trace_of (for_each levels (level_body metric im1 im2 m1 m2 wts mid)
                 (mkWorld l t))).
Proof.
  apply (@hoare_for_each (fun w => this w = l) (level_event l im1 im2 mid));
    [|reflexivity].
  intros level. apply level_body_events.
Qed.

Lemma level_events_no_average_header (l : Linear) im1 im2 mid (tr : list event) :
  Forall (level_event l im1 im2 mid) tr -> average_headers tr = [].
Proof.
  intros H. apply pick_none. eapply Forall_impl; [|exact H].
  intros e He. destruct e; simpl in *; try reflexivity; contradiction.
Qed.

(** The events of a run: nothing, or the initialisation, then the request for
    the midway header, then the events of the level loop. *)
Lemma run_masked_trace metric im1 im2 m1 m2 (w : world) :
  let r := run_masked metric im1 im2 m1 m2 w in
  let l' := this (world_of r) in
  let i := initialise im1 im2 w in
  let t1 := transform (world_of i) in
  ((trace_of r = [] \/ trace_of r = trace_of i
    \/ trace_of r = trace_of i ++ [average_header_event im1 im2 t1])
   /\ outcome_of r <> Returned tt)
  \/ (exists h post,
        midway_header im1 im2 t1 = inr h
        /\ trace_of r = trace_of i ++ average_header_event im1 im2 t1 :: post
        /\ Forall (level_event l' im1 im2 (scratch_image h)) post).
Proof.
  cbv zeta.
  destruct (run_masked_shape metric im1 im2 m1 m2 w)
    as [(Htr & Ho & _)|[(_ & Htr & Ho & _)|[(_ & _ & Htr & Ho & _)|
        (_ & _ & _ & h & Hh & Hr & _)]]].
  - left. auto.
  - left. auto.
  - left. auto.
  - right. exists h. eexists. split; [exact Hh|].
    split; [exact Hr|].
    apply for_each_level_events.
Qed.

(** C5: the midway header is requested once, after the initialisation and
    before anything the level loop does, from the headers of the two images
    and the half transform and half inverse transform of the transform as
    initialised, at resolution 1.0 and with zero padding; the level loop
    never requests it again, and every resize of the loop reads the one
    midway image built on that header. *)
Theorem midway_header_once metric im1 im2 m1 m2 (w : world) :
  let r := run_masked metric im1 im2 m1 m2 w in
  let tr := trace_of r in
  let i := initialise im1 im2 w in
  let t1 := transform (world_of i) in
  let request :=
    EvAverageHeader [original_header im2; original_header im1] (Finite 1.0)
      [Finite 0.0; Finite 0.0; Finite 0.0; Finite 0.0]
      [get_transform_half t1; get_transform_half_inverse t1] in
  Forall (is_initialise im1 im2) (trace_of i)
  /\ (tr = [] \/ tr = trace_of i
      \/ exists post, tr = trace_of i ++ request :: post /\ average_headers post = [])
  /\ length (average_headers tr) <= 1
  /\ (outcome_of r = Returned tt ->
      exists post, tr = trace_of i ++ request :: post /\ average_headers post = [])
  /\ (forall src sc interp, In (EvResize src sc interp) tr ->
        exists h,
          compute_minimum_average_header
            [original_header im2; original_header im1] (Finite 1.0)
            [Finite 0.0; Finite 0.0; Finite 0.0; Finite 0.0]
            [get_transform_half t1; get_transform_half_inverse t1] = inr h
          /\ src = scratch_image h)
  /\ (forall c, In c (optim_calls tr) ->
        exists h sc,
          compute_minimum_average_header
            [original_header im2; original_header im1] (Finite 1.0)
            [Finite 0.0; Finite 0.0; Finite 0.0; Finite 0.0]
            [get_transform_half t1; get_transform_half_inverse t1] = inr h
          /\ resize_filter (scratch_image h) sc 1 = inr (oc_midway_image c)).
Proof.
  cbv zeta.
  pose proof (initialise_events im1 im2 w) as Hi.
  assert (Hia : average_headers (trace_of (initialise im1 im2 w)) = [])
    by (apply pick_initialise; reflexivity).
  assert (Hnot : forall e, is_initialise im1 im2 e ->
                   (forall src sc interp, e <> EvResize src sc interp)
                   /\ as_optimise e = None).
  { intros e [->| ->]; split; try reflexivity; intros; discriminate. }
  rewrite Forall_forall in Hi.
  destruct (run_masked_trace metric im1 im2 m1 m2 w)
    as [[[Htr|[Htr|Htr]] Ho]|(h & post & Hh & Htr & Hpost)]; cbv zeta in *.
  - rewrite Htr. split; [now apply Forall_forall|].
    split; [auto|]. split; [simpl; lia|]. split; [contradiction|].
    split; [intros ? ? ? []|intros ? []].
  - rewrite Htr. split; [now apply Forall_forall|].
    split; [auto|]. split; [rewrite Hia; simpl; lia|]. split; [contradiction|].
    split.
    + intros src sc interp Hin. apply Hi, Hnot in Hin. destruct Hin as [Hin _].
      now contradiction (Hin src sc interp).
    + intros c Hc. apply pick_In in Hc. destruct Hc as [e [He Hf]].
      apply Hi, Hnot in He. destruct He as [_ He]. congruence.
  - rewrite Htr. split; [now apply Forall_forall|].
    split; [right; right; exists []; split; reflexivity|].
    split; [unfold average_headers in *; rewrite pick_app, Hia; simpl; lia|].
    split; [contradiction|].
    split.
    + intros src sc interp Hin. apply in_app_or in Hin.
      destruct Hin as [Hin|[Hin|[]]]; [|discriminate].
      apply Hi, Hnot in Hin. destruct Hin as [Hin _].
      now contradiction (Hin src sc interp).
    + intros c Hc. unfold optim_calls in Hc. rewrite pick_app in Hc.
      apply in_app_or in Hc. destruct Hc as [Hc|[]].
      apply pick_In in Hc. destruct Hc as [e [He Hf]].
      apply Hi, Hnot in He. destruct He as [_ He]. congruence.
  - pose proof (level_events_no_average_header Hpost) as Hpa.
    rewrite Forall_forall in Hpost. unfold midway_header in Hh.
    rewrite Htr. split; [now apply Forall_forall|].
    split; [right; right; exists post; split; [reflexivity|assumption]|].
    split.
    { unfold average_headers in *. rewrite pick_app, Hia, pick_cons. simpl.
      rewrite Hpa. simpl. lia. }
    split; [intros _; exists post; split; [reflexivity|assumption]|].
    split.
    + intros src sc interp Hin. apply in_app_or in Hin.
      destruct Hin as [Hin|[Hin|Hin]]; [|discriminate|].
      * apply Hi, Hnot in Hin. destruct Hin as [Hin _].
        now contradiction (Hin src sc interp).
      * apply Hpost in Hin. simpl in Hin. destruct Hin as [-> _].
        exists h. split; [assumption|reflexivity].
    + intros c Hc. unfold optim_calls in Hc. rewrite pick_app, pick_cons in Hc.
      simpl in Hc. apply in_app_or in Hc. destruct Hc as [Hc|Hc].
      * apply pick_In in Hc. destruct Hc as [e [He Hf]].
        apply Hi, Hnot in He. destruct He as [_ He]. congruence.
      * apply pick_In in Hc. destruct Hc as [e [He Hf]].
        apply Hpost in He. destruct e; simpl in Hf; try discriminate.
        injection Hf as ->. simpl in He. destruct He as (sc & _ & Hres & _).
        exists h, sc. split; assumption.
Qed.






Lemma smooth_stdev_nan (sf sc : double) :
  sf = NaN \/ sc = NaN -> smooth_stdev sf sc = NaN.
Proof.
  unfold smooth_stdev. intros [-> | ->].
  - reflexivity.
  - destruct sf as [q| | |]; reflexivity.
Qed.


(** *** Commits of the optimised parameters *)

Lemma level_chain_quiet_prefix (x : list event) t tr n t' :
  Forall quiet x -> level_chain t tr n t' -> level_chain t (x ++ tr) n t'.
Proof.
  intros Hx H. destruct H as [t tr Htr|t pre c p rest n t' Hpre Hc Hp Hrest].
  - apply chain_end. apply Forall_app. split; assumption.
  - rewrite app_assoc. apply chain_level; try assumption.
    apply Forall_app. split; assumption.
Qed.

Lemma quiet_pick (tr : list event) :
  Forall quiet tr -> optim_calls tr = [] /\ commits tr = [].
Proof.
  intros H. split; apply pick_none; eapply Forall_impl; try exact H;
    intros e [Ho Hc]; assumption.
Qed.

Lemma level_chain_chained t tr n t' :
  level_chain t tr n t' ->
  chained t (optim_calls tr) (commits tr) t'
  /\ length (optim_calls tr) = n /\ length (commits tr) = n.
Proof.
  induction 1 as [t tr Htr|t pre c p rest n t' Hpre Hc Hp Hrest IH].
  - destruct (quiet_pick Htr) as [-> ->]. simpl. auto.
  - destruct (quiet_pick Hpre) as [Hpo Hpc].
    unfold optim_calls, commits in *.
    rewrite !pick_app, Hpo, Hpc, !pick_cons. simpl.
    destruct IH as (IH & Hlo & Hlc). repeat split; auto.
Qed.

Lemma chained_nth t calls ps t' :
  chained t calls ps t' ->
  forall k c p,
    nth_error calls k = Some c -> nth_error ps k = Some p ->
    gradient_descent c = inr p
    /\ match nth_error calls (S k) with
       | Some c' => oc_transformation c' = set_parameter_vector p (oc_transformation c)
       | None => t' = set_parameter_vector p (oc_transformation c)
       end.
Proof.
  revert t ps. induction calls as [|c0 calls IH]; intros t ps H k c p Hc Hp.
  - destruct k; discriminate.
  - destruct ps as [|p0 ps]; [contradiction|].
    destruct H as (Ht & Hg & Hrest).
    destruct k as [|k]; simpl in Hc, Hp.
    + injection Hc as <-. injection Hp as <-. split; [assumption|].
      rewrite Ht. simpl. destruct calls as [|c1 calls]; simpl.
      * destruct ps; simpl in Hrest; [assumption|contradiction].
      * destruct ps as [|p1 ps]; [contradiction|]. destruct Hrest as (H1 & _).
        exact H1.
    + exact (IH _ _ Hrest k c p Hc Hp).
Qed.

Lemma level_body_returned metric im1 im2 m1 m2 wts mid level (w : world) :
  let b := level_body metric im1 im2 m1 m2 wts mid level w in
  outcome_of b = Returned tt ->
  exists pre c p post,
    trace_of b = pre ++ EvOptimise c :: EvSetParameterVector p :: post
    /\ Forall quiet pre /\ Forall quiet post
    /\ oc_transformation c = transform w
    /\ gradient_descent c = inr p
    /\ transform (world_of b) = set_parameter_vector p (transform w).
Proof.
  destruct w as [l t]. cbv zeta.
  unfold level_body. unfold_monad. unfold_views. simpl.
  explode; intros Hret; try discriminate;
    match goal with
    | |- exists _ _ _ _,
          ?e1 :: ?e2 :: ?e3 :: ?e4 :: ?e5 :: ?e6 :: ?e7
            :: EvOptimise ?c :: EvSetParameterVector ?p :: ?post = _ /\ _ =>
        exists [e1; e2; e3; e4; e5; e6; e7], c, p, post
    end;
    (split; [reflexivity|]);
    (split; [unfold quiet; forall_events|]);
    (split; [unfold quiet; forall_events|]);
    repeat split; assumption.
Qed.

Lemma level_body_aborted metric im1 im2 m1 m2 wts mid level (w : world) :
  let b := level_body metric im1 im2 m1 m2 wts mid level w in
  outcome_of b <> Returned tt ->
  world_of b = w /\ commits (trace_of b) = [].
Proof.
  destruct w as [l t]. cbv zeta.
  unfold level_body. unfold_monad. unfold_views. simpl.
  explode; intros Hret; try (now elim Hret); split; reflexivity.
Qed.

Lemma for_each_chain metric im1 im2 m1 m2 wts mid levels (w : world) :
  let lp := for_each levels (level_body metric im1 im2 m1 m2 wts mid) w in
  outcome_of lp = Returned tt ->
  level_chain (transform w) (trace_of lp) (length levels) (transform (world_of lp)).
Proof.
  cbv zeta. revert w. induction levels as [|level rest IH]; intros w; simpl.
  - intros _. apply chain_end. constructor.
  - pose proof (level_body_returned metric im1 im2 m1 m2 wts mid level w) as Hb.
    cbv zeta in Hb. unfold bind. unfold_views.
    destruct (level_body metric im1 im2 m1 m2 wts mid level w)
      as [[tr1 w1] [[]|e|]]; simpl in *; try discriminate.
    destruct (Hb eq_refl) as (pre & c & p & post & -> & Hpre & Hpost & Hc & Hp & Hw1).
    specialize (IH w1). unfold_views.
    destruct (for_each rest _ w1) as [[tr2 w2] r]. simpl in *.
    intros Hr. specialize (IH Hr).
    rewrite <- app_assoc. simpl. apply chain_level; try assumption.
    rewrite <- Hw1. now apply level_chain_quiet_prefix.
Qed.

Lemma for_each_commits_bound metric im1 im2 m1 m2 wts mid levels (w : world) :
  length (commits (trace_of (for_each levels
                               (level_body metric im1 im2 m1 m2 wts mid) w)))
  <= length levels.
Proof.
  revert w. induction levels as [|level rest IH]; intros w; simpl; [lia|].
  pose proof (level_body_returned metric im1 im2 m1 m2 wts mid level w) as Hb.
  pose proof (level_body_aborted metric im1 im2 m1 m2 wts mid level w) as Ha.
  cbv zeta in Hb, Ha. unfold bind. unfold_views.
  destruct (level_body metric im1 im2 m1 m2 wts mid level w)
    as [[tr1 w1] [[]|e|]]; simpl in *.
  - destruct (Hb eq_refl) as (pre & c & p & post & -> & Hpre & Hpost & _).
    specialize (IH w1). unfold_views.
    destruct (for_each rest _ w1) as [[tr2 w2] r]. simpl in *.
    destruct (quiet_pick Hpre) as [_ Hpc]. destruct (quiet_pick Hpost) as [_ Hqc].
    unfold commits in *. rewrite !pick_app, !pick_cons, Hpc, Hqc. simpl. lia.
  - destruct Ha as [_ ->]; [discriminate|]. simpl. lia.
  - destruct Ha as [_ ->]; [discriminate|]. simpl. lia.
Qed.

Lemma initialise_quiet im1 im2 w : Forall quiet (trace_of (initialise im1 im2 w)).
Proof.
  eapply Forall_impl; [|apply initialise_events].
  intros e [->| ->]; split; reflexivity.
Qed.

(** C4: a run that returns has written the parameter vector back once per
    level, [scale_factor.size()] times in all; each write is the event right
    after an optimiser call and stores the vector that call returned,
    whatever it is; the first call starts from the transform as initialised,
    each later call from the transform left by the previous write, and the
    transform at the end is the one left by the last write.  A run that
    stops early has written at most that many times. *)
Theorem one_commit_per_level metric im1 im2 m1 m2 (w : world) :
  let r := run_masked metric im1 im2 m1 m2 w in
  let tr := trace_of r in
  let t1 := transform (world_of (initialise im1 im2 w)) in
  let n := length (scale_factor (this (world_of r))) in
  length (commits tr) <= n
  /\ (outcome_of r = Returned tt ->
      length (commits tr) = n
      /\ length (optim_calls tr) = n
      /\ level_chain t1 tr n (transform (world_of r))
      /\ forall k c p,
           nth_error (optim_calls tr) k = Some c ->
           nth_error (commits tr) k = Some p ->
           gradient_descent c = inr p
           /\ match nth_error (optim_calls tr) (S k) with
              | Some c' =>
                  oc_transformation c' = set_parameter_vector p (oc_transformation c)
              | None =>
                  transform (world_of r) = set_parameter_vector p (oc_transformation c)
              end).
Proof.
  cbv zeta.
  pose proof (initialise_quiet im1 im2 w) as Hq.
  destruct (quiet_pick Hq) as [_ Hic].
  destruct (run_masked_shape metric im1 im2 m1 m2 w)
    as [(Htr & Ho & _)|[(_ & Htr & Ho & _)|[(_ & _ & Htr & Ho & _)|
        (_ & _ & _ & h & Hh & Htr & Hw & Hout)]]]; cbv zeta in *.
  - rewrite Htr. split; [simpl; lia|contradiction].
  - rewrite Htr, Hic. split; [simpl; lia|contradiction].
  - rewrite Htr. unfold commits in *. rewrite pick_app, Hic. simpl.
    split; [lia|contradiction].
  - set (l := this (world_of (run_masked metric im1 im2 m1 m2 w))) in *.
    set (t1 := transform (world_of (initialise im1 im2 w))) in *.
    set (wts := get_optimiser_weights t1) in *.
    set (levels := seq 0 (length (scale_factor l))) in *.
    assert (Hlen : length levels = length (scale_factor l)) by apply length_seq.
    split.
    + rewrite Htr. unfold commits in *. rewrite pick_app, pick_cons, Hic. simpl.
      rewrite <- Hlen. apply for_each_commits_bound.
    + intros Hr. rewrite Hout in Hr.
      pose proof (for_each_chain metric im1 im2 m1 m2 wts (scratch_image h) levels
                    (mkWorld l t1) Hr) as Hchain.
      rewrite Hlen in Hchain. simpl in Hchain. rewrite <- Hw in Hchain.
      assert (Hfull : level_chain t1 (trace_of (run_masked metric im1 im2 m1 m2 w))
                        (length (scale_factor l))
                        (transform (world_of (run_masked metric im1 im2 m1 m2 w)))).
      { rewrite Htr. apply level_chain_quiet_prefix; [assumption|].
        apply (@level_chain_quiet_prefix [average_header_event im1 im2 t1]);
          [|assumption].
        repeat constructor. }
      destruct (level_chain_chained Hfull) as (Hch & Hlo & Hlc).
      split; [assumption|]. split; [assumption|]. split; [assumption|].
      intros k c p Hc Hp. eapply chained_nth; eassumption.
Qed.

(** *** The writes to the transform *)


Lemma tracks_bind (A B : Type) (m : M A) (k : A -> M B) :
  tracks m -> (forall a, tracks (k a)) -> tracks (bind m k).
Proof.
  intros Hm Hk w. specialize (Hm w). unfold bind. unfold_views.
  destruct (m w) as [[tr w1] [a|e|]]; simpl in *; try assumption.
  specialize (Hk a w1). unfold_views.
  destruct (k a w1) as [[tr' w2] r]. simpl in *.
  unfold replay in *. rewrite fold_left_app, <- Hm. exact Hk.
Qed.

Lemma tracks_for_each (levels : list nat) (body : nat -> M unit) :
  (forall level, tracks (body level)) -> tracks (for_each levels body).
Proof.
  intros Hbody. induction levels as [|level rest IH]; simpl.
  - intros w. reflexivity.
  - apply tracks_bind; auto.
Qed.

Lemma level_body_tracks metric im1 im2 m1 m2 wts mid level :
  tracks (level_body metric im1 im2 m1 m2 wts mid level).
Proof.
  intros [l t]. unfold level_body, replay. unfold_monad. unfold_views. simpl. explode.
Qed.

Lemma initialise_tracks im1 im2 : tracks (initialise im1 im2).
Proof.
  intros [l t]. unfold initialise, replay. unfold_monad. unfold_views. simpl.
  explode; congruence.
Qed.

Lemma run_masked_tracks metric im1 im2 m1 m2 : tracks (run_masked metric im1 im2 m1 m2).
Proof.
  unfold run_masked. apply tracks_bind.
  - intros w. destruct (run_masked_unfold metric im1 im2 m1 m2 w) as (Htr & Ht & _).
    rewrite Htr, Ht. reflexivity.
  - intros _. unfold register_levels.
    apply tracks_bind; [apply initialise_tracks|intros _].
    apply tracks_bind; [intros w; reflexivity|intros t].
    apply tracks_bind.
    { intros [l t0]. unfold midway_space, replay. unfold_monad. unfold_views. simpl.
      explode. }
    intros mid. apply tracks_bind; [intros w; reflexivity|intros l].
    apply tracks_for_each. intros level. apply level_body_tracks.
Qed.


Lemma calls_track_app (t : TransformType) (a b : list event) :
  calls_track t (a ++ b) <-> calls_track t a /\ calls_track (replay t a) b.
Proof.
  revert t. induction a as [|e a IH]; intros t; simpl.
  - tauto.
  - rewrite IH. unfold replay. simpl. tauto.
Qed.

Lemma calls_track_at (t : TransformType) (pre post : list event) (c : optim_call) :
  calls_track t (pre ++ EvOptimise c :: post) -> oc_transformation c = replay t pre.
Proof.
  intros H. apply calls_track_app in H. destruct H as [_ [H _]]. exact H.
Qed.

Lemma tracks_calls_bind (A B : Type) (m : M A) (k : A -> M B) :
  tracks m -> tracks_calls m -> (forall a, tracks_calls (k a)) ->
  tracks_calls (bind m k).
Proof.
  intros Ht Hm Hk w. specialize (Ht w). specialize (Hm w). unfold bind. unfold_views.
  destruct (m w) as [[tr w1] [a|e|]]; simpl in *; try assumption.
  specialize (Hk a w1). unfold_views.
  destruct (k a w1) as [[tr' w2] r]. simpl in *.
  apply calls_track_app. rewrite <- Ht. split; assumption.
Qed.

Lemma tracks_calls_for_each (levels : list nat) (body : nat -> M unit) :
  (forall level, tracks (body level)) ->
  (forall level, tracks_calls (body level)) ->
  tracks_calls (for_each levels body).
Proof.
  intros Ht Hbody. induction levels as [|level rest IH]; simpl.
  - intros w. exact I.
  - apply tracks_calls_bind; auto.
Qed.

Lemma level_body_tracks_calls metric im1 im2 m1 m2 wts mid level :
  tracks_calls (level_body metric im1 im2 m1 m2 wts mid level).
Proof.
  intros [l t]. unfold level_body. unfold_monad. unfold_views. simpl.
  explode; simpl; tauto.
Qed.

Lemma run_masked_tracks_calls metric im1 im2 m1 m2 :
  tracks_calls (run_masked metric im1 im2 m1 m2).
Proof.
  assert (Hv : tracks broadcast_levels /\ tracks_calls broadcast_levels).
  { split; intros w;
      destruct (run_masked_unfold metric im1 im2 m1 m2 w) as (Htr & Ht & _);
      rewrite Htr; [rewrite Ht; reflexivity|exact I]. }
  destruct Hv as [Hvt Hvc].
  unfold run_masked. apply tracks_calls_bind; try assumption.
  intros _. unfold register_levels.
  apply tracks_calls_bind; [apply initialise_tracks| |intros _].
  { intros [l t]. unfold initialise. unfold_monad. unfold_views. simpl.
    explode; simpl; tauto. }
  apply tracks_calls_bind; [intros w; reflexivity|intros w; exact I|intros t].
  apply tracks_calls_bind.
  { intros [l t0]. unfold midway_space, replay. unfold_monad. unfold_views. simpl.
    explode. }
  { intros [l t0]. unfold midway_space. unfold_monad. unfold_views. simpl.
    explode; simpl; tauto. }
  intros mid.
  apply tracks_calls_bind; [intros w; reflexivity|intros w; exact I|intros l].
  apply tracks_calls_for_each; intros level.
  - apply level_body_tracks.
  - apply level_body_tracks_calls.
Qed.

(** X26: the driver writes the transform at two kinds of places only, the
    initialisation and the commit of each level.  Replaying the initialiser
    calls and the [set_parameter_vector] calls of the trace, from the
    transform that was passed in, gives the transform every optimiser call
    starts from and the transform the run ends with, also when the run stops
    early. *)
Theorem transform_follows_trace metric im1 im2 m1 m2 (w : world) :
  let r := run_masked metric im1 im2 m1 m2 w in
  let tr := trace_of r in
  (forall pre c post, tr = pre ++ EvOptimise c :: post ->
      oc_transformation c = replay (transform w) pre)
  /\ transform (world_of r) = replay (transform w) tr.
Proof.
  cbv zeta. split.
  - intros pre c post Htr. apply (@calls_track_at _ pre post). rewrite <- Htr.
    apply run_masked_tracks_calls.
  - apply run_masked_tracks.
Qed.

(** *** No access outside a vector *)

Lemma level_body_defined metric im1 im2 m1 m2 wts mid level (w : world) :
  level < length (scale_factor (this w)) ->
  length (max_iter (this w)) = length (scale_factor (this w)) ->
  length (sparsity (this w)) = length (scale_factor (this w)) ->
  outcome_of (level_body metric im1 im2 m1 m2 wts mid level w) <> Undefined.
Proof.
  destruct w as [l t]. simpl. intros Hlevel Hm Hs.
  unfold level_body. unfold_monad. unfold_views. simpl.
  explode; try discriminate; exfalso;
    match goal with
    | H : nth_error _ _ = None |- _ => apply nth_error_None in H; lia
    end.
Qed.

Lemma for_each_defined metric im1 im2 m1 m2 wts mid (levels : list nat) (w : world) :
  Forall (fun level => level < length (scale_factor (this w))) levels ->
  length (max_iter (this w)) = length (scale_factor (this w)) ->
  length (sparsity (this w)) = length (scale_factor (this w)) ->
  outcome_of (for_each levels (level_body metric im1 im2 m1 m2 wts mid) w) <> Undefined.
Proof.
  revert w. induction levels as [|level rest IH]; intros w Hlevels Hm Hs; simpl.
  - discriminate.
  - inversion Hlevels as [|? ? Hlevel Hrest]; subst.
    pose proof (level_body_defined metric im1 im2 m1 m2 wts mid w Hlevel Hm Hs) as Hd.
    pose proof (level_body_keeps_this metric im1 im2 m1 m2 wts mid level w) as Hk.
    unfold bind. unfold_views.
    destruct (level_body metric im1 im2 m1 m2 wts mid level w)
      as [[tr1 w1] [[]|e|]]; simpl in *; try discriminate; try contradiction.
    rewrite <- Hk in Hrest, Hm, Hs. specialize (IH w1 Hrest Hm Hs). unfold_views.
    destruct (for_each rest _ w1) as [[tr2 w2] r]. exact IH.
Qed.

Lemma initialise_defined im1 im2 (w : world) :
  outcome_of (initialise im1 im2 w) <> Undefined.
Proof.
  destruct w as [l t]. unfold initialise. unfold_monad. unfold_views. simpl.
  explode; discriminate.
Qed.

(** X21: once the lengths have been checked, every [v[level]] of the loop
    is inside its vector: no run reads an element that is not there, a run
    returns or throws. *)
Lemma run_masked_defined metric im1 im2 m1 m2 (w : world) :
  outcome_of (run_masked metric im1 im2 m1 m2 w) <> Undefined.
Proof.
  destruct (run_masked_unfold metric im1 im2 m1 m2 w) as (_ & _ & H).
  pose proof (broadcast_levels_defined w) as Hv.
  pose proof (broadcast_levels_lengths w) as Hlen. cbv zeta in Hlen.
  destruct (outcome_of (broadcast_levels w)) as [[]|e|];
    [|rewrite H; discriminate|contradiction].
  destruct (Hlen eq_refl) as [Hm Hs]. rewrite H. clear H Hlen Hv.
  set (w1 := world_of (broadcast_levels w)) in *.
  pose proof (register_levels_unfold metric im1 im2 m1 m2 w1) as Hr. cbv zeta in Hr.
  pose proof (initialise_defined im1 im2 w1) as Hi.
  pose proof (initialise_keeps_this im1 im2 w1) as Hk.
  destruct (outcome_of (initialise im1 im2 w1)) as [[]|e|];
    [|rewrite Hr; discriminate|contradiction].
  destruct (compute_minimum_average_header _ _ _ _) as [e|h];
    rewrite Hr; [discriminate|].
  unfold outcome_of at 1. simpl.
  apply for_each_defined; rewrite ?Hk; try assumption.
  apply Forall_forall. intros level Hin. apply in_seq in Hin. lia.
Qed.

(** *** The validating setters and the objects they build *)

Lemma Qlt_bool_iff (x y : Q) : Qlt_bool x y = true <-> (x < y)%Q.
Proof.
  unfold Qlt_bool. rewrite negb_true_iff. split.
  - intros H. apply Qnot_le_lt. intros Hle. apply Qle_bool_iff in Hle. congruence.
  - intros H. destruct (Qle_bool y x) eqn:Hb; [|reflexivity].
    apply Qle_bool_iff in Hb. exfalso. exact (Qlt_not_le _ _ H Hb).
Qed.

Lemma Qlt_bool_false_iff (x y : Q) : Qlt_bool x y = false <-> (y <= x)%Q.
Proof.
  unfold Qlt_bool. rewrite negb_false_iff. apply Qle_bool_iff.
Qed.

Lemma Qle_bool_false_iff (x y : Q) : Qle_bool x y = false <-> (y < x)%Q.
Proof.
  rewrite <- Qlt_bool_iff. unfold Qlt_bool. rewrite negb_true_iff. tauto.
Qed.

Lemma throw_if_any_cases (A : Type) (bad : A -> bool) (e : Exception) (v : list A) :
  (throw_if_any bad e v = Returned tt /\ Forall (fun x => bad x = false) v)
  \/ (throw_if_any bad e v = Thrown e /\ Exists (fun x => bad x = true) v).
Proof.
  induction v as [|x v IH]; simpl.
  - left. split; [reflexivity|constructor].
  - destruct (bad x) eqn:Hx.
    + right. split; [reflexivity|]. now apply Exists_cons_hd.
    + destruct IH as [[Hr Hall]|[Ht Hex]].
      * left. split; [assumption|]. now constructor.
      * right. split; [assumption|]. now apply Exists_cons_tl.
Qed.

Lemma validated_throw_if_any (A : Type) (bad : A -> bool) (e : Exception)
    (v : list A) (store : Linear -> Linear) (this : Linear) :
  (Forall (fun x => bad x = false) v
   /\ validated (throw_if_any bad e v) store this = (store this, Returned tt))
  \/ (Exists (fun x => bad x = true) v
      /\ validated (throw_if_any bad e v) store this = (this, Thrown e)).
Proof.
  unfold validated.
  destruct (throw_if_any_cases bad e v) as [[-> H]|[-> H]]; [left|right];
    (split; [exact H|reflexivity]).
Qed.

Lemma scale_factor_test (x : double) :
  double_le x (Finite 0) || double_lt (Finite 1) x = false <-> scale_factor_ok x.
Proof.
  unfold scale_factor_ok. destruct x as [q| | |]; simpl.
  - rewrite orb_false_iff, Qle_bool_false_iff, Qlt_bool_false_iff. split.
    + intros H. right. exists q. split; [reflexivity|exact H].
    + intros [H|(q' & H & Hq)]; [discriminate|]. injection H as <-. exact Hq.
  - split; [discriminate|]. intros [H|(q' & H & _)]; discriminate.
  - split; [discriminate|]. intros [H|(q' & H & _)]; discriminate.
  - split; [intros _; now left|reflexivity].
Qed.

Lemma sparsity_test (x : double) :
  double_lt x (Finite 0.0) || double_lt (Finite 1.0) x = false <-> sparsity_ok x.
Proof.
  unfold sparsity_ok. destruct x as [q| | |]; simpl.
  - rewrite orb_false_iff, !Qlt_bool_false_iff.
    assert (H0 : (0.0 <= q <-> 0 <= q)%Q) by (unfold Qle; simpl; lia).
    assert (H1 : (q <= 1.0 <-> q <= 1)%Q) by (unfold Qle; simpl; lia).
    rewrite H0, H1. split.
    + intros H. right. exists q. split; [reflexivity|exact H].
    + intros [H|(q' & H & Hq)]; [discriminate|]. injection H as <-. exact Hq.
  - split; [discriminate|]. intros [H|(q' & H & _)]; discriminate.
  - split; [discriminate|]. intros [H|(q' & H & _)]; discriminate.
  - split; [intros _; now left|reflexivity].
Qed.

Lemma smooth_factor_test (x : double) :
  double_lt x (Finite 0) = false <-> smooth_factor_ok x.
Proof.
  unfold smooth_factor_ok. destruct x as [q| | |]; simpl.
  - rewrite Qlt_bool_false_iff. split.
    + intros H. right. right. exists q. split; [reflexivity|exact H].
    + intros [H|[H|(q' & H & Hq)]]; try discriminate. injection H as <-. exact Hq.
  - split; [intros _; right; now left|reflexivity].
  - split; [discriminate|]. intros [H|[H|(q' & H & _)]]; discriminate.
  - split; [intros _; now left|reflexivity].
Qed.

Lemma test_refuses (bad : bool) (ok : Prop) :
  (bad = false <-> ok) -> bad = true -> ~ ok.
Proof.
  intros H Hx Hok. apply H in Hok. congruence.
Qed.

Lemma extent_accepted (x : N) : (x <? 1)%N = false -> extent_ok x.
Proof.
  intros Hx. apply N.ltb_ge in Hx. exact Hx.
Qed.

(** X1: [set_scale_factor] stores the vector exactly when each element is
    above 0 and at most 1, or is a NaN, for which both comparisons of line
    89 are false (the empty vector is stored too); otherwise, an element
    being at most 0, above 1 or infinite, it throws and leaves the whole
    object as it was. *)
Theorem set_scale_factor_accepts (scalefactor : list double) (this : Linear) :
  (Forall scale_factor_ok scalefactor
   /\ set_scale_factor scalefactor this = (with_scale_factor scalefactor this, Returned tt))
  \/ (Exists (fun x => ~ scale_factor_ok x) scalefactor
      /\ set_scale_factor scalefactor this =
           (this,
            Thrown (mkException
              "the scale factor for each multi-resolution level must be between 0 and 1"))).
Proof.
  unfold set_scale_factor, validated.
  match goal with
  | |- context [throw_if_any ?bad ?e scalefactor] =>
      destruct (throw_if_any_cases bad e scalefactor) as [[-> H]|[-> H]]
  end.
  - left. split; [|reflexivity]. eapply Forall_impl; [|exact H].
    intros x. apply scale_factor_test.
  - right. split; [|reflexivity]. eapply Exists_impl; [|exact H].
    intros x Hx. exact (test_refuses (scale_factor_test x) Hx).
Qed.

(** X2: [set_sparsity] stores the vector exactly when each element lies
    between 0 and 1, bounds included, or is a NaN, for which both
    comparisons of line 111 are false; otherwise, an element being below 0,
    above 1 or infinite, it throws and leaves the whole object as it was. *)
Theorem set_sparsity_accepts (sparsity_ : list double) (this : Linear) :
  (Forall sparsity_ok sparsity_
   /\ set_sparsity sparsity_ this = (with_sparsity sparsity_ this, Returned tt))
  \/ (Exists (fun x => ~ sparsity_ok x) sparsity_
      /\ set_sparsity sparsity_ this =
           (this, Thrown (mkException "sparsity must be between 0.0 and 1.0"))).
Proof.
  unfold set_sparsity, validated.
  match goal with
  | |- context [throw_if_any ?bad ?e sparsity_] =>
      destruct (throw_if_any_cases bad e sparsity_) as [[-> H]|[-> H]]
  end.
  - left. split; [|reflexivity]. eapply Forall_impl; [|exact H].
    intros x. apply sparsity_test.
  - right. split; [|reflexivity]. eapply Exists_impl; [|exact H].
    intros x Hx. exact (test_refuses (sparsity_test x) Hx).
Qed.

(** X3: [set_extent] stores the vector exactly when each extent is at least
    1; a zero extent makes it throw and leave the whole object as it was. *)
Theorem set_extent_accepts (extent : list N) (this : Linear) :
  (Forall extent_ok extent
   /\ set_extent extent this = (with_kernel_extent extent this, Returned tt))
  \/ (In 0%N extent
      /\ set_extent extent this =
           (this,
            Thrown (mkException
              "the neighborhood kernel extent must be at least 1 voxel"))).
Proof.
  unfold set_extent, validated.
  match goal with
  | |- context [throw_if_any ?bad ?e extent] =>
      destruct (throw_if_any_cases bad e extent) as [[-> H]|[-> H]]
  end.
  - left. split; [|reflexivity]. eapply Forall_impl; [|exact H].
    exact extent_accepted.
  - right. split; [|reflexivity]. apply Exists_exists in H.
    destruct H as [x [Hin Hx]]. apply N.ltb_lt in Hx.
    replace x with 0%N in Hin by lia. exact Hin.
Qed.

Lemma set_max_iter_cases (maxiter : list Z) (this : Linear) :
  (Forall (fun x => (0 <= x)%Z) maxiter
   /\ set_max_iter maxiter this = (with_max_iter maxiter this, Returned tt))
  \/ (exists e, set_max_iter maxiter this = (this, Thrown e)).
Proof.
  unfold set_max_iter, validated.
  match goal with
  | |- context [throw_if_any ?bad ?e maxiter] =>
      destruct (throw_if_any_cases bad e maxiter) as [[-> H]|[-> H]]
  end.
  - left. split; [|reflexivity]. eapply Forall_impl; [|exact H].
    intros x Hx. now apply Z.ltb_ge in Hx.
  - right. eexists. reflexivity.
Qed.

Lemma Linear_new_well_formed : well_formed Linear_new.
Proof.
  unfold well_formed, scale_factor_ok, sparsity_ok, smooth_factor_ok, extent_ok. simpl.
  assert (Hin : forall q, (0 < q)%Q -> (q <= 1)%Q ->
            Finite q = NaN \/ exists q', Finite q = Finite q' /\ (0 < q' /\ q' <= 1)%Q).
  { intros q H0 H1. right. exists q. auto. }
  split; [repeat constructor; lia|].
  split; [repeat (apply Forall_cons || apply Forall_nil); apply Hin;
            (reflexivity || discriminate)|].
  split.
  { apply Forall_cons; [|apply Forall_nil].
    right. eexists. split; [reflexivity|split; discriminate]. }
  split; [right; right; eexists; split; [reflexivity|discriminate]|].
  repeat constructor; lia.
Qed.

Lemma setter_well_formed (s : setter) (l : Linear) :
  is_setter s -> well_formed l -> well_formed (fst (s l)).
Proof.
  intros Hs (Hm & Hsc & Hsp & Hsm & He). destruct Hs as [v|v|v|v|v|v|v|v|v|v].
  - destruct (set_max_iter_cases v l) as [[H ->]|[e ->]]; simpl;
      unfold well_formed; simpl; auto.
  - unfold set_scale_factor.
    match goal with
    | |- context [validated (throw_if_any ?bad ?e v) ?store l] =>
        destruct (validated_throw_if_any bad e v store l) as [[H ->]|[_ ->]]
    end; simpl; unfold well_formed; simpl; auto.
    apply (Forall_impl _ (fun x => proj1 (scale_factor_test x))) in H. auto 6.
  - unfold set_smoothing_factor, validated.
    destruct (double_lt v (Finite 0)) eqn:Hv; simpl; unfold well_formed; simpl; auto.
    apply smooth_factor_test in Hv. auto.
  - unfold set_extent.
    match goal with
    | |- context [validated (throw_if_any ?bad ?e v) ?store l] =>
        destruct (validated_throw_if_any bad e v store l) as [[H ->]|[_ ->]]
    end; simpl; unfold well_formed; simpl; auto.
    apply (Forall_impl _ extent_accepted) in H. auto 6.
  - unfold set_sparsity.
    match goal with
    | |- context [validated (throw_if_any ?bad ?e v) ?store l] =>
        destruct (validated_throw_if_any bad e v store l) as [[H ->]|[_ ->]]
    end; simpl; unfold well_formed; simpl; auto.
    apply (Forall_impl _ (fun x => proj1 (sparsity_test x))) in H. auto 6.
  - unfold well_formed; simpl; auto.
  - unfold well_formed; simpl; auto.
  - unfold well_formed; simpl; auto.
  - unfold well_formed; simpl; auto.
  - unfold well_formed; simpl; auto.
Qed.

Lemma broadcast_to_Forall (A : Type) (P : A -> Prop) (n : nat) (v : list A) :
  Forall P v -> Forall P (broadcast_to n v).
Proof.
  intros H. destruct v as [|x [|y v]]; simpl; try assumption.
  inversion H; subst. apply Forall_forall. intros z Hz.
  apply repeat_spec in Hz. now subst.
Qed.

Lemma run_masked_well_formed metric im1 im2 m1 m2 (w : world) :
  well_formed (this w) ->
  well_formed (this (world_of (run_masked metric im1 im2 m1 m2 w))).
Proof.
  intros (Hm & Hsc & Hsp & Hsm & He). rewrite run_masked_this.
  destruct w as [l t]. simpl in *.
  destruct (broadcast_levels_this l t) as (Heq & Hmax & Hs & Hs').
  set (l' := this (world_of (broadcast_levels (mkWorld l t)))) in *.
  assert (Hsp' : Forall sparsity_ok (sparsity l')).
  { destruct (Nat.eq_dec (length (max_iter l)) 1) as [H1|H1];
      [|destruct (Nat.eq_dec (length (max_iter l)) (length (scale_factor l)))
          as [Hn|Hn]].
    - rewrite Hs by auto. now apply broadcast_to_Forall.
    - rewrite Hs by auto. now apply broadcast_to_Forall.
    - rewrite Hs' by assumption. assumption. }
  assert (Hm' : Forall (fun x => (0 <= x)%Z) (max_iter l')).
  { rewrite Hmax. now apply broadcast_to_Forall. }
  rewrite Heq. unfold well_formed. simpl. auto.
Qed.

(** X4: whatever sequence of setter calls (returning or throwing) and runs
    an object has been through since its construction, its iteration counts
    are not negative, its kernel extents are at least 1, and each of its
    scale factors lies in (0, 1] or is a NaN, each of its sparsities lies in
    [0, 1] or is a NaN, and its smoothing factor is not negative, or is a
    NaN or the infinity above zero: the values that the tests of the
    setters do not refuse. *)
Theorem reachable_well_formed (l : Linear) : reachable l -> well_formed l.
Proof.
  induction 1 as [|l s _ IH Hs|l t metric im1 im2 m1 m2 _ IH].
  - apply Linear_new_well_formed.
  - now apply setter_well_formed.
  - exact (run_masked_well_formed metric im1 im2 m1 m2 (mkWorld l t) IH).
Qed.

(** *** What a level hands to the optimiser *)

Lemma level_body_call_fields metric im1 im2 m1 m2 wts mid level (l : Linear) :
  hoare (fun w => this w = l) (call_fields l metric m1 m2 wts)
    (level_body metric im1 im2 m1 m2 wts mid level).
Proof.
  intros [l0 t] Hl. simpl in Hl. subst l0.
  split; [apply level_body_keeps_this|].
  unfold level_body. unfold_monad. unfold_views. simpl.
  explode; forall_events;
    repeat match goal with
           | |- _ /\ _ => split
           | |- In _ _ => eapply nth_error_In; eassumption
           | H : Nat.eqb _ _ = _ |- _ = (if _ then _ else _) =>
               rewrite H; reflexivity
           | |- _ => reflexivity || (symmetry; assumption)
           end.
Qed.

(** Every event of a run comes from the initialisation, is the request for
    the midway header, or is an event of the level loop, which starts from
    the validated object, the initialised transform and the midway image. *)
Lemma run_masked_events (P : event -> Prop) metric im1 im2 m1 m2 (w : world) :
  let r := run_masked metric im1 im2 m1 m2 w in
  let l' := this (world_of r) in
  let t1 := transform (world_of (initialise im1 im2 w)) in
  (forall mid level,
      hoare (fun w' => this w' = l') P
        (level_body metric im1 im2 m1 m2 (get_optimiser_weights t1) mid level)) ->
  Forall (fun e => is_initialise im1 im2 e \/ e = average_header_event im1 im2 t1 \/ P e)
    (trace_of r).
Proof.
  cbv zeta. intros Hbody.
  pose proof (initialise_events im1 im2 w) as Hi.
  assert (Hi' : Forall (fun e => is_initialise im1 im2 e
                                 \/ e = average_header_event im1 im2
                                          (transform (world_of (initialise im1 im2 w)))
                                 \/ P e)
                  (trace_of (initialise im1 im2 w))).
  { eapply Forall_impl; [|exact Hi]. intros e He. now left. }
  destruct (run_masked_shape metric im1 im2 m1 m2 w)
    as [(Htr & _)|[(_ & Htr & _)|[(_ & _ & Htr & _)|
        (_ & _ & _ & h & Hh & Htr & _)]]]; cbv zeta in *; rewrite Htr.
  - constructor.
  - exact Hi'.
  - apply Forall_app. split; [exact Hi'|].
    constructor; [right; now left|constructor].
  - apply Forall_app. split; [exact Hi'|]. constructor; [right; now left|].
    match goal with
    | |- Forall _ (trace_of (for_each ?levels ?body ?w0)) =>
        destruct (@hoare_for_each (fun w' => this w' = this w0) P levels body
                    ltac:(intros level; apply Hbody) w0 eq_refl) as [_ Hall]
    end.
    eapply Forall_impl; [|exact Hall]. intros e He. right. now right.
Qed.

Lemma run_masked_frame metric im1 im2 m1 m2 (w : world) :
  let l := this w in
  let l' := this (world_of (run_masked metric im1 im2 m1 m2 w)) in
  scale_factor l' = scale_factor l
  /\ smooth_factor l' = smooth_factor l
  /\ kernel_extent l' = kernel_extent l
  /\ log_stream l' = log_stream l
  /\ init_type l' = init_type l
  /\ directions l' = directions l.
Proof.
  cbv zeta. rewrite run_masked_this. destruct w as [l t].
  destruct (broadcast_levels_this l t) as (Heq & _).
  simpl. rewrite Heq. repeat split.
Qed.

Lemma run_masked_calls metric im1 im2 m1 m2 (w : world) (c : optim_call) :
  let r := run_masked metric im1 im2 m1 m2 w in
  In c (optim_calls (trace_of r)) ->
  call_fields (this (world_of r)) metric m1 m2
    (get_optimiser_weights (transform (world_of (initialise im1 im2 w))))
    (EvOptimise c).
Proof.
  cbv zeta. intros Hc. apply pick_In in Hc. destruct Hc as [e [Hin Hf]].
  destruct e; simpl in Hf; try discriminate. injection Hf as ->.
  pose proof (@run_masked_events
                (call_fields (this (world_of (run_masked metric im1 im2 m1 m2 w)))
                   metric m1 m2
                   (get_optimiser_weights
                      (transform (world_of (initialise im1 im2 w)))))
                metric im1 im2 m1 m2 w) as H.
  cbv zeta in H.
  specialize (H ltac:(intros mid level; apply level_body_call_fields)).
  rewrite Forall_forall in H. destruct (H _ Hin) as [[Hi|Hi]|[Hi|Hi]];
    try discriminate. exact Hi.
Qed.

Lemma smooth_stdev_ok (sf sc : double) :
  smooth_factor_ok sf -> scale_factor_ok sc -> smooth_factor_ok (smooth_stdev sf sc).
Proof.
  intros Hsf [->|(c & -> & Hc0 & Hc1)].
  - rewrite smooth_stdev_nan by now right. now left.
  - assert (Hpos : (0 < 2.0 * c)%Q).
    { unfold Qlt in *. simpl in *. destruct (Qnum c); lia. }
    assert (Hz : Qeq_bool (2.0 * c) 0 = false).
    { destruct (Qeq_bool (2.0 * c) 0) eqn:Hz; [|reflexivity].
      apply Qeq_bool_eq in Hz. rewrite Hz in Hpos. discriminate. }
    assert (Hs : Qlt_bool (2.0 * c) 0 = false).
    { apply Qlt_bool_false_iff. now apply Qlt_le_weak. }
    destruct Hsf as [->|[->|(a & -> & Ha)]].
    + rewrite smooth_stdev_nan by now left. now left.
    + unfold smooth_stdev. simpl. rewrite Hs. right. now left.
    + unfold smooth_stdev. simpl. rewrite Hz. right. right.
      eexists. split; [reflexivity|].
      apply Qle_shift_div_l; [exact Hpos|].
      rewrite Qmult_0_l. unfold Qle in *. simpl in *. lia.
Qed.

(** X5: in a run of an object built by the constructor, setters and earlier
    runs, every resize gets a scale factor that is in (0, 1] or a NaN, every
    smoothing filter a standard deviation that is not negative, or a NaN or
    the infinity above zero, and every optimiser call an iteration count
    that is not negative and a sparsity that is in [0, 1] or a NaN. *)
Theorem run_values_in_range metric im1 im2 m1 m2 (w : world) :
  reachable (this w) ->
  let tr := trace_of (run_masked metric im1 im2 m1 m2 w) in
  (forall src stdev, In (EvSmooth src stdev) tr -> smooth_factor_ok stdev)
  /\ (forall src sc interp, In (EvResize src sc interp) tr -> scale_factor_ok sc)
  /\ (forall c, In c (optim_calls tr) ->
        (0 <= oc_max_iterations c)%Z /\ sparsity_ok (oc_sparsity c)).
Proof.
  intros Hreach. cbv zeta.
  assert (Hwf : well_formed (this w)).
  { induction Hreach as [|l s _ IH Hs|l t metric' im1' im2' m1' m2' _ IH].
    - apply Linear_new_well_formed.
    - now apply setter_well_formed.
    - exact (run_masked_well_formed metric' im1' im2' m1' m2' (mkWorld l t) IH). }
  pose proof (run_masked_well_formed metric im1 im2 m1 m2 w Hwf)
    as (Hm & Hsc & Hsp & Hsm & _).
  set (l' := this (world_of (run_masked metric im1 im2 m1 m2 w))) in *.
  rewrite Forall_forall in Hm, Hsc, Hsp.
  pose proof (@run_masked_events (fun e => exists mid, level_event l' im1 im2 mid e)
                metric im1 im2 m1 m2 w) as H.
  cbv zeta in H. fold l' in H.
  specialize (H ltac:(intros mid level w' Hw';
                      destruct (@level_body_events metric im1 im2 m1 m2
                                  (get_optimiser_weights
                                     (transform (world_of (initialise im1 im2 w))))
                                  mid level l' w' Hw') as [Hk Hall];
                      split; [exact Hk|];
                      eapply Forall_impl; [|exact Hall];
                      intros e He; now exists mid)).
  rewrite Forall_forall in H.
  split; [|split].
  - intros src stdev Hin. destruct (H _ Hin) as [[Hi|Hi]|[Hi|[mid Hi]]];
      try discriminate.
    simpl in Hi. destruct Hi as (_ & sc & Hsc' & ->).
    apply smooth_stdev_ok; [assumption|]. now apply Hsc.
  - intros src sc interp Hin. destruct (H _ Hin) as [[Hi|Hi]|[Hi|[mid Hi]]];
      try discriminate.
    simpl in Hi. destruct Hi as (_ & _ & Hsc'). now apply Hsc.
  - intros c Hc. pose proof (run_masked_calls metric im1 im2 m1 m2 w c Hc) as Hf.
    simpl in Hf. destruct Hf as (_ & _ & _ & _ & _ & _ & _ & _ & Hs' & Hm').
    split; [now apply Hm|now apply Hsp].
Qed.

Lemma broadcast_to_idempotent (A : Type) (n : nat) (v : list A) :
  broadcast_to n (broadcast_to n v) = broadcast_to n v.
Proof.
  destruct v as [|x [|y v]]; try reflexivity. simpl. apply broadcast_to_repeat.
Qed.

(** X6: running again on the state a run has left does not change the
    object: the broadcast of [max_iter] and [sparsity] happens once, and a
    length that was refused stays as it was. *)
Theorem run_masked_twice metric im1 im2 m1 m2 metric' im1' im2' m1' m2' (w : world) :
  let w1 := world_of (run_masked metric im1 im2 m1 m2 w) in
  this (world_of (run_masked metric' im1' im2' m1' m2' w1)) = this w1.
Proof.
  cbv zeta. rewrite !run_masked_this. destruct w as [l t].
  destruct (broadcast_levels_this l t) as (Heq & Hm & Hs & Hs').
  destruct (run_masked_frame metric im1 im2 m1 m2 (mkWorld l t)) as (Hsc & _).
  rewrite run_masked_this in Hsc. simpl in Hsc.
  set (l1 := this (world_of (broadcast_levels (mkWorld l t)))) in *.
  set (w1 := world_of (run_masked metric im1 im2 m1 m2 (mkWorld l t))).
  assert (Hw1 : this w1 = l1) by (subst w1 l1; apply run_masked_this).
  destruct w1 as [l1' t1]. simpl in Hw1. subst l1'.
  destruct (broadcast_levels_this l1 t1) as (Heq2 & Hm2 & Hs2 & Hs2').
  set (l2 := this (world_of (broadcast_levels (mkWorld l1 t1)))) in *.
  rewrite Hsc in Hm2, Hs2, Hs2'.
  assert (Hmax : max_iter l2 = max_iter l1).
  { rewrite Hm2, Hm. apply broadcast_to_idempotent. }
  assert (Hsp : sparsity l2 = sparsity l1).
  { destruct (Nat.eq_dec (length (max_iter l)) 1) as [H1|H1];
      [|destruct (Nat.eq_dec (length (max_iter l)) (length (scale_factor l)))
          as [Hn|Hn]].
    - rewrite Hs2, Hs by (rewrite ?Hm; auto using broadcast_to_length).
      apply broadcast_to_idempotent.
    - rewrite Hs2, Hs by (rewrite ?Hm; auto using broadcast_to_length).
      apply broadcast_to_idempotent.
    - apply Hs2'; rewrite Hm, broadcast_to_not_singleton by assumption; assumption. }
  rewrite Heq2, Hmax, Hsp. destruct l1; reflexivity.
Qed.

(** X7: the length of [max_iter] is checked first.  When it is neither 1 nor
    [scale_factor.size()] the run throws with the object untouched, whatever
    the length of [sparsity].  When [max_iter] has one element and the
    length of [sparsity] is refused, the run throws after [max_iter] has
    been overwritten by its broadcast: the object is not left as it was. *)
Theorem length_errors_in_order metric im1 im2 m1 m2 (l : Linear) (t : TransformType) :
  let n := length (scale_factor l) in
  let r := run_masked metric im1 im2 m1 m2 (mkWorld l t) in
  (length (max_iter l) <> 1 -> length (max_iter l) <> n ->
   r = ([], mkWorld l t, Thrown max_iter_error))
  /\ (forall v, max_iter l = [v] ->
      length (sparsity l) <> 1 -> length (sparsity l) <> n ->
      r = ([], mkWorld (with_max_iter (repeat v n) l) t, Thrown sparsity_error)).
Proof.
  cbv zeta. split.
  - intros H1 Hn. apply run_masked_invalid. now apply broadcast_levels_bad_max_iter.
  - intros v Hv H1 Hn. apply run_masked_invalid.
    rewrite broadcast_levels_bad_sparsity; try assumption.
    + rewrite Hv. reflexivity.
    + left. rewrite Hv. reflexivity.
Qed.

(** X8: every optimiser call of a run is built on the metric and the two
    masks the run was given, the kernel extent and the log stream of the
    object, its directions if and only if they have a column, the update
    functor of the transform as it is at that level, and the optimiser
    weights of the transform as initialised (they are read once, before the
    first level). *)
Theorem optimiser_call_context metric im1 im2 m1 m2 (w : world) :
  let tr := trace_of (run_masked metric im1 im2 m1 m2 w) in
  let l := this w in
  let t1 := transform (world_of (initialise im1 im2 w)) in
  forall c, In c (optim_calls tr) ->
    oc_metric c = metric
    /\ oc_im1_mask c = m1
    /\ oc_im2_mask c = m2
    /\ oc_extent c = kernel_extent l
    /\ (cols (directions l) = 0 -> oc_directions c = None)
    /\ (cols (directions l) <> 0 -> oc_directions c = Some (directions l))
    /\ oc_log_os c = log_stream l
    /\ oc_update_functor c = get_gradient_descent_updator (oc_transformation c)
    /\ oc_precondition c = get_optimiser_weights t1.
Proof.
  cbv zeta. intros c Hc.
  pose proof (run_masked_calls metric im1 im2 m1 m2 w c Hc) as Hf. simpl in Hf.
  destruct (run_masked_frame metric im1 im2 m1 m2 w)
    as (_ & _ & Hext & Hlog & _ & Hdir).
  rewrite Hext, Hlog, Hdir in Hf.
  destruct Hf as (H1 & H2 & H3 & H4 & H5 & H6 & H7 & H8 & _).
  repeat split; try assumption.
  - intros H0. rewrite H5. apply Nat.eqb_eq in H0. now rewrite H0.
  - intros H0. rewrite H5. apply Nat.eqb_neq in H0. now rewrite H0.
Qed.


Lemma level_body_sparsities metric im1 im2 m1 m2 wts mid level (w : world) :
  let b := level_body metric im1 im2 m1 m2 wts mid level w in
  this (world_of b) = this w
  /\ prefix (pick as_sparsity (trace_of b)) (nth_or_nothing (sparsity (this w)) level)
  /\ (outcome_of b = Returned tt ->
      pick as_sparsity (trace_of b) = nth_or_nothing (sparsity (this w)) level).
Proof.
  destruct w as [l t]. cbv zeta.
  unfold level_body, nth_or_nothing. unfold_monad. unfold_views. simpl.
  explode; prefix_cases.
Qed.

(** X10: the sparsities handed to the optimiser, level after level, are the
    elements of [sparsity] (as broadcast), in order: all of them when the
    run returns, the first ones when it stops early. *)
Theorem sparsity_per_level metric im1 im2 m1 m2 (w : world) :
  let r := run_masked metric im1 im2 m1 m2 w in
  prefix (map oc_sparsity (optim_calls (trace_of r))) (sparsity (this (world_of r)))
  /\ (outcome_of r = Returned tt ->
      map oc_sparsity (optim_calls (trace_of r)) = sparsity (this (world_of r))).
Proof.
  cbv zeta. set (r := run_masked metric im1 im2 m1 m2 w).
  pose proof (@run_masked_pick double as_sparsity
                (fun _ level => nth_or_nothing (sparsity (this (world_of r))) level)
                metric im1 im2 m1 m2 w) as H.
  cbv zeta in H. fold r in H.
  assert (Hpick : pick as_sparsity (trace_of r)
                  = map oc_sparsity (optim_calls (trace_of r)))
    by apply pick_map.
  destruct H as [[Htr Hout]|(_ & Hls & mid & Hpre & Hfull)]; try reflexivity.
  - intros wts mid level w' Hw'. rewrite <- Hw'. apply level_body_sparsities.
  - unfold optim_calls. rewrite Htr. split; [apply prefix_nil|contradiction].
  - rewrite <- Hls in Hpre, Hfull. unfold nth_or_nothing in Hpre, Hfull.
    rewrite flat_map_nth_error in Hpre, Hfull.
    rewrite <- Hpick. split; assumption.
Qed.

(** *** Messages, exceptions and the empty schedule *)

Lemma flat_map_constant (A B : Type) (x : list B) (l : list A) :
  flat_map (fun _ => x) l = concat (repeat x (length l)).
Proof. induction l as [|a l IH]; simpl; [reflexivity|]. now rewrite IH. Qed.

Lemma concat_repeat_singleton (A : Type) (x : A) (n : nat) :
  concat (repeat [x] n) = repeat x n.
Proof. induction n as [|n IH]; simpl; [reflexivity|]. now rewrite IH. Qed.

Lemma level_body_logs metric im1 im2 m1 m2 wts mid level (w : world) :
  let b := level_body metric im1 im2 m1 m2 wts mid level w in
  let full :=
    match log_stream (this w) with
    | Some s => [(s, two_newlines)]
    | None => []
    end in
  this (world_of b) = this w
  /\ prefix (pick as_log (trace_of b)) full
  /\ (outcome_of b = Returned tt -> pick as_log (trace_of b) = full)
  /\ (log_stream (this w) <> None ->
      length (pick as_log (trace_of b)) = length (commits (trace_of b))).
Proof.
  destruct w as [l t]. cbv zeta.
  unfold level_body. unfold_monad. unfold_views. simpl.
  explode; prefix_cases; try (intros H; now elim H).
Qed.

Lemma for_each_logs_commits metric im1 im2 m1 m2 wts mid levels (w : world) :
  log_stream (this w) <> None ->
  let lp := for_each levels (level_body metric im1 im2 m1 m2 wts mid) w in
  length (pick as_log (trace_of lp)) = length (commits (trace_of lp)).
Proof.
  cbv zeta. revert w. induction levels as [|level rest IH]; intros w Hlog; simpl;
    [reflexivity|].
  destruct (level_body_logs metric im1 im2 m1 m2 wts mid level w)
    as (Hk & _ & _ & Hlen).
  specialize (Hlen Hlog). unfold bind. unfold_views.
  destruct (level_body metric im1 im2 m1 m2 wts mid level w)
    as [[tr1 w1] [[]|e|]]; simpl in *; try assumption.
  rewrite <- Hk in Hlog. specialize (IH w1 Hlog). unfold_views.
  destruct (for_each rest _ w1) as [[tr2 w2] r]. simpl in *.
  unfold commits in *. rewrite !pick_app, !length_app. lia.
Qed.

(** X11: with no log stream set a run writes no log record.  With one set,
    a run that returns has written the record of two newlines to it once
    per level, and any run has written exactly as many records as it has
    committed parameter vectors. *)
Theorem log_records metric im1 im2 m1 m2 (w : world) :
  let r := run_masked metric im1 im2 m1 m2 w in
  let tr := trace_of r in
  let n := length (scale_factor (this w)) in
  (log_stream (this w) = None -> pick as_log tr = [])
  /\ (forall s, log_stream (this w) = Some s ->
        prefix (pick as_log tr) (repeat (s, two_newlines) n)
        /\ (outcome_of r = Returned tt -> pick as_log tr = repeat (s, two_newlines) n)
        /\ length (pick as_log tr) = length (commits tr)).
Proof.
  cbv zeta.
  destruct (run_masked_frame metric im1 im2 m1 m2 w) as (Hsc & _ & _ & Hlog & _).
  set (r := run_masked metric im1 im2 m1 m2 w) in *.
  set (l' := this (world_of r)) in *.
  pose proof (@run_masked_pick (streambuf * string) as_log
                (fun _ _ => match log_stream l' with
                            | Some s => [(s, two_newlines)]
                            | None => []
                            end)
                metric im1 im2 m1 m2 w) as H.
  cbv zeta in H. fold r in H. fold l' in H.
  specialize (H eq_refl eq_refl ltac:(reflexivity)
                ltac:(intros wts mid level w' Hw';
                      destruct (level_body_logs metric im1 im2 m1 m2 wts mid level w')
                        as (Hk & Hp & Hf & _);
                      rewrite Hw' in Hk, Hp, Hf; repeat split; assumption)).
  cbv beta in H. rewrite flat_map_constant, length_seq, Hsc, Hlog in H.
  split.
  - intros Hnone. rewrite Hnone in H.
    destruct H as [[Htr _]|(_ & _ & mid & [rest Hpre] & _)].
    + rewrite Htr. reflexivity.
    + assert (Hnil : concat (repeat (@nil (streambuf * string))
                               (length (scale_factor (this w)))) = []).
      { induction (length (scale_factor (this w))); simpl; auto. }
      rewrite Hnil in Hpre. symmetry in Hpre. apply app_eq_nil in Hpre. tauto.
  - intros s Hs. rewrite Hs in H. rewrite concat_repeat_singleton in H.
    assert (Hcount : length (pick as_log (trace_of r)) = length (commits (trace_of r))).
    { pose proof (initialise_quiet im1 im2 w) as Hq.
      destruct (quiet_pick Hq) as [_ Hic].
      assert (Hil : pick as_log (trace_of (initialise im1 im2 w)) = [])
        by (apply pick_initialise; reflexivity).
      destruct (run_masked_shape metric im1 im2 m1 m2 w)
        as [(Htr & _)|[(_ & Htr & _)|[(_ & _ & Htr & _)|
            (_ & _ & _ & h & Hh & Htr & _)]]]; cbv zeta in *; fold r in Htr;
        rewrite Htr; unfold commits in *; rewrite ?pick_app, ?pick_cons, ?Hil, ?Hic;
        try reflexivity.
      simpl. apply for_each_logs_commits. simpl. fold r. fold l'.
      rewrite Hlog, Hs. discriminate. }
    destruct H as [[Htr Hout]|(_ & _ & mid & Hpre & Hfull)].
    + rewrite Htr. split; [apply prefix_nil|]. split; [contradiction|reflexivity].
    + split; [exact Hpre|]. split; [exact Hfull|exact Hcount].
Qed.

Lemma flat_map_singleton_in (A B : Type) (f : A -> list B) (g : A -> B) (l : list A) :
  (forall x, In x l -> f x = [g x]) -> flat_map f l = map g l.
Proof.
  induction l as [|a l IH]; intros H; simpl; [reflexivity|].
  rewrite (H a) by (now left). simpl. f_equal. apply IH. intros x Hx. apply H.
  now right.
Qed.

Lemma level_body_console metric im1 im2 m1 m2 wts mid level (w : world) :
  let b := level_body metric im1 im2 m1 m2 wts mid level w in
  let full :=
    match nth_error (sparsity (this w)) level, nth_error (scale_factor (this w)) level with
    | Some sp, Some sc =>
        [MsgLevel (level + 1) sc (if double_lt (Finite 0.0) sp then Some sp else None)]
    | _, _ => []
    end in
  this (world_of b) = this w
  /\ prefix (pick as_console (trace_of b)) full
  /\ (outcome_of b = Returned tt -> pick as_console (trace_of b) = full).
Proof.
  destruct w as [l t]. cbv zeta.
  unfold level_body. unfold_monad. unfold_views. simpl.
  explode; prefix_cases.
Qed.

(** X12: the console messages of a run are one per level entered, in the
    order of the levels, numbered from 1, each with the scale factor of its
    level and with its sparsity only when that is above 0 (a NaN is not):
    all levels when the run returns, the first ones when it stops early. *)
Theorem console_messages metric im1 im2 m1 m2 (w : world) :
  let r := run_masked metric im1 im2 m1 m2 w in
  let l' := this (world_of r) in
  let messages := map (level_message l') (seq 0 (length (scale_factor l'))) in
  prefix (pick as_console (trace_of r)) messages
  /\ (outcome_of r = Returned tt -> pick as_console (trace_of r) = messages)
  /\ (forall sp, double_lt (Finite 0.0) sp = true <->
        sp = PlusInfinity \/ exists q, sp = Finite q /\ (0 < q)%Q).
Proof.
  cbv zeta. set (r := run_masked metric im1 im2 m1 m2 w).
  set (l' := this (world_of r)).
  assert (Hshow : forall sp, double_lt (Finite 0.0) sp = true <->
                    sp = PlusInfinity \/ exists q, sp = Finite q /\ (0 < q)%Q).
  { intros [q| | |]; simpl.
    - rewrite Qlt_bool_iff.
      assert (H0 : (0.0 < q <-> 0 < q)%Q) by (unfold Qlt; simpl; lia).
      rewrite H0. split.
      + intros H. right. exists q. auto.
      + intros [H|(q' & H & Hq)]; [discriminate|]. injection H as <-. exact Hq.
    - split; [intros _; now left|reflexivity].
    - split; [discriminate|]. intros [H|(q' & H & _)]; discriminate.
    - split; [discriminate|]. intros [H|(q' & H & _)]; discriminate. }
  pose proof (@run_masked_pick message as_console
                (fun _ level =>
                   match nth_error (sparsity l') level,
                         nth_error (scale_factor l') level with
                   | Some sp, Some sc =>
                       [MsgLevel (level + 1) sc
                          (if double_lt (Finite 0.0) sp then Some sp else None)]
                   | _, _ => []
                   end)
                metric im1 im2 m1 m2 w) as H.
  cbv zeta in H. fold r in H. fold l' in H.
  specialize (H eq_refl eq_refl ltac:(reflexivity)
                ltac:(intros wts mid level w' Hw'; rewrite <- Hw';
                      apply level_body_console)).
  destruct H as [[Htr Hout]|(_ & Hls & mid & Hpre & Hfull)].
  - rewrite Htr. split; [apply prefix_nil|]. split; [contradiction|exact Hshow].
  - rewrite (@flat_map_singleton_in _ _ _ (level_message l')) in Hpre, Hfull;
      try (split; [exact Hpre|split; [exact Hfull|exact Hshow]]).
    all: intros level Hin; apply in_seq in Hin; unfold level_message;
      rewrite (nth_error_nth' (sparsity l') (Finite 0)) by lia;
      rewrite (nth_error_nth' (scale_factor l') (Finite 0)) by lia; reflexivity.
Qed.







(** X14: with an empty [scale_factor] (which [set_scale_factor] accepts) a
    run has no level: no filter is run, the optimiser is not called and
    nothing is committed.  If it returns, it has only initialised the
    transform and requested the midway header, and it has emptied
    [max_iter] and [sparsity], whatever single value they held. *)
Theorem empty_schedule metric im1 im2 m1 m2 (w : world) :
  scale_factor (this w) = [] ->
  let r := run_masked metric im1 im2 m1 m2 w in
  let t1 := transform (world_of (initialise im1 im2 w)) in
  optim_calls (trace_of r) = []
  /\ commits (trace_of r) = []
  /\ pick as_filter (trace_of r) = []
  /\ (outcome_of r = Returned tt ->
      trace_of r = trace_of (initialise im1 im2 w) ++ [average_header_event im1 im2 t1]
      /\ transform (world_of r) = t1
      /\ max_iter (this (world_of r)) = []
      /\ sparsity (this (world_of r)) = []).
Proof.
  intros Hempty. cbv zeta.
  destruct (run_masked_frame metric im1 im2 m1 m2 w) as (Hsc & _).
  rewrite Hempty in Hsc.
  pose proof (initialise_quiet im1 im2 w) as Hq.
  destruct (quiet_pick Hq) as [Hio Hic].
  assert (Hif : pick as_filter (trace_of (initialise im1 im2 w)) = [])
    by (apply pick_initialise; reflexivity).
  destruct (run_masked_shape metric im1 im2 m1 m2 w)
    as [(Htr & Ho & _)|[(_ & Htr & Ho & _)|[(_ & _ & Htr & Ho & _)|
        (_ & Hlm & Hls & h & Hh & Htr & Hw & Hout)]]]; cbv zeta in *.
  - rewrite Htr. repeat split; try reflexivity; contradiction.
  - rewrite Htr. repeat split; try assumption; contradiction.
  - rewrite Htr. unfold optim_calls, commits in *.
    rewrite !pick_app, Hio, Hic, Hif. repeat split; try reflexivity; contradiction.
  - rewrite Hsc in *. simpl in Htr, Hw, Hlm, Hls.
    apply length_zero_iff_nil in Hlm, Hls.
    rewrite Htr, Hw. unfold optim_calls, commits in *.
    rewrite !pick_app, Hio, Hic, Hif. repeat split; try reflexivity; assumption.
Qed.

(** *** The choice of the initialiser *)




End DriverFacts.

(** ** Facts about the outer loop of [mt_lognorm.cpp] *)

Section MtLognormFacts.

Import MtLognorm.

Variable State : Type.
Variable solve_scale_factors : State -> State.
Variable change_is_small : State -> bool.
Variable reject_outliers : State -> State.
Variable store_scale_factors : State -> State.
Variable fit_bias_field : State -> State.

#[local] Set Warnings "-notation-for-abbreviation".

Local Notation norm_loop :=
  (norm_loop solve_scale_factors change_is_small reject_outliers store_scale_factors).
Local Notation outer_loop :=
  (outer_loop solve_scale_factors change_is_small reject_outliers store_scale_factors
     fit_bias_field).
Local Notation estimate :=
  (estimate solve_scale_factors change_is_small reject_outliers store_scale_factors
     fit_bias_field).

Local Open Scope Z_scope.

Lemma to_size_t_range (x : Z) : 0 <= to_size_t x < 2 ^ 64.
Proof. unfold to_size_t. apply Z.mod_pos_bound. reflexivity. Qed.

Lemma size_t_succ_below (x bound : Z) :
  0 <= x -> x < bound -> bound < 2 ^ 64 -> size_t_succ x = x + 1.
Proof.
  intros H0 Hx Hb. unfold size_t_succ, to_size_t. apply Z.mod_small. lia.
Qed.

Lemma norm_loop_terminates (fuel : nat) (max_iter iter norm_iter : Z) (c : bool)
    (s : State) :
  0 <= norm_iter -> max_iter < 2 ^ 64 ->
  (Z.to_nat (max_iter - norm_iter) <= fuel)%nat ->
  exists s', norm_loop fuel max_iter iter norm_iter c s = Some s'.
Proof.
  revert norm_iter c s. induction fuel as [|fuel IH]; intros norm_iter c s H0 Hmax Hfuel;
    simpl.
  - destruct (negb c && (norm_iter <? max_iter)) eqn:Hcond; [|now exists s].
    apply andb_prop in Hcond. destruct Hcond as [_ Hlt]. apply Z.ltb_lt in Hlt. lia.
  - destruct (negb c && (norm_iter <? max_iter)) eqn:Hcond; [|now exists s].
    apply andb_prop in Hcond. destruct Hcond as [_ Hlt]. apply Z.ltb_lt in Hlt.
    unfold norm_pass.
    rewrite (size_t_succ_below H0 Hlt Hmax). apply IH; lia.
Qed.

Lemma outer_loop_runs (fuel inner_fuel : nat) (max_iter iter : Z) (s : State) :
  1 <= iter -> max_iter < 2 ^ 64 ->
  (Z.to_nat (max_iter - iter) <= fuel)%nat ->
  (Z.to_nat max_iter <= inner_fuel)%nat ->
  exists s',
    outer_loop fuel inner_fuel max_iter iter s =
      Some (map Z.of_nat (seq (Z.to_nat iter) (Z.to_nat (max_iter - iter))), s')
    /\ (max_iter <= iter -> s' = s).
Proof.
  revert iter s. induction fuel as [|fuel IH]; intros iter s H1 Hmax Hfuel Hinner; simpl.
  - destruct (iter <? max_iter) eqn:Hlt.
    + apply Z.ltb_lt in Hlt. lia.
    + apply Z.ltb_ge in Hlt. replace (Z.to_nat (max_iter - iter)) with 0%nat by lia.
      exists s. split; [reflexivity|trivial].
  - destruct (iter <? max_iter) eqn:Hlt.
    + apply Z.ltb_lt in Hlt.
      destruct (@norm_loop_terminates inner_fuel max_iter iter 1 false s) as [s1 Hn];
        try lia.
      rewrite Hn. rewrite (@size_t_succ_below iter max_iter) by lia.
      destruct (IH (iter + 1) (fit_bias_field s1)) as [s' [Ho _]]; try lia.
      rewrite Ho. exists s'. split; [|lia].
      replace (Z.to_nat (max_iter - iter)) with (S (Z.to_nat (max_iter - (iter + 1))))
        by lia.
      simpl. rewrite Z2Nat.id by lia.
      replace (S (Z.to_nat iter)) with (Z.to_nat (iter + 1)) by lia. reflexivity.
    + apply Z.ltb_ge in Hlt. replace (Z.to_nat (max_iter - iter)) with 0%nat by lia.
      exists s. split; [reflexivity|trivial].
Qed.

(** C10: the counter of the outer loop starts at 1 and the loop runs while
    [iter < max_iter]: given enough fuel the loop ends, having run for
    [iter = 1, ..., max_iter - 1], that is [max_iter - 1] times (never more),
    and not at all when [max_iter] is 0 or 1, as it is for [-maxiter 0] and
    [-maxiter 1]. *)
Theorem outer_loop_bound (maxiter : option Z) (fuel inner_fuel : nat) (s : State) :
  let max_iter := max_iter_of maxiter in
  (Z.to_nat max_iter <= fuel)%nat ->
  (Z.to_nat max_iter <= inner_fuel)%nat ->
  exists reported s',
    estimate maxiter fuel inner_fuel s = Some (reported, s')
    /\ reported = map Z.of_nat (seq 1 (Z.to_nat (max_iter - 1)))
    /\ Z.of_nat (length reported) = Z.max 0 (max_iter - 1)
    /\ Z.of_nat (length reported) <= Z.max 0 (max_iter - 1)
    /\ (max_iter <= 1 -> reported = [] /\ s' = s)
    /\ (maxiter = Some 0 \/ maxiter = Some 1 -> reported = [] /\ s' = s).
Proof.
  intros max_iter Hfuel Hinner.
  pose proof (to_size_t_range
                (match maxiter with Some v => v | None => DEFAULT_MAXITER_VALUE end))
    as Hrange.
  fold (max_iter_of maxiter) in Hrange. fold max_iter in Hrange.
  destruct (@outer_loop_runs fuel inner_fuel max_iter 1 s) as [s' [Hrun Hsame]];
    try lia.
  exists (map Z.of_nat (seq 1 (Z.to_nat (max_iter - 1)))), s'.
  assert (Hnone : max_iter <= 1 ->
                  map Z.of_nat (seq 1 (Z.to_nat (max_iter - 1))) = [] /\ s' = s).
  { intros Hle. replace (Z.to_nat (max_iter - 1)) with 0%nat by lia.
    split; [reflexivity|auto]. }
  split; [exact Hrun|]. split; [reflexivity|].
  rewrite length_map, length_seq.
  split; [lia|]. split; [lia|]. split; [exact Hnone|].
  intros [Hm|Hm]; apply Hnone; subst max_iter; rewrite Hm; vm_compute; discriminate.
Qed.

Local Notation one_pass :=
  (fun s : State => store_scale_factors (reject_outliers (solve_scale_factors s))).

Lemma iter_one_pass (k : nat) (s : State) :
  Nat.iter k one_pass (one_pass s) = one_pass (Nat.iter k one_pass s).
Proof. rewrite <- Nat.iter_succ_r. reflexivity. Qed.

Lemma norm_loop_unconverged (fuel : nat) (max_iter iter norm_iter : Z) (s : State) :
  0 <= norm_iter -> max_iter < 2 ^ 64 ->
  (Z.to_nat (max_iter - norm_iter) <= fuel)%nat ->
  (forall j, (j < Z.to_nat (max_iter - norm_iter))%nat ->
     (1 <? iter) && change_is_small (solve_scale_factors (Nat.iter j one_pass s)) = false) ->
  norm_loop fuel max_iter iter norm_iter false s =
    Some (Nat.iter (Z.to_nat (max_iter - norm_iter)) one_pass s).
Proof.
  revert norm_iter s. induction fuel as [|fuel IH]; intros norm_iter s H0 Hmax Hfuel Hno;
    simpl.
  - destruct (norm_iter <? max_iter) eqn:Hlt.
    + apply Z.ltb_lt in Hlt. lia.
    + apply Z.ltb_ge in Hlt. replace (Z.to_nat (max_iter - norm_iter)) with 0%nat by lia.
      reflexivity.
  - destruct (norm_iter <? max_iter) eqn:Hlt.
    + apply Z.ltb_lt in Hlt. unfold norm_pass.
      assert (Hfirst : (if 1 <? iter then change_is_small (solve_scale_factors s)
                        else false) = false).
      { specialize (Hno 0%nat ltac:(lia)). simpl in Hno.
        destruct (1 <? iter); [exact Hno|reflexivity]. }
      rewrite Hfirst. rewrite (size_t_succ_below H0 Hlt Hmax).
      rewrite IH; try lia.
      * replace (Z.to_nat (max_iter - norm_iter))
          with (S (Z.to_nat (max_iter - (norm_iter + 1)))) by lia.
        rewrite Nat.iter_succ_r. reflexivity.
      * intros j Hj. specialize (Hno (S j) ltac:(lia)).
        rewrite Nat.iter_succ_r in Hno. exact Hno.
    + apply Z.ltb_ge in Hlt. replace (Z.to_nat (max_iter - norm_iter)) with 0%nat by lia.
      reflexivity.
Qed.

(** X15: in the first outer pass ([iter = 1]) the convergence of the scale
    factors is not tested: given enough fuel, the inner loop makes
    [max_iter - 1] passes, each one solving, rejecting outliers and storing
    the scale factors, whatever the change between passes. *)
Theorem first_pass_never_converges (fuel : nat) (max_iter : Z) (s : State) :
  max_iter < 2 ^ 64 ->
  (Z.to_nat (max_iter - 1) <= fuel)%nat ->
  norm_loop fuel max_iter 1 1 false s =
    Some (Nat.iter (Z.to_nat (max_iter - 1)) one_pass s).
Proof.
  intros Hmax Hfuel. apply norm_loop_unconverged; try lia.
Qed.

Lemma norm_loop_converges_after (k fuel : nat) (max_iter iter norm_iter : Z) (s : State) :
  1 < iter -> 0 <= norm_iter -> max_iter < 2 ^ 64 ->
  norm_iter + Z.of_nat k < max_iter ->
  (k < fuel)%nat ->
  (forall j, (j < k)%nat ->
     change_is_small (solve_scale_factors (Nat.iter j one_pass s)) = false) ->
  change_is_small (solve_scale_factors (Nat.iter k one_pass s)) = true ->
  norm_loop fuel max_iter iter norm_iter false s =
    Some (store_scale_factors (solve_scale_factors (Nat.iter k one_pass s))).
Proof.
  intros Hiter. apply Z.ltb_lt in Hiter.
  revert fuel norm_iter s. induction k as [|k IH];
    intros fuel norm_iter s H0 Hmax Hlt Hfuel Hno Hyes;
    (destruct fuel as [|fuel]; [lia|]); simpl.
  - assert (Hcond : (norm_iter <? max_iter) = true) by (apply Z.ltb_lt; lia).
    rewrite Hcond. unfold norm_pass. rewrite Hiter. simpl in Hyes. rewrite Hyes.
    destruct fuel; reflexivity.
  - assert (Hcond : (norm_iter <? max_iter) = true) by (apply Z.ltb_lt; lia).
    rewrite Hcond. unfold norm_pass. rewrite Hiter.
    pose proof (Hno 0%nat ltac:(lia)) as Hfirst. simpl in Hfirst. rewrite Hfirst.
    rewrite (@size_t_succ_below norm_iter max_iter) by lia.
    rewrite (IH fuel (norm_iter + 1) (one_pass s)); try lia.
    + pose proof (iter_one_pass k s) as E. cbv beta in E. rewrite E. reflexivity.
    + intros j Hj. specialize (Hno (S j) ltac:(lia)).
      pose proof (iter_one_pass j s) as E. cbv beta in E. rewrite E. exact Hno.
    + pose proof (iter_one_pass k s) as E. cbv beta in E. rewrite E. exact Hyes.
Qed.

(** X16: from the second outer pass on, the inner loop stops at the first
    pass that finds the change of the scale factors small; that pass stores
    the scale factors it solved and skips the outlier rejection, and the
    passes before it each rejected outliers. *)
Theorem norm_loop_stops_when_converged (k fuel : nat) (max_iter iter : Z) (s : State) :
  1 < iter -> max_iter < 2 ^ 64 ->
  1 + Z.of_nat k < max_iter ->
  (k < fuel)%nat ->
  (forall j, (j < k)%nat ->
     change_is_small (solve_scale_factors (Nat.iter j one_pass s)) = false) ->
  change_is_small (solve_scale_factors (Nat.iter k one_pass s)) = true ->
  norm_loop fuel max_iter iter 1 false s =
    Some (store_scale_factors (solve_scale_factors (Nat.iter k one_pass s))).
Proof.
  intros. apply norm_loop_converges_after; try assumption. lia.
Qed.

End MtLognormFacts.

(** ** Facts about the set-up of [mt_lognorm.cpp] *)

Section MtLognormSetupFacts.

Import MtLognormSetup.

Lemma pair_induction (A : Type) (P : list A -> Prop) :
  P [] -> (forall a, P [a]) -> (forall a b l, P l -> P (a :: b :: l)) ->
  forall l, P l.
Proof.
  intros H0 H1 H2. fix IH 1.
  intros [|a [|b l]]; [exact H0|apply H1|apply H2, IH].
Qed.

(** X17: for every position, the 20 entries of [basis_function] are the
    monomials in x, y and z of total degree at most 3, each of them once: a
    full cubic polynomial basis with [n_basis_vecs] terms. *)
Theorem basis_function_cubic (x y z : Q) :
  Forall2 Qeq (basis_function x y z) (map (monomial x y z) basis_exponents)
  /\ length (basis_function x y z) = n_basis_vecs
  /\ NoDup basis_exponents
  /\ (forall a b c, In (a, b, c) basis_exponents <-> a + b + c <= 3).
Proof.
  split; [|split; [reflexivity|split]].
  - unfold basis_function, basis_exponents, monomial. simpl.
    repeat constructor; ring.
  - unfold basis_exponents.
    repeat (constructor; [simpl; intuition discriminate|]). constructor.
  - intros a b c. split.
    + unfold basis_exponents. simpl. intros H.
      repeat (destruct H as [H|H]; [injection H as <- <- <-; lia|]). contradiction.
    + intros H.
      destruct a as [|[|[|[|a]]]]; destruct b as [|[|[|[|b]]]];
        destruct c as [|[|[|[|c]]]]; try lia;
        unfold basis_exponents; simpl;
        repeat (first [left; reflexivity|right]).
Qed.

Variable Image : Type.
Variable Header : Type.
Variable open_image : string -> Exception + Image.
Variable check_dimensions : Image -> Image -> Exception + unit.
Variable path_exists : string -> bool.
Variable overwrite_files : bool.
Variable open_header : string -> Exception + Header.

#[local] Set Warnings "-notation-for-abbreviation".

Local Notation open_pairs :=
  (open_pairs open_image check_dimensions path_exists overwrite_files open_header).
Local Notation open_inputs :=
  (open_inputs open_image check_dimensions path_exists overwrite_files open_header).
Local Notation pairs_opened :=
  (pairs_opened open_image check_dimensions path_exists overwrite_files open_header).

Lemma mod2_even (n : nat) : Nat.eqb (n mod 2) 0 = Nat.even n.
Proof.
  pose proof (Nat.div_mod_eq n 2) as Hd.
  pose proof (Nat.mod_upper_bound n 2 ltac:(lia)) as Hb.
  destruct (Nat.even n) eqn:He.
  - apply Nat.even_spec in He. destruct He as [k Hk]. apply Nat.eqb_eq. lia.
  - apply Nat.eqb_neq. intros Hm.
    assert (Nat.even n = true) by (apply Nat.even_spec; exists (n / 2); lia).
    congruence.
Qed.

Lemma open_pairs_returned (argument : list string) :
  forall acc acc',
    open_pairs argument acc = Returned acc' ->
    Nat.even (length argument) = true
    /\ pairs_opened acc (pair_up argument) acc'.
Proof.
  induction argument as [|input|input output rest IH] using pair_induction;
    intros acc acc' H; simpl in *.
  - injection H as <-. split; reflexivity.
  - destruct (open_image input); [discriminate|].
    destruct (match input_images acc with [] => _ | _ => _ end); discriminate.
  - destruct (open_image input) as [e|im] eqn:Him; [discriminate|].
    destruct (match input_images acc with
              | [] => inr tt
              | first :: _ => check_dimensions first im
              end) as [e|[]] eqn:Hdim; [discriminate|].
    destruct (path_exists output && negb overwrite_files) eqn:Hex; [discriminate|].
    destruct (open_header input) as [e|h] eqn:Hh; [discriminate|].
    destruct (IH _ _ H) as [Heven Hrest].
    split; [exact Heven|].
    eexists. split; [|exact Hrest].
    exists im, h. simpl. repeat split; try assumption.
    + apply andb_false_iff in Hex. destruct Hex as [Hex|Hex]; [now left|].
      right. now apply negb_false_iff in Hex.
    + destruct (input_images acc); [exact I|exact Hdim].
Qed.

Lemma pairs_opened_lengths (ps : list (string * string)) :
  forall acc acc',
    pairs_opened acc ps acc' ->
    length (input_images acc') = length (input_images acc) + length ps
    /\ length (output_headers acc') = length (output_headers acc) + length ps
    /\ output_filenames acc' = output_filenames acc ++ map snd ps.
Proof.
  induction ps as [|p ps IH]; intros acc acc' H; simpl in *.
  - subst. rewrite app_nil_r. repeat split; lia.
  - destruct H as (mid & (im & h & _ & _ & _ & _ & ->) & Hrest).
    destruct (IH _ _ Hrest) as (H1 & H2 & H3). simpl in *.
    rewrite !length_app in *. simpl in *. rewrite <- app_assoc in H3. simpl in H3.
    repeat split; try lia. exact H3.
Qed.

Lemma pair_up_even (A : Type) (l : list A) :
  Nat.even (length l) = true ->
  flat_map (fun p => [fst p; snd p]) (pair_up l) = l
  /\ 2 * length (pair_up l) = length l.
Proof.
  induction l as [|a|a b rest IH] using pair_induction; intros H; simpl in *.
  - split; reflexivity.
  - discriminate.
  - destruct (IH H) as [Hf Hl]. rewrite Hf. split; [reflexivity|lia].
Qed.

(** X18: when the arguments are accepted, they were an even number, four at
    least; the arguments at even positions were each opened as an input
    image and as an output header, those at odd positions are the output
    file names, in the same order, one per input; no output file existed
    unless overwriting was allowed; and every image after the first passed
    the dimension check against the first. *)
Theorem open_inputs_returned (argument : list string) (r : inputs Image Header) :
  open_inputs argument = Returned r ->
  4 <= length argument
  /\ flat_map (fun p => [fst p; snd p]) (pair_up argument) = argument
  /\ pairs_opened (mkInputs [] [] []) (pair_up argument) r
  /\ output_filenames r = map snd (pair_up argument)
  /\ 2 * length (input_images r) = length argument
  /\ 2 * length (output_headers r) = length argument
  /\ 2 <= length (input_images r).
Proof.
  unfold MtLognormSetup.open_inputs. rewrite mod2_even.
  destruct (Nat.even (length argument)) eqn:Hmod; [|discriminate].
  destruct (Nat.ltb (length argument) 4) eqn:Hlt; [discriminate|].
  apply Nat.ltb_ge in Hlt. intros H.
  destruct (open_pairs_returned _ _ H) as [Heven Hpairs].
  destruct (pair_up_even _ Heven) as [Hflat Hlen].
  destruct (pairs_opened_lengths _ _ _ Hpairs) as (H1 & H2 & H3). simpl in *.
  repeat split; try assumption; lia.
Qed.

Lemma open_pairs_defined (argument : list string) :
  forall acc,
    Nat.even (length argument) = true ->
    open_pairs argument acc <> Undefined.
Proof.
  induction argument as [|input|input output rest IH] using pair_induction;
    intros acc H; simpl in *.
  - discriminate.
  - discriminate.
  - destruct (open_image input) as [e|im]; [discriminate|].
    destruct (match input_images acc with
              | [] => inr tt
              | first :: _ => check_dimensions first im
              end) as [e|[]]; [discriminate|].
    destruct (path_exists output && negb overwrite_files); [discriminate|].
    destruct (open_header input) as [e|h]; [discriminate|].
    apply IH. exact H.
Qed.

(** X19: an odd number of arguments is refused with the message about an
    even number, whatever the number; zero or two arguments are refused with
    the message about two tissue types; and in no case is an argument read
    past the end of the list. *)
Theorem open_inputs_counts (argument : list string) :
  (Nat.odd (length argument) = true -> open_inputs argument = Thrown odd_error)
  /\ (length argument = 0 \/ length argument = 2 ->
      open_inputs argument = Thrown too_few_error)
  /\ open_inputs argument <> Undefined.
Proof.
  unfold MtLognormSetup.open_inputs. rewrite mod2_even.
  split; [|split].
  - intros Hodd. rewrite <- Nat.negb_even in Hodd. apply negb_true_iff in Hodd.
    rewrite Hodd. reflexivity.
  - intros [H|H]; rewrite H; reflexivity.
  - destruct (Nat.even (length argument)) eqn:Heven; [|discriminate].
    destruct (Nat.ltb (length argument) 4); [discriminate|].
    apply open_pairs_defined. exact Heven.
Qed.

Lemma open_pairs_app (pre : list string) :
  forall rest acc acc',
    open_pairs pre acc = Returned acc' ->
    open_pairs (pre ++ rest) acc = open_pairs rest acc'.
Proof.
  induction pre as [|input|input output pre' IH] using pair_induction;
    intros rest acc acc' H; simpl in *.
  - injection H as <-. reflexivity.
  - destruct (open_image input); [discriminate|].
    destruct (match input_images acc with [] => _ | _ => _ end); discriminate.
  - destruct (open_image input) as [e|im]; [discriminate|].
    destruct (match input_images acc with
              | [] => inr tt
              | first :: _ => check_dimensions first im
              end) as [e|[]]; [discriminate|].
    destruct (path_exists output && negb overwrite_files); [discriminate|].
    destruct (open_header input) as [e|h]; [discriminate|].
    apply IH. exact H.
Qed.

(** X20: when the pairs before it are opened without an exception, a pair
    whose input image opens and passes the dimension check, but whose
    output file exists while overwriting is not allowed, stops the command
    with the exception of line 158, and the file name quoted in its text is
    that of the input image of the pair, not of the output file that
    exists. *)
Theorem existing_output_names_input (pre post : list string) (input output : string)
    (acc : inputs Image Header) (im : Image) :
  4 <= length (pre ++ input :: output :: post) ->
  Nat.even (length post) = true ->
  open_pairs pre (mkInputs [] [] []) = Returned acc ->
  open_image input = inr im ->
  match input_images acc with
  | [] => True
  | first :: _ => check_dimensions first im = inr tt
  end ->
  path_exists output = true ->
  overwrite_files = false ->
  open_inputs (pre ++ input :: output :: post) =
    Thrown (mkException
              ("output file " ++ double_quote ++ input ++ double_quote
               ++ " already exists (use -force option to force overwrite)")).
Proof.
  intros Hlen Hpost Hpre Him Hdim Hex Hover.
  destruct (open_pairs_returned _ _ Hpre) as [Heven _].
  unfold MtLognormSetup.open_inputs. rewrite mod2_even.
  assert (Hmod : Nat.even (length (pre ++ input :: output :: post)) = true).
  { rewrite length_app. simpl.
    apply Nat.even_spec in Heven, Hpost. apply Nat.even_spec.
    destruct Heven as [a Ha]. destruct Hpost as [b Hb].
    exists (a + b + 1). lia. }
  rewrite Hmod.
  assert (Hlt : Nat.ltb (length (pre ++ input :: output :: post)) 4 = false)
    by (apply Nat.ltb_ge; exact Hlen).
  rewrite Hlt. erewrite open_pairs_app by exact Hpre. simpl.
  rewrite Him.
  assert (Hd : match input_images acc with
               | [] => inr tt
               | first :: _ => check_dimensions first im
               end = inr tt).
  { destruct (input_images acc); [reflexivity|exact Hdim]. }
  rewrite Hd, Hex, Hover. reflexivity.
Qed.

End MtLognormSetupFacts.

(** ** Facts about the outlier rejection of [mt_lognorm.cpp] *)

Section MtLognormOutlierFacts.

Import MtLognormOutliers.

Variable float : Type.
Variable isfinite : float -> bool.
Variable flt : float -> float -> bool.
Variable zero : float.
Variable sort : list float -> list float.
Variable lower_outlier_threshold upper_outlier_threshold : float -> float -> float.

#[local] Set Warnings "-notation-for-abbreviation".
Local Notation refine_mask := (refine_mask isfinite flt zero).
Local Notation reject := (reject flt).
Local Notation reject_outliers :=
  (reject_outliers isfinite flt zero sort lower_outlier_threshold
     upper_outlier_threshold).






Lemma to_size_t_small (x : Z) : (0 <= x < 2 ^ 64)%Z -> MtLognorm.to_size_t x = x.
Proof.
  intros H. unfold MtLognorm.to_size_t. now apply Z.mod_small.
Qed.





Lemma div4_bounds (a : Z) : (4 * (a / 4) <= a < 4 * (a / 4) + 4)%Z.
Proof.
  pose proof (Z.mul_div_le a 4 ltac:(lia)).
  pose proof (Z.mul_succ_div_gt a 4 ltac:(lia)). lia.
Qed.

Lemma quartile_index_lower (n : Z) :
  (0 <= n)%Z -> quartile_index n 0.25 = ((n + 2) / 4)%Z.
Proof.
  intros Hn. unfold quartile_index, std_round.
  assert (Hpos : Qlt_bool (inject_Z n * 0.25) 0 = false).
  { apply Qlt_bool_false_iff. unfold Qle, Qmult, inject_Z. simpl. lia. }
  rewrite Hpos.
  assert (E : (inject_Z n * 0.25 + (1 # 2) == (n + 2) # 4)%Q).
  { unfold Qeq, Qplus, Qmult, inject_Z. simpl. lia. }
  rewrite E. reflexivity.
Qed.

Lemma quartile_index_upper (n : Z) :
  (0 <= n)%Z -> quartile_index n 0.75 = ((3 * n + 2) / 4)%Z.
Proof.
  intros Hn. unfold quartile_index, std_round.
  assert (Hpos : Qlt_bool (inject_Z n * 0.75) 0 = false).
  { apply Qlt_bool_false_iff. unfold Qle, Qmult, inject_Z. simpl. lia. }
  rewrite Hpos.
  assert (E : (inject_Z n * 0.75 + (1 # 2) == (n * 3 + 2) # 4)%Q).
  { unfold Qeq, Qplus, Qmult, inject_Z. simpl. lia. }
  rewrite E. rewrite (Z.mul_comm 3 n). reflexivity.
Qed.

(** X24: the two quartiles are read at the indices [round (n / 4)] and
    [round (3 n / 4)] of the sorted values of the [n] voxels of the refined
    mask.  Up to [2^24] voxels, both indices are inside the vector exactly
    when [n] is at least 3: with 0, 1 or 2 voxels left the upper quartile
    (with none, the lower one too) is read past the end of the vector.
    Nothing in these lines throws. *)
Theorem quartile_lookup_range (summed_log : list float) (initial_mask mask : list bool) :
  (forall l, length (sort l) = length l) ->
  let n := length (masked_values (refine_mask summed_log initial_mask mask) summed_log) in
  (Z.of_nat n <= 2 ^ 24)%Z ->
  (reject_outliers summed_log initial_mask mask = Undefined <-> n < 3)
  /\ (forall e, reject_outliers summed_log initial_mask mask <> Thrown e).
Proof.
  intros Hsort n Hn. subst n.
  unfold MtLognormOutliers.reject_outliers.
  set (values := masked_values _ summed_log) in *.
  assert (H24 : (2 ^ 24 < 2 ^ 64)%Z) by reflexivity.
  rewrite to_size_t_small by lia.
  rewrite quartile_index_lower, quartile_index_upper by lia.
  pose proof (div4_bounds (Z.of_nat (length values) + 2)) as Hlo.
  pose proof (div4_bounds (3 * Z.of_nat (length values) + 2)) as Hup.
  unfold vector_at.
  destruct (Z.ltb_spec ((Z.of_nat (length values) + 2) / 4) 0) as [H|_]; [lia|].
  destruct (Z.ltb_spec ((3 * Z.of_nat (length values) + 2) / 4) 0) as [H|_]; [lia|].
  destruct (nth_error (sort values) (Z.to_nat ((Z.of_nat (length values) + 2) / 4)))
    as [lq|] eqn:Hlq.
  - destruct (nth_error (sort values)
                (Z.to_nat ((3 * Z.of_nat (length values) + 2) / 4))) as [uq|] eqn:Huq.
    + assert (Hin : Z.to_nat ((3 * Z.of_nat (length values) + 2) / 4)
                    < length (sort values)) by (apply nth_error_Some; congruence).
      rewrite Hsort in Hin.
      split; [split; [discriminate|intros; exfalso; lia]|discriminate].
    + apply nth_error_None in Huq. rewrite Hsort in Huq.
      split; [split; [intros _; lia|reflexivity]|discriminate].
  - apply nth_error_None in Hlq. rewrite Hsort in Hlq.
    split; [split; [intros _; lia|reflexivity]|discriminate].
Qed.




End MtLognormOutlierFacts.

(** ** Concrete runs *)

Section SyntheticRuns.

Import Synthetic.

Local Open Scope Q_scope.


Lemma synthetic_run_returns : outcome_of synthetic_run = Returned tt.
Proof. vm_compute. reflexivity. Defined.

Lemma synthetic_run_geometric_returns :
  outcome_of synthetic_run_geometric = Returned tt.
Proof. vm_compute. reflexivity. Defined.

Lemma synthetic_commits :
  commits (trace_of synthetic_run_geometric) = [2; 3].
Proof. vm_compute. reflexivity. Qed.

(** Other values in [grad_tolerance] and [step_tolerance]: same events, and
    both optimiser calls get the 300 iterations of [max_iter]. *)
Lemma tolerances_not_used_witness :
  outcome_of synthetic_run = Returned tt
  /\ trace_of (run_masked tt im1 im2 None None
                 (mkWorld (with_step_tolerance (Finite (1 # 2))
                             (fst (set_grad_tolerance (Finite (1 # 3)) Linear_new))) 0))
     = trace_of synthetic_run
  /\ map oc_max_iterations (optim_calls (trace_of synthetic_run))
     = max_iter (this (world_of synthetic_run)).
Proof.
  pose proof (tolerances_not_used tt im1 im2 None None Linear_new 0 (Finite (1 # 3))
                (Finite (1 # 2)))
    as H.
  cbv zeta in H. destruct H as (Htr & _ & _ & _ & _ & Hfull).
  split; [exact synthetic_run_returns|].
  split; [exact Htr|].
  exact (Hfull synthetic_run_returns).
Defined.


Lemma one_commit_per_level_witness :
  outcome_of synthetic_run_geometric = Returned tt
  /\ length (commits (trace_of synthetic_run_geometric))
     = length (scale_factor (this (world_of synthetic_run_geometric)))
  /\ level_chain (transform (world_of (initialise im1 im2 start_geometric)))
       (trace_of synthetic_run_geometric) 2
       (transform (world_of synthetic_run_geometric)).
Proof.
  pose proof (one_commit_per_level tt im1 im2 None None start_geometric) as H.
  cbv zeta in H. destruct H as (_ & H).
  destruct (H synthetic_run_geometric_returns) as (Hlen & _ & Hchain & _).
  split; [exact synthetic_run_geometric_returns|].
  split; [exact Hlen|exact Hchain].
Defined.

Lemma midway_header_once_witness :
  outcome_of synthetic_run = Returned tt
  /\ (length (average_headers (trace_of synthetic_run)) <= 1)%nat
  /\ exists post,
       trace_of synthetic_run =
         trace_of (initialise im1 im2 start)
         ++ EvAverageHeader [original_header im2; original_header im1] (Finite 1.0)
              [Finite 0.0; Finite 0.0; Finite 0.0; Finite 0.0]
              [get_transform_half (transform (world_of (initialise im1 im2 start)));
               get_transform_half_inverse
                 (transform (world_of (initialise im1 im2 start)))]
            :: post
       /\ average_headers post = [].
Proof.
  pose proof (midway_header_once tt im1 im2 None None start) as H.
  cbv zeta in H. destruct H as (_ & _ & Hlen & Hret & _).
  split; [exact synthetic_run_returns|].
  split; [exact Hlen|exact (Hret synthetic_run_returns)].
Defined.


(** A [sparsity] of one element against its expansion, and a [max_iter] of
    three elements for two levels. *)
Lemma singleton_broadcast_witness :
  (length (max_iter Linear_new) = 1%nat
   \/ length (max_iter Linear_new) = length (scale_factor Linear_new))
  /\ run_masked tt im1 im2 None None (mkWorld (with_sparsity [Finite (1 # 2)] Linear_new) 0)
     = run_masked tt im1 im2 None None
         (mkWorld (with_sparsity [Finite (1 # 2); Finite (1 # 2)] Linear_new) 0)
  /\ (length [1; 2; 3]%Z <> 1%nat /\ length [1; 2; 3]%Z <> 2%nat)
  /\ trace_of (run_masked tt im1 im2 None None
                 (mkWorld (with_max_iter [1; 2; 3]%Z Linear_new) 0)) = [].
Proof.
  pose proof (singleton_broadcast tt im1 im2 None None Linear_new 0) as H.
  pose proof (singleton_broadcast tt im1 im2 None None
                (with_max_iter [1; 2; 3]%Z Linear_new) 0) as H'.
  cbv zeta in H, H'. destruct H as (_ & Hs & _). destruct H' as (_ & _ & Hbad).
  assert (Hvalid : length (max_iter Linear_new) = 1%nat
                   \/ length (max_iter Linear_new) = length (scale_factor Linear_new))
    by (left; reflexivity).
  assert (Hlen : length [1; 2; 3]%Z <> 1%nat /\ length [1; 2; 3]%Z <> 2%nat)
    by (split; simpl; lia).
  split; [exact Hvalid|].
  split; [exact (proj1 (Hs (Finite (1 # 2)) Hvalid))|].
  split; [exact Hlen|].
  exact (proj1 (Hbad (or_introl Hlen))).
Defined.

(** C8 as stated fails: the run started with the object as constructed leaves
    two elements in [max_iter], which had one. *)
Lemma run_changes_max_iter :
  max_iter (this (world_of (run_masked tt im1 im2 None None start))) <> max_iter (this start).
Proof. vm_compute. discriminate. Qed.

Lemma run_masked_configuration_witness :
  max_iter (this start) = [300%Z]
  /\ max_iter (this (world_of synthetic_run)) = [300%Z; 300%Z]
  /\ length (sparsity (this (world_of synthetic_run)))
     = length (scale_factor (this (world_of synthetic_run)))
  /\ sparsity (this (world_of (run_masked tt im1 im2 None None (world_of synthetic_run))))
     = sparsity (this (world_of synthetic_run)).
Proof.
  pose proof (run_masked_configuration tt im1 im2 None None start) as H.
  pose proof (run_masked_configuration tt im1 im2 None None (world_of synthetic_run))
    as H'.
  cbv zeta in H, H'.
  destruct H as (_ & _ & _ & _ & _ & _ & _ & _ & _ & _ & Hm & _).
  destruct H' as (_ & _ & _ & _ & _ & _ & _ & _ & _ & Hs & _).
  assert (Hone : max_iter (this start) = [300%Z]) by reflexivity.
  assert (Hlen : length (sparsity (this (world_of synthetic_run)))
                 = length (scale_factor (this (world_of synthetic_run))))
    by (vm_compute; reflexivity).
  split; [exact Hone|].
  split; [exact (Hm 300%Z Hone)|].
  split; [exact Hlen|exact (Hs Hlen)].
Defined.


(** A NaN among the scale factors is stored. *)
Lemma set_scale_factor_accepts_witness :
  set_scale_factor [Finite (1 # 2); NaN] Linear_new
  = (with_scale_factor [Finite (1 # 2); NaN] Linear_new, Returned tt).
Proof.
  destruct (set_scale_factor_accepts [Finite (1 # 2); NaN] Linear_new)
    as [[_ H]|[Hex _]]; [exact H|].
  exfalso. apply Exists_exists in Hex. destruct Hex as (x & Hin & Hno).
  apply Hno. destruct Hin as [<-|[<-|[]]].
  - right. exists (1 # 2). split; [reflexivity|]. split; [reflexivity|discriminate].
  - left. reflexivity.
Defined.

(** A NaN among the sparsities is stored. *)
Lemma set_sparsity_accepts_witness :
  set_sparsity [NaN; Finite 1] Linear_new
  = (with_sparsity [NaN; Finite 1] Linear_new, Returned tt).
Proof.
  destruct (set_sparsity_accepts [NaN; Finite 1] Linear_new)
    as [[_ H]|[Hex _]]; [exact H|].
  exfalso. apply Exists_exists in Hex. destruct Hex as (x & Hin & Hno).
  apply Hno. destruct Hin as [<-|[<-|[]]].
  - left. reflexivity.
  - right. exists 1. split; [reflexivity|]. split; discriminate.
Defined.

(** Three levels set through [set_scale_factor], the first with a NaN,
    which is stored. *)
Lemma reachable_well_formed_witness :
  reachable (fst (set_scale_factor [NaN; Finite (1 # 2); Finite 1] Linear_new))
  /\ scale_factor (fst (set_scale_factor [NaN; Finite (1 # 2); Finite 1] Linear_new))
     = [NaN; Finite (1 # 2); Finite 1]
  /\ well_formed (fst (set_scale_factor [NaN; Finite (1 # 2); Finite 1] Linear_new)).
Proof.
  assert (H : reachable
                (fst (set_scale_factor [NaN; Finite (1 # 2); Finite 1] Linear_new))).
  { apply reach_setter; [apply reach_new|apply is_set_scale_factor]. }
  split; [exact H|]. split; [reflexivity|exact (reachable_well_formed H)].
Defined.

Lemma run_values_in_range_witness :
  reachable (this start)
  /\ Forall (fun c => (0 <= oc_max_iterations c)%Z /\ sparsity_ok (oc_sparsity c))
       (optim_calls (trace_of synthetic_run)).
Proof.
  assert (H : reachable (this start)) by apply reach_new.
  split; [exact H|].
  pose proof (run_values_in_range tt im1 im2 None None start H) as Hr.
  cbv zeta in Hr. destruct Hr as (_ & _ & Hc).
  apply Forall_forall. exact Hc.
Defined.

(** A [max_iter] of three elements for two levels, and a [sparsity] of three
    elements next to a [max_iter] of one. *)
Lemma length_errors_in_order_witness :
  (length [1; 2; 3]%Z <> 1%nat /\ length [1; 2; 3]%Z <> 2%nat)
  /\ run_masked tt im1 im2 None None (mkWorld (with_max_iter [1; 2; 3]%Z Linear_new) 0)
     = ([], mkWorld (with_max_iter [1; 2; 3]%Z Linear_new) 0, Thrown max_iter_error)
  /\ max_iter (with_sparsity [Finite 0; Finite 0; Finite 0] Linear_new) = [300%Z]
  /\ run_masked tt im1 im2 None None
       (mkWorld (with_sparsity [Finite 0; Finite 0; Finite 0] Linear_new) 0)
     = ([], mkWorld (with_max_iter (repeat 300%Z 2)
                       (with_sparsity [Finite 0; Finite 0; Finite 0] Linear_new)) 0,
        Thrown sparsity_error).
Proof.
  pose proof (length_errors_in_order tt im1 im2 None None
                (with_max_iter [1; 2; 3]%Z Linear_new) 0) as H.
  pose proof (length_errors_in_order tt im1 im2 None None
                (with_sparsity [Finite 0; Finite 0; Finite 0] Linear_new) 0) as H'.
  cbv zeta in H, H'. destruct H as [H _]. destruct H' as [_ H'].
  assert (Hlen : length [1; 2; 3]%Z <> 1%nat /\ length [1; 2; 3]%Z <> 2%nat)
    by (split; simpl; lia).
  split; [exact Hlen|].
  split; [exact (H (proj1 Hlen) (proj2 Hlen))|].
  split; [reflexivity|].
  exact (H' 300%Z eq_refl ltac:(simpl; lia) ltac:(simpl; lia)).
Defined.

Lemma optimiser_call_context_witness :
  Forall (fun c => oc_im1_mask c = None /\ oc_extent c = [1; 1; 1]%N
                   /\ oc_directions c = None)
    (optim_calls (trace_of synthetic_run)).
Proof.
  apply Forall_forall. intros c Hc.
  pose proof (optimiser_call_context tt im1 im2 None None start) as H.
  cbv zeta in H. destruct (H c Hc) as (_ & Hm & _ & He & Hd & _).
  split; [exact Hm|]. split; [exact He|]. exact (Hd eq_refl).
Defined.


Lemma sparsity_per_level_witness :
  outcome_of synthetic_run = Returned tt
  /\ map oc_sparsity (optim_calls (trace_of synthetic_run))
     = sparsity (this (world_of synthetic_run)).
Proof.
  pose proof (sparsity_per_level tt im1 im2 None None start) as H.
  cbv zeta in H. destruct H as [_ H].
  split; [exact synthetic_run_returns|exact (H synthetic_run_returns)].
Defined.

Lemma log_records_witness :
  log_stream (this start) = None
  /\ pick as_log (trace_of synthetic_run) = []
  /\ log_stream (fst (set_gradient_descent_log_stream (Some 7%nat) Linear_new))
     = Some 7%nat
  /\ length (pick as_log
               (trace_of (run_masked tt im1 im2 None None
                            (mkWorld (fst (set_gradient_descent_log_stream
                                             (Some 7%nat) Linear_new)) 0))))
     = length (commits
                 (trace_of (run_masked tt im1 im2 None None
                              (mkWorld (fst (set_gradient_descent_log_stream
                                               (Some 7%nat) Linear_new)) 0)))).
Proof.
  pose proof (log_records tt im1 im2 None None start) as H.
  pose proof (log_records tt im1 im2 None None
                (mkWorld (fst (set_gradient_descent_log_stream (Some 7%nat) Linear_new))
                   0)) as H'.
  cbv zeta in H, H'. destruct H as [H _]. destruct H' as [_ H'].
  split; [reflexivity|]. split; [exact (H eq_refl)|]. split; [reflexivity|].
  destruct (H' 7%nat eq_refl) as (_ & _ & Hlen). exact Hlen.
Defined.

Lemma console_messages_witness :
  outcome_of synthetic_run = Returned tt
  /\ pick as_console (trace_of synthetic_run)
     = map (level_message (this (world_of synthetic_run)))
         (seq 0 (length (scale_factor (this (world_of synthetic_run))))).
Proof.
  pose proof (console_messages tt im1 im2 None None start) as H.
  cbv zeta in H. destruct H as (_ & H & _).
  split; [exact synthetic_run_returns|exact (H synthetic_run_returns)].
Defined.


Lemma empty_schedule_witness :
  scale_factor (fst (set_scale_factor [] Linear_new)) = []
  /\ optim_calls (trace_of (run_masked tt im1 im2 None None
                              (mkWorld (fst (set_scale_factor [] Linear_new)) 0))) = []
  /\ max_iter (this (world_of (run_masked tt im1 im2 None None
                                 (mkWorld (fst (set_scale_factor [] Linear_new)) 0))))
     = [].
Proof.
  assert (H : scale_factor (this (mkWorld (fst (set_scale_factor [] Linear_new)) 0)) = [])
    by reflexivity.
  pose proof (empty_schedule tt im1 im2 None None
                (mkWorld (fst (set_scale_factor [] Linear_new)) 0) H) as He.
  cbv zeta in He. destruct He as (Ho & _ & _ & Hret).
  split; [reflexivity|]. split; [exact Ho|].
  destruct (Hret ltac:(vm_compute; reflexivity)) as (_ & _ & Hm & _). exact Hm.
Defined.

Lemma run_masked_defined_witness :
  outcome_of synthetic_run <> Undefined
  /\ outcome_of (run_masked tt im1 im2 None None
                   (mkWorld (with_scale_factor [Finite 0] Linear_new) 0))
     <> Undefined.
Proof.
  split.
  - exact (run_masked_defined tt im1 im2 None None start).
  - exact (run_masked_defined tt im1 im2 None None
             (mkWorld (with_scale_factor [Finite 0] Linear_new) 0)).
Defined.

End SyntheticRuns.

(** [-maxiter 3] on a state that counts the passes of the two loops: the
    outer loop runs for [iter = 1] and [iter = 2]. *)
Lemma outer_loop_bound_witness :
  (Z.to_nat (MtLognorm.max_iter_of (Some 3%Z)) <= 3)%nat
  /\ exists reported s',
       MtLognorm.estimate (fun s : Z * Z => (Z.succ (fst s), snd s))
         (fun _ => false) (fun s => s) (fun s => s)
         (fun s : Z * Z => (fst s, Z.succ (snd s)))
         (Some 3%Z) 3 3 (0%Z, 0%Z) = Some (reported, s')
       /\ reported = [1%Z; 2%Z].
Proof.
  assert (Hfuel : (Z.to_nat (MtLognorm.max_iter_of (Some 3%Z)) <= 3)%nat)
    by (vm_compute; lia).
  split; [exact Hfuel|].
  destruct (@outer_loop_bound (Z * Z) (fun s : Z * Z => (Z.succ (fst s), snd s))
              (fun _ => false) (fun s => s) (fun s => s)
              (fun s : Z * Z => (fst s, Z.succ (snd s)))
              (Some 3%Z) 3 3 (0%Z, 0%Z) Hfuel Hfuel)
    as (reported & s' & Hrun & Hrep & _).
  exists reported, s'. split; [exact Hrun|].
  rewrite Hrep. reflexivity.
Defined.

(** [-maxiter 4] on a state that counts the outlier rejections: three inner
    passes in the first outer pass. *)
Lemma first_pass_never_converges_witness :
  (4 < 2 ^ 64)%Z
  /\ MtLognorm.norm_loop (fun s : nat => s) (fun _ => true) S (fun s => s)
       3 4 1 1 false 0%nat = Some 3%nat.
Proof.
  assert (Hmax : (4 < 2 ^ 64)%Z) by (vm_compute; reflexivity).
  split; [exact Hmax|].
  exact (@first_pass_never_converges nat (fun s => s) (fun _ => true) S (fun s => s)
           3 4 0%nat Hmax ltac:(vm_compute; lia)).
Defined.

(** The change is small from the third pass on: two outlier rejections. *)
Lemma norm_loop_stops_when_converged_witness :
  (1 < 2)%Z
  /\ MtLognorm.norm_loop (fun s : nat => s) (fun s => Nat.leb 2 s) S (fun s => s)
       5 10 2 1 false 0%nat = Some 2%nat.
Proof.
  assert (Hiter : (1 < 2)%Z) by lia.
  split; [exact Hiter|].
  refine (@norm_loop_stops_when_converged nat (fun s => s) (fun s => Nat.leb 2 s) S
            (fun s => s) 2 5 10 2 0%nat Hiter _ _ _ _ _).
  - vm_compute. reflexivity.
  - vm_compute. reflexivity.
  - lia.
  - intros j Hj. destruct j as [|[|j]]; [reflexivity|reflexivity|lia].
  - reflexivity.
Defined.

Lemma basis_function_cubic_witness :
  In (2, 0, 1) MtLognormSetup.basis_exponents /\ 2 + 0 + 1 <= 3.
Proof.
  destruct (basis_function_cubic 1 2 3) as (_ & _ & _ & H).
  assert (Hle : 2 + 0 + 1 <= 3) by (simpl; lia).
  split; [exact (proj2 (H 2 0 1) Hle)|exact Hle].
Defined.

(** Two tissues; images and headers are stood for by the names they are
    opened from, no output file exists. *)
Lemma open_inputs_returned_witness :
  MtLognormSetup.open_inputs (fun name => inr name) (fun _ _ => inr tt)
    (fun _ => false) false (fun name => inr name)
    ["wm.mif"; "wm_norm.mif"; "gm.mif"; "gm_norm.mif"]
  = Returned (MtLognormSetup.mkInputs ["wm.mif"; "gm.mif"] ["wm.mif"; "gm.mif"]
                ["wm_norm.mif"; "gm_norm.mif"])
  /\ MtLognormSetup.output_filenames
       (MtLognormSetup.mkInputs ["wm.mif"; "gm.mif"] ["wm.mif"; "gm.mif"]
          ["wm_norm.mif"; "gm_norm.mif"])
     = map snd (MtLognormSetup.pair_up
                  ["wm.mif"; "wm_norm.mif"; "gm.mif"; "gm_norm.mif"]).
Proof.
  assert (H : MtLognormSetup.open_inputs (fun name => inr name) (fun _ _ => inr tt)
                (fun _ => false) false (fun name => inr name)
                ["wm.mif"; "wm_norm.mif"; "gm.mif"; "gm_norm.mif"]
              = Returned (MtLognormSetup.mkInputs ["wm.mif"; "gm.mif"]
                            ["wm.mif"; "gm.mif"] ["wm_norm.mif"; "gm_norm.mif"]))
    by reflexivity.
  split; [exact H|].
  destruct (open_inputs_returned _ _ _ _ _ _ H) as (_ & _ & _ & Hout & _).
  exact Hout.
Defined.

Lemma open_inputs_counts_witness :
  Nat.odd (length ["a"; "b"; "c"]) = true
  /\ MtLognormSetup.open_inputs (fun name : string => inr name)
       (fun _ _ : string => inr tt) (fun _ => false) false
       (fun name : string => inr name) ["a"; "b"; "c"]
     = Thrown MtLognormSetup.odd_error.
Proof.
  assert (H : Nat.odd (length ["a"; "b"; "c"]) = true) by reflexivity.
  split; [exact H|].
  exact (proj1 (@open_inputs_counts string string (fun name => inr name)
                  (fun _ _ => inr tt) (fun _ => false) false (fun name => inr name)
                  ["a"; "b"; "c"]) H).
Defined.

(** The output of the second tissue exists and [-force] is not given: the
    text quotes [gm.mif]. *)
Lemma existing_output_names_input_witness :
  String.eqb "gm_norm.mif" "gm_norm.mif" = true
  /\ MtLognormSetup.open_inputs (fun name : string => inr name)
       (fun _ _ : string => inr tt) (String.eqb "gm_norm.mif") false
       (fun name : string => inr name)
       (["wm.mif"; "wm_norm.mif"] ++ "gm.mif" :: "gm_norm.mif" :: [])
     = Thrown (mkException
                 ("output file " ++ MtLognormSetup.double_quote ++ "gm.mif"
                  ++ MtLognormSetup.double_quote
                  ++ " already exists (use -force option to force overwrite)")).
Proof.
  assert (Hex : String.eqb "gm_norm.mif" "gm_norm.mif" = true) by reflexivity.
  split; [exact Hex|].
  refine (@existing_output_names_input string string (fun name => inr name)
            (fun _ _ => inr tt) (String.eqb "gm_norm.mif") false (fun name => inr name)
            ["wm.mif"; "wm_norm.mif"] [] "gm.mif" "gm_norm.mif"
            (MtLognormSetup.mkInputs ["wm.mif"] ["wm.mif"] ["wm_norm.mif"]) "gm.mif"
            _ _ _ _ _ Hex _).
  - simpl. lia.
  - reflexivity.
  - reflexivity.
  - reflexivity.
  - reflexivity.
  - reflexivity.
Defined.

Lemma insertion_sort_length (l : list Q) :
  length (MtLognormOutliers.insertion_sort l) = length l.
Proof.
  assert (Hins : forall x l', length (MtLognormOutliers.insert_sorted x l')
                              = S (length l')).
  { intros x l'. induction l' as [|y l' IH]; simpl; [reflexivity|].
    destruct (Qle_bool x y); simpl; [reflexivity|now rewrite IH]. }
  induction l as [|x l IH]; simpl; [reflexivity|].
  unfold MtLognormOutliers.insertion_sort in *. now rewrite Hins, IH.
Qed.


(** Two voxels: the upper quartile is read at index 2. *)
Lemma quartile_lookup_range_witness :
  2 < 3
  /\ MtLognormOutliers.rational_reject_outliers (map inject_Z [1; 2]%Z) [true; true]
       [false; false] = Undefined.
Proof.
  assert (Hn : 2 < 3) by lia.
  split; [exact Hn|].
  refine (proj2 (proj1 (@quartile_lookup_range Q (fun _ => true) Qlt_bool 0%Q
                          MtLognormOutliers.insertion_sort _ _
                          (map inject_Z [1; 2]%Z) [true; true] [false; false]
                          insertion_sort_length _)) Hn).
  vm_compute. discriminate.
Defined.

